(** * Transformers4Rec: synthetic data from a schema, and schema augmentation

    A shallow embedding of [transformers4rec/torch/utils/schema_utils.py]:
    [random_data_from_schema] with its three ragged-to-dense helpers
    ([_pull_values_offsets], [_get_indices], [_get_sparse_tensor]) and
    [_augment_schema].

    Python exceptions are an error result; the ambient random generators
    ([random] and [torch]) are an explicit state threaded through the
    generator; dictionaries keep insertion order. *)

From Stdlib Require Import String ZArith QArith List Lia Bool.
Import ListNotations.
Open Scope Z_scope.

(** ** Exceptions and results *)

Inductive exn : Type :=
| ValueError
| RuntimeError
| IndexError
| KeyError
| TypeError.

Inductive result (A : Type) : Type :=
| Ok (a : A)
| Raise (e : exn).

Arguments Ok {A} a.
Arguments Raise {A} e.

Definition bindR {A B} (r : result A) (k : A -> result B) : result B :=
  match r with
  | Ok a => k a
  | Raise e => Raise e
  end.

Notation "x <- c ;; k" := (bindR c (fun x => k))
  (at level 61, c at next level, right associativity).
Notation "' pat <- c ;; k" := (bindR c (fun x => match x with pat => k end))
  (at level 61, pat pattern, c at next level, right associativity).

(** ** Python dictionaries (insertion ordered) *)

Module Dict.

Definition t (V : Type) : Type := list (string * V).

Fixpoint get {V} (d : t V) (k : string) : option V :=
  match d with
  | [] => None
  | (k', v) :: d' => if String.eqb k k' then Some v else get d' k
  end.

(** [d[k] = v]: overwrite in place, or append a new key. *)
Fixpoint set {V} (d : t V) (k : string) (v : V) : t V :=
  match d with
  | [] => [(k, v)]
  | (k', v') :: d' =>
      if String.eqb k k' then (k, v) :: d' else (k', v') :: set d' k v
  end.

Definition keys {V} (d : t V) : list string := map fst d.

End Dict.

(** ** Tensors

    A tensor is its dtype, its shape and its elements in row-major order.
    Elements are rationals: an [Int64] tensor holds [inject_Z z], a [Float32]
    tensor holds the value of the float. *)

Inductive dtype : Type := Int64 | Float32.

Record tensor : Type := mkTensor {
  t_dtype : dtype;
  t_shape : list Z;
  t_data : list Q
}.

Definition numel (shape : list Z) : Z := fold_right Z.mul 1 shape.

(** Type promotion of [torch.cat] and [torch.stack]. *)
Definition promote (a b : dtype) : dtype :=
  match a, b with
  | Int64, Int64 => Int64
  | _, _ => Float32
  end.

Definition shape_eqb (a b : list Z) : bool :=
  if list_eq_dec Z.eq_dec a b then true else false.

(** [len(t)]: size of the leading dimension. *)
Definition len (t : tensor) : result Z :=
  match t_shape t with
  | d :: _ => Ok d
  | [] => Raise TypeError
  end.

(** [torch.cat((a, b))] along dimension 0. *)
Definition cat (a b : tensor) : result tensor :=
  match t_shape a, t_shape b with
  | da :: ra, db :: rb =>
      if shape_eqb ra rb
      then Ok (mkTensor (promote (t_dtype a) (t_dtype b)) (da + db :: ra)
                        (t_data a ++ t_data b))
      else Raise RuntimeError
  | _, _ => Raise RuntimeError
  end.

(** [torch.stack(ts, dim=0)]. *)
Definition stack (ts : list tensor) : result tensor :=
  match ts with
  | [] => Raise RuntimeError
  | t0 :: rest =>
      if forallb (fun t => shape_eqb (t_shape t) (t_shape t0)) rest
      then Ok (mkTensor (fold_left promote (map t_dtype rest) (t_dtype t0))
                        (Z.of_nat (length ts) :: t_shape t0)
                        (concat (map t_data ts)))
      else Raise RuntimeError
  end.

(** ** The random sources

    [random.randint], [torch.randint] and [torch.rand] draw from ambient
    generators.  [RS] is the joint state of those generators; the three
    operations are the draws, asked for a flat number of elements. *)

Inductive device : Type := CPU | CUDA (index : nat).

Class RandomSource (RS : Type) : Type := {
  py_randint : Z -> Z -> RS -> Z * RS;
  torch_randint_draw : option device -> Z -> Z -> nat -> RS -> list Z * RS;
  torch_rand_draw : option device -> nat -> RS -> list Q * RS
}.

(** The documented contract of the three draws. *)
Class RandomSourceLaws (RS : Type) {R : RandomSource RS} : Prop := {
  py_randint_range : forall a b s,
    a <= b -> a <= fst (py_randint a b s) <= b;
  torch_randint_length : forall dev lo hi n s,
    length (fst (torch_randint_draw dev lo hi n s)) = n;
  torch_randint_range : forall dev lo hi n s,
    lo < hi -> Forall (fun v => lo <= v < hi) (fst (torch_randint_draw dev lo hi n s));
  torch_rand_length : forall dev n s,
    length (fst (torch_rand_draw dev n s)) = n;
  torch_rand_range : forall dev n s,
    Forall (fun q => (0 <= q)%Q /\ (q < 1)%Q) (fst (torch_rand_draw dev n s))
}.

(** ** The schema read by the generator

    The protobuf [Feature] of [merlin_standard_lib]: [has_field] is whether
    the optional field is [Some].  [value_count] and [int_domain] are
    represented by their [max], [shape] by its list of [dim[i].size]. *)

Record Feature : Type := mkFeature {
  name : string;
  value_count : option Z;
  int_domain : option Z;
  shape : option (list Z)
}.

Record Schema : Type := mkSchema { feature : list Feature }.

(** Values stored in [data]: a tensor, the pair [(values, lengths)] of a list
    feature, or the Python list of the rows of an embedding feature. *)
Inductive pyval : Type :=
| VTensor (t : tensor)
| VTuple (values : tensor) (lengths : list Z)
| VList (rows : list tensor).

(** [x or y] on an optional integer: [None] and [0] are falsy. *)
Definition py_or (x : option Z) (y : Z) : Z :=
  match x with
  | Some v => if v =? 0 then y else v
  | None => y
  end.

(** Truthiness of an optional integer, as tested by [if max_session_length:]. *)
Definition truthy (x : option Z) : bool :=
  match x with
  | Some v => negb (v =? 0)
  | None => false
  end.

(** ** State and exception monad of the generator *)

Definition M (S A : Type) : Type := S -> result (A * S).

Definition ret {S A} (a : A) : M S A := fun s => Ok (a, s).

Definition bindM {S A B} (m : M S A) (k : A -> M S B) : M S B :=
  fun s => match m s with
           | Ok (a, s') => k a s'
           | Raise e => Raise e
           end.

Definition lift {S A} (r : result A) : M S A :=
  fun s => match r with
           | Ok a => Ok (a, s)
           | Raise e => Raise e
           end.

Notation "x <~ c ;; k" := (bindM c (fun x => k))
  (at level 61, c at next level, right associativity).

(** A [for] loop that threads an accumulator. *)
Fixpoint foldM {S A B} (body : A -> B -> M S A) (a : A) (xs : list B) : M S A :=
  match xs with
  | [] => ret a
  | x :: xs' => a' <~ body a x ;; foldM body a' xs'
  end.

(** [n] consecutive integers from [start]. *)
Fixpoint zseq (start : Z) (n : nat) : list Z :=
  match n with
  | O => []
  | S n' => start :: zseq (start + 1) n'
  end.

(** [range(n)], and [torch.arange(n)] as a list. *)
Definition range (n : Z) : list Z := zseq 0 (Z.to_nat n).

(** ** Ragged-to-dense helpers *)

Fixpoint zip_with {A B C} (f : A -> B -> C) (xs : list A) (ys : list B) : list C :=
  match xs, ys with
  | x :: xs', y :: ys' => f x y :: zip_with f xs' ys'
  | _, _ => []
  end.

(** [t.flatten()]: one dimension, as long as the number of elements. *)
Definition flatten (t : tensor) : tensor :=
  mkTensor (t_dtype t) [Z.of_nat (length (t_data t))] (t_data t).

(** The argument of [_pull_values_offsets]: a tuple (values, offsets), or a
    dense tensor with one value per row. *)
Inductive values_offset : Type :=
| VOTuple (values : tensor) (offsets : list Z)
| VODense (values : tensor).

Definition _pull_values_offsets (vo : values_offset)
  : tensor * list Z * list Z * Z :=
  let '(values, offsets) :=
    match vo with
    | VOTuple v o => (flatten v, o)
    | VODense v => (flatten v, range (Z.of_nat (length (t_data v))))
    end in
  let num_rows := Z.of_nat (length offsets) in
  let offsets := offsets ++ [Z.of_nat (length (t_data values))] in
  let diff_offsets := zip_with Z.sub (tl offsets) (removelast offsets) in
  (values, offsets, diff_offsets, num_rows).

(** [torch.repeat_interleave(xs, repeats)] with one repeat count per
    element; a negative count is an error. *)
Fixpoint repeat_interleave {A} (xs : list A) (repeats : list Z) : result (list A) :=
  match xs, repeats with
  | [], [] => Ok []
  | x :: xs', r :: repeats' =>
      if r <? 0 then Raise RuntimeError
      else rest <- repeat_interleave xs' repeats' ;;
           Ok (repeat x (Z.to_nat r) ++ rest)
  | _, _ => Raise RuntimeError
  end.

(** The rows of [indices] are (row, column) pairs. *)
Definition _get_indices (offsets diff_offsets : list Z) : result (list (Z * Z)) :=
  let row_ids := range (Z.of_nat (length offsets) - 1) in
  row_ids_repeated <- repeat_interleave row_ids diff_offsets ;;
  row_offset_repeated <- repeat_interleave (removelast offsets) diff_offsets ;;
  let col_ids :=
    zip_with Z.sub (range (Z.of_nat (length row_offset_repeated))) row_offset_repeated in
  if Nat.eqb (length row_ids_repeated) (length col_ids)
  then Ok (combine row_ids_repeated col_ids)
  else Raise RuntimeError.

(** Value of cell (r, c) of a COO tensor: the sum of the entries stored at
    that coordinate. *)
Definition coo_cell (entries : list ((Z * Z) * Q)) (r c : Z) : Q :=
  fold_left Qplus
    (map snd (filter (fun e => (fst (fst e) =? r) && (snd (fst e) =? c)) entries))
    0%Q.

Definition in_bounds (num_rows seq_limit : Z) (ix : Z * Z) : bool :=
  (0 <=? fst ix) && (fst ix <? num_rows) && (0 <=? snd ix) && (snd ix <? seq_limit).

(** [torch.sparse_coo_tensor(indices.T, values, Size([num_rows, seq_limit]))
    .to_dense()]: the constructor rejects a coordinate outside the size. *)
Definition _get_sparse_tensor (values : tensor) (indices : list (Z * Z))
    (num_rows seq_limit : Z) : result tensor :=
  if (0 <=? num_rows) && (0 <=? seq_limit)
     && Nat.eqb (length indices) (length (t_data values))
     && forallb (in_bounds num_rows seq_limit) indices
  then
    let entries := combine indices (t_data values) in
    Ok (mkTensor (t_dtype values) [num_rows; seq_limit]
          (flat_map (fun r => map (coo_cell entries r) (range seq_limit))
                    (range num_rows)))
  else Raise RuntimeError.

(** ** The generator *)

Definition is_list_feature (f : Feature) : bool :=
  match value_count f with Some _ => true | None => false end.

(** [feature.shape.dim[0].size > 1 if has_field(feature, "shape") else False]. *)
Definition is_embedding (f : Feature) : result bool :=
  match shape f with
  | Some (d0 :: _) => Ok (1 <? d0)
  | Some [] => Raise IndexError
  | None => Ok false
  end.

(** [[d.size for d in feature.shape.dim] if has_field(feature, "shape") else (1,)]. *)
Definition shape_of (f : Feature) : list Z :=
  match shape f with
  | Some dims => dims
  | None => [1]
  end.

(** Lines 64-84: the value stored under [feature.name] after one row, from
    the value [old] stored before (if any) and the row just drawn.  A value
    of the wrong Python type under the name (two features of different
    kinds sharing a name) ends in [TypeError]. *)
Definition accumulate (f : Feature) (is_emb : bool) (i num_rows : Z)
    (old : option pyval) (row : tensor) : result pyval :=
  if is_list_feature f then
    n <- len row ;;
    match old with
    | Some (VTuple values lengths) =>
        values' <- cat values row ;;
        Ok (VTuple values' (lengths ++ [n]))
    | Some _ => Raise TypeError
    | None => Ok (VTuple row [n])
    end
  else
    match old with
    | Some prev =>
        if is_emb then
          rows <- match prev with
                  | VList rows => Ok (rows ++ [row])
                  | VTensor t => Ok [t; row]
                  | VTuple _ _ => Raise TypeError
                  end ;;
          if i =? num_rows - 1
          then t <- stack rows ;; Ok (VTensor t)
          else Ok (VList rows)
        else
          match prev with
          | VTensor t => t' <- cat t row ;; Ok (VTensor t')
          | _ => Raise TypeError
          end
    | None => Ok (VTensor row)
    end.

(** Lines 89-91: [offsets = [0]], then one prefix sum per length but the
    last. *)
Definition offsets_of_lengths (lengths : list Z) : list Z :=
  fold_left (fun offsets length => offsets ++ [last offsets 0 + length])
            (removelast lengths) [0].

(** Lines 89-95: the four arguments handed to [_get_sparse_tensor] for a
    (values, lengths) pair. *)
Definition sparse_args (max_session_length : option Z) (v : tensor)
    (lengths : list Z) : result (tensor * list (Z * Z) * Z * Z) :=
  let offsets := offsets_of_lengths lengths in
  let '(values, offsets, diff_offsets, num_rows) :=
    _pull_values_offsets (VOTuple v offsets) in
  indices <- _get_indices offsets diff_offsets ;;
  first <- match lengths with
           | l0 :: _ => Ok l0
           | [] => Raise IndexError
           end ;;
  let seq_limit := py_or max_session_length first in
  Ok (values, indices, num_rows, seq_limit).

(** Lines 88-98: the output stored for one entry of [data]. *)
Definition densify_val (max_session_length : option Z) (val : pyval)
  : result pyval :=
  match val with
  | VTuple v lengths =>
      '(values, indices, num_rows, seq_limit) <-
        sparse_args max_session_length v lengths ;;
      t <- _get_sparse_tensor values indices num_rows seq_limit ;;
      Ok (VTensor t)
  | _ => Ok val
  end.

Fixpoint densify (max_session_length : option Z) (items : list (string * pyval))
    (outputs : Dict.t pyval) : result (Dict.t pyval) :=
  match items with
  | [] => Ok outputs
  | (key, val) :: rest =>
      out <- densify_val max_session_length val ;;
      densify max_session_length rest (Dict.set outputs key out)
  end.

Section Generator.

Context {RS : Type} {R : RandomSource RS}.

(** [random.randint(a, b)]: [ValueError] on an empty range. *)
Definition random_randint (a b : Z) : M RS Z :=
  fun s => if a <=? b then Ok (py_randint a b s) else Raise ValueError.

(** [torch.randint(low, high, size, device=device)]. *)
Definition torch_randint (low high : Z) (size : list Z) (dev : option device)
  : M RS tensor :=
  fun s =>
    if forallb (fun d => 0 <=? d) size && (low <? high)
    then let '(vs, s') := torch_randint_draw dev low high (Z.to_nat (numel size)) s in
         Ok (mkTensor Int64 size (map inject_Z vs), s')
    else Raise RuntimeError.

(** [torch.rand(size, device=device)]. *)
Definition torch_rand (size : list Z) (dev : option device) : M RS tensor :=
  fun s =>
    if forallb (fun d => 0 <=? d) size
    then let '(vs, s') := torch_rand_draw dev (Z.to_nat (numel size)) s in
         Ok (mkTensor Float32 size vs, s')
    else Raise RuntimeError.

(** Lines 49-62: the row drawn for one feature. *)
Definition draw_row (f : Feature) (session_length : option Z)
    (dev : option device) : M RS tensor :=
  match int_domain f with
  | Some max_num =>
      match value_count f with
      | Some vc_max =>
          let list_length := py_or session_length vc_max in
          torch_randint 1 max_num [list_length] dev
      | None => torch_randint 1 max_num (shape_of f) dev
      end
  | None =>
      match value_count f with
      | Some vc_max =>
          let list_length := py_or session_length vc_max in
          torch_rand [list_length] dev
      | None => torch_rand (shape_of f) dev
      end
  end.

(** Lines 43-84: one feature of one row. *)
Definition feature_step (num_rows : Z) (session_length : option Z)
    (dev : option device) (i : Z) (data : Dict.t pyval) (f : Feature)
  : M RS (Dict.t pyval) :=
  is_emb <~ lift (is_embedding f) ;;
  row <~ draw_row f session_length dev ;;
  v <~ lift (accumulate f is_emb i num_rows (Dict.get data (name f)) row) ;;
  ret (Dict.set data (name f) v).

(** Lines 38-40. *)
Definition draw_session_length (max_session_length : option Z)
    (min_session_length : Z) : M RS (option Z) :=
  match max_session_length with
  | Some m =>
      if m =? 0 then ret None
      else sl <~ random_randint min_session_length m ;; ret (Some sl)
  | None => ret None
  end.

(** Lines 37-84: one row. *)
Definition row_step (schema : Schema) (num_rows : Z)
    (max_session_length : option Z) (min_session_length : Z)
    (dev : option device) (data : Dict.t pyval) (i : Z)
  : M RS (Dict.t pyval) :=
  session_length <~ draw_session_length max_session_length min_session_length ;;
  foldM (feature_step num_rows session_length dev i) data (feature schema).

(** Lines 35-84: the accumulated [data]. *)
Definition generate (schema : Schema) (num_rows : Z)
    (max_session_length : option Z) (min_session_length : Z)
    (dev : option device) : M RS (Dict.t pyval) :=
  foldM (row_step schema num_rows max_session_length min_session_length dev)
        [] (range num_rows).

Definition random_data_from_schema (schema : Schema) (num_rows : Z)
    (max_session_length : option Z) (min_session_length : Z)
    (dev : option device) : M RS (Dict.t pyval) :=
  data <~ generate schema num_rows max_session_length min_session_length dev ;;
  lift (densify max_session_length data []).

End Generator.

(** ** Schema augmentation *)

Module Merlin.

(** Modelled from the spec: [merlin.schema] ([Tags], [ColumnSchema], [Schema])
    is an external library and not among the sources.  A column carries a
    name, a set of tags, a dtype, the list and ragged flags and a property
    dictionary; a schema is the insertion-ordered dictionary
    [column_schemas] from column name to column. *)
Inductive Tags : Type :=
| TARGET
| CATEGORICAL
| CONTINUOUS
| LIST
| ITEM
| USER.

Definition Tags_eqb (a b : Tags) : bool :=
  match a, b with
  | TARGET, TARGET | CATEGORICAL, CATEGORICAL | CONTINUOUS, CONTINUOUS
  | LIST, LIST | ITEM, ITEM | USER, USER => true
  | _, _ => false
  end.

(** A property value: the dictionary [{"max": m}], or anything else. *)
Inductive property : Type :=
| PMax (m : Z)
| POther (repr : string).

Record ColumnSchema : Type := mkColumn {
  name : string;
  tags : list Tags;
  dtype : string;
  is_list : bool;
  is_ragged : bool;
  properties : Dict.t property
}.

Definition Schema : Type := Dict.t ColumnSchema.

(** Modelled from the spec: [ColumnSchema.with_tags] returns the column
    retagged with the given tag.  The specification leaves open whether the
    tags already on the column are kept, so the operation is a parameter of
    the development; the two classes below say what is asked of it. *)
Class Tagging : Type := {
  with_tags : ColumnSchema -> Tags -> ColumnSchema
}.

Class TagsApplied (T : Tagging) : Prop := {
  with_tags_applies : forall cs tag, In tag (tags (with_tags cs tag))
}.

Class TagsKept (T : Tagging) : Prop := {
  with_tags_keeps : forall cs tag t, In t (tags cs) -> In t (tags (with_tags cs tag))
}.

(** Modelled from the spec: tag application read as additive: the union of
    the old tags and the new one. *)
Definition union_tags : Tagging := {|
  with_tags cs tag :=
    mkColumn (name cs)
             (if existsb (Tags_eqb tag) (tags cs) then tags cs else tags cs ++ [tag])
             (dtype cs) (is_list cs) (is_ragged cs) (properties cs)
|}.

(** Modelled from the spec: tag application read as replacing, the reading
    its design notes name for an implementer: the new tag alone. *)
Definition replace_tags : Tagging := {|
  with_tags cs tag :=
    mkColumn (name cs) [tag] (dtype cs) (is_list cs) (is_ragged cs) (properties cs)
|}.

(** [schema[column_name]]. *)
Definition getitem (schema : Schema) (column_name : string) : result ColumnSchema :=
  match Dict.get schema column_name with
  | Some cs => Ok cs
  | None => Raise KeyError
  end.

(** Modelled from the spec: [Schema.select_by_name] builds the schema of the
    named columns, in the order of [names], and fails with a lookup error on
    a name that is not a column. *)
Fixpoint select_loop (schema : Schema) (names : list string) (selected : Schema)
  : result Schema :=
  match names with
  | [] => Ok selected
  | key :: rest =>
      cs <- getitem schema key ;;
      select_loop schema rest (Dict.set selected key cs)
  end.

Definition select_by_name (schema : Schema) (names : list string) : result Schema :=
  select_loop schema names [].

End Merlin.

(** The [labels] argument: a single name or a list of names. *)
Inductive labels_arg : Type :=
| LabelStr (label : string)
| LabelList (labels : list string).

(** [conts + cats + labels]: list concatenation; [None] or a string operand
    is a [TypeError]. *)
Definition concat_names (conts cats : option (list string))
    (labels : option labels_arg) : result (list string) :=
  match conts, cats, labels with
  | Some a, Some b, Some (LabelList c) => Ok ((a ++ b) ++ c)
  | _, _, _ => Raise TypeError
  end.

(** [x or []]. *)
Definition or_empty (x : option (list string)) : list string :=
  match x with
  | Some l => l
  | None => []
  end.

Section Augment.

Context {T : Merlin.Tagging}.

(** Lines 146-151: one tagging loop. *)
Fixpoint tag_loop (tag : Merlin.Tags) (labels : list string) (schema : Merlin.Schema)
  : result Merlin.Schema :=
  match labels with
  | [] => Ok schema
  | label :: rest =>
      cs <- Merlin.getitem schema label ;;
      tag_loop tag rest (Dict.set schema label (Merlin.with_tags cs tag))
  end.

(** [sparse_max and col in sparse_max], then the looked-up maximum. *)
Definition sparse_max_of (sparse_max : option (Dict.t Z)) (col : string) : option Z :=
  match sparse_max with
  | Some sm =>
      match sm with
      | [] => None
      | _ :: _ => Dict.get sm col
      end
  | None => None
  end.

(** Lines 155-166. *)
Definition sparse_step (sparse_max : option (Dict.t Z)) (sparse_as_dense : bool)
    (schema : Merlin.Schema) (col : string) : result Merlin.Schema :=
  cs <- Merlin.getitem schema col ;;
  let properties :=
    match sparse_max_of sparse_max col with
    | Some m => Dict.set (Merlin.properties cs) "value_count"%string (Merlin.PMax m)
    | None => Merlin.properties cs
    end in
  Ok (Dict.set schema col
        (Merlin.mkColumn (Merlin.name cs) (Merlin.tags cs) (Merlin.dtype cs)
                         true (negb sparse_as_dense) properties)).

Fixpoint sparse_loop (sparse_max : option (Dict.t Z)) (sparse_as_dense : bool)
    (cols : list string) (schema : Merlin.Schema) : result Merlin.Schema :=
  match cols with
  | [] => Ok schema
  | col :: rest =>
      schema' <- sparse_step sparse_max sparse_as_dense schema col ;;
      sparse_loop sparse_max sparse_as_dense rest schema'
  end.

Definition _augment_schema (schema : Merlin.Schema)
    (cats conts : option (list string)) (labels : option labels_arg)
    (sparse_names : option (list string)) (sparse_max : option (Dict.t Z))
    (sparse_as_dense : bool) : result Merlin.Schema :=
  names <- concat_names conts cats labels ;;
  schema <- Merlin.select_by_name schema names ;;
  let labels :=
    match labels with
    | Some (LabelStr l) => Some [l]
    | Some (LabelList l) => Some l
    | None => None
    end in
  schema <- tag_loop Merlin.TARGET (or_empty labels) schema ;;
  schema <- tag_loop Merlin.CATEGORICAL (or_empty cats) schema ;;
  schema <- tag_loop Merlin.CONTINUOUS (or_empty conts) schema ;;
  sparse_loop sparse_max sparse_as_dense (or_empty sparse_names) schema.

End Augment.

(** ** A concrete random source

    A linear congruential generator, used to run the generator on concrete
    inputs. *)

Module Lcg.

Definition next (s : Z) : Z := (s * 1103515245 + 12345) mod 2147483648.

Fixpoint draws {A} (pick : Z -> A) (n : nat) (s : Z) : list A * Z :=
  match n with
  | O => ([], s)
  | S n' => let '(vs, s') := draws pick n' (next s) in (pick s :: vs, s')
  end.

#[export] Instance source : RandomSource Z := {
  py_randint a b s := (a + s mod (b - a + 1), next s);
  torch_randint_draw _ lo hi n s := draws (fun x => lo + x mod (hi - lo)) n s;
  torch_rand_draw _ n s := draws (fun x => (x mod 1000) # 1000) n s
}.

End Lcg.

(** ** Specification vocabulary *)

Definition zsum (l : list Z) : Z := fold_right Z.add 0 l.

(** Running sums [a; a + l0; a + l0 + l1; ...]. *)
Fixpoint psums (a : Z) (lengths : list Z) : list Z :=
  match lengths with
  | [] => [a]
  | l :: rest => a :: psums (a + l) rest
  end.

(** The coordinates of a ragged batch: row [r] contributes the columns
    [0 .. l_r - 1]. *)
Fixpoint coords (r : Z) (lengths : list Z) : list (Z * Z) :=
  match lengths with
  | [] => []
  | l :: rest => map (pair r) (range l) ++ coords (r + 1) rest
  end.

(** Padding as the specification words it: each row is its own values, in
    order, followed by zeros up to the padded width. *)
Fixpoint pad_rows (width : Z) (lengths : list Z) (values : list Q) : list Q :=
  match lengths with
  | [] => []
  | l :: rest =>
      firstn (Z.to_nat l) values ++ repeat 0%Q (Z.to_nat (width - l))
        ++ pad_rows width rest (skipn (Z.to_nat l) values)
  end.

(** The dense tensor of a (values, lengths) pair, as specified. *)
Definition padded (width : Z) (v : tensor) (lens : list Z) : tensor :=
  mkTensor (t_dtype v) [Z.of_nat (length lens); width]
           (pad_rows width lens (t_data v)).

(** The shape of the row drawn for a feature. *)
Definition row_dims (f : Feature) (session_length : option Z) : list Z :=
  match value_count f with
  | Some vc => [py_or session_length vc]
  | None => shape_of f
  end.

(** An element of an integer feature with domain maximum [M]. *)
Definition int_elem (M : Z) (q : Q) : Prop :=
  exists z, q = inject_Z z /\ 1 <= z < M.

(** An element of a continuous feature. *)
Definition unit_elem (q : Q) : Prop := (0 <= q)%Q /\ (q < 1)%Q.

Definition elem_ok (f : Feature) (q : Q) : Prop :=
  match int_domain f with
  | Some M => int_elem M q
  | None => unit_elem q
  end.

(** All elements held by a value of [data]. *)
Definition elements (v : pyval) : list Q :=
  match v with
  | VTensor t => t_data t
  | VTuple t _ => t_data t
  | VList ts => concat (map t_data ts)
  end.

(** What [draw_session_length] can return. *)
Definition session_ok (max_session_length : option Z) (min_session_length : Z)
    (session_length : option Z) : Prop :=
  match max_session_length with
  | Some m =>
      if m =? 0 then session_length = None
      else exists v, session_length = Some v /\ min_session_length <= v <= m
  | None => session_length = None
  end.

(** What a row of a list feature with declared maximum [vc] can measure. *)
Definition len_ok (max_session_length : option Z) (min_session_length : Z)
    (vc : Z) (l : Z) : Prop :=
  0 <= l /\
  exists sl, session_ok max_session_length min_session_length sl /\ l = py_or sl vc.

(** A tensor of a given shape, with as many elements as the shape says,
    all of them in the range of the feature. *)
Definition tensor_ok (f : Feature) (dims : list Z) (t : tensor) : Prop :=
  t_shape t = dims /\
  Forall (fun d => 0 <= d) dims /\
  length (t_data t) = Z.to_nat (numel dims) /\
  Forall (elem_ok f) (t_data t).

(** The value accumulated for a list feature after [k >= 1] rows. *)
Definition list_inv (f : Feature) (max_session_length : option Z)
    (min_session_length : Z) (vc : Z) (k : nat) (v : pyval) : Prop :=
  exists vals lens,
    v = VTuple vals lens /\ length lens = k /\
    Forall (len_ok max_session_length min_session_length vc) lens /\
    t_shape vals = [zsum lens] /\
    length (t_data vals) = Z.to_nat (zsum lens) /\
    Forall (elem_ok f) (t_data vals).

(** The value accumulated for an embedding feature after [k >= 1] rows of
    [num_rows]. *)
Definition emb_inv (f : Feature) (num_rows : Z) (k : nat) (v : pyval) : Prop :=
  (k = 1%nat /\ exists t, v = VTensor t /\ tensor_ok f (shape_of f) t) \/
  ((2 <= k)%nat /\ Z.of_nat k < num_rows /\
     exists ts, v = VList ts /\ length ts = k /\ Forall (tensor_ok f (shape_of f)) ts) \/
  ((2 <= k)%nat /\ Z.of_nat k = num_rows /\
     exists t, v = VTensor t /\ tensor_ok f (num_rows :: shape_of f) t).

(** The value accumulated for any other feature after [k >= 1] rows. *)
Definition plain_inv (f : Feature) (k : nat) (v : pyval) : Prop :=
  exists d0 rest t,
    shape_of f = d0 :: rest /\ v = VTensor t /\
    tensor_ok f (Z.of_nat k * d0 :: rest) t.

(** The entry of [data] for feature [f] after [k] rows. *)
Definition feat_inv (f : Feature) (num_rows : Z) (max_session_length : option Z)
    (min_session_length : Z) (k : nat) (o : option pyval) : Prop :=
  match k with
  | O => o = None
  | S _ =>
      exists v, o = Some v /\
        match value_count f with
        | Some vc => list_inv f max_session_length min_session_length vc k v
        | None =>
            exists e, is_embedding f = Ok e /\
              if e then emb_inv f num_rows k v else plain_inv f k v
        end
  end.

(** A feature the specification calls scalar and continuous: no value
    count, no integer domain, and the scalar shape. *)
Definition scalar_continuous (f : Feature) : Prop :=
  value_count f = None /\ int_domain f = None /\
  (shape f = None \/ shape f = Some [1]).

(** Session bounds that [random.randint] accepts. *)
Definition session_args_ok (max_session_length : option Z)
    (min_session_length : Z) : Prop :=
  match max_session_length with
  | Some m => m = 0 \/ min_session_length <= m
  | None => True
  end.

(** A feature whose rows can be drawn and made dense: the shape has a
    leading dimension and no negative dimension, the integer range is not
    empty, and the length of a list row is at least 0 and at most the padded
    width. *)
Definition feature_ok (max_session_length : option Z) (min_session_length : Z)
    (f : Feature) : Prop :=
  shape f <> Some [] /\
  (forall M, int_domain f = Some M -> 1 < M) /\
  match value_count f with
  | Some vc => if truthy max_session_length then 1 <= min_session_length else 0 <= vc
  | None => Forall (fun d => 0 <= d) (shape_of f)
  end.

(** Arguments on which every draw of the generator is accepted. *)
Definition drawable (schema : Schema) (max_session_length : option Z)
    (min_session_length : Z) : Prop :=
  session_args_ok max_session_length min_session_length /\
  forall f, In f (feature schema) ->
    feature_ok max_session_length min_session_length f.

(** Column [k] of a schema carries tag [t]. *)
Definition has_tag (schema : Merlin.Schema) (k : string) (t : Merlin.Tags) : Prop :=
  exists cs, Dict.get schema k = Some cs /\ In t (Merlin.tags cs).

(** Column [c] of a schema is marked as a list column, ragged unless
    [sparse_as_dense], with the value-count maximum supplied for it. *)
Definition marked_sparse (sparse_max : option (Dict.t Z)) (sparse_as_dense : bool)
    (schema : Merlin.Schema) (c : string) : Prop :=
  exists cs,
    Dict.get schema c = Some cs /\
    Merlin.is_list cs = true /\
    Merlin.is_ragged cs = negb sparse_as_dense /\
    forall m, sparse_max_of sparse_max c = Some m ->
      Dict.get (Merlin.properties cs) "value_count"%string = Some (Merlin.PMax m).

(** ** Concrete inputs *)

Module Examples.

Local Open Scope string_scope.

Definition item_id : Feature := mkFeature "item_id" (Some 3) (Some 10) None.
Definition price : Feature := mkFeature "price" None None None.
Definition rating : Feature := mkFeature "rating" None None (Some [1]).
Definition user_vector : Feature := mkFeature "user_vector" None None (Some [2]).
Definition dwell_times : Feature := mkFeature "dwell_times" (Some 4) None None.
Definition long_history : Feature := mkFeature "history" (Some 5) (Some 10) None.

Definition column (n : string) : Merlin.ColumnSchema :=
  Merlin.mkColumn n [] "int64" false false [].

Definition table : Merlin.Schema :=
  [("a", column "a"); ("b", column "b"); ("c", column "c"); ("d", column "d")].

Definition mixed : Schema := mkSchema [item_id; price; user_vector; dwell_times].
Definition continuous_only : Schema := mkSchema [price; rating].
Definition items_only : Schema := mkSchema [item_id].
Definition embedding_only : Schema := mkSchema [user_vector].
Definition history_only : Schema := mkSchema [long_history].

End Examples.

(** The result of a run that returned; the empty mapping otherwise. *)
Definition output_of {S} (r : result (Dict.t pyval * S)) : Dict.t pyval :=
  match r with
  | Ok (out, _) => out
  | Raise _ => []
  end.

Definition state_of {S} (s0 : S) (r : result (Dict.t pyval * S)) : S :=
  match r with
  | Ok (_, s) => s
  | Raise _ => s0
  end.

Module Runs.

Definition mixed_3 :=
  random_data_from_schema (R := Lcg.source) Examples.mixed 3 None 5 None 7.

Definition mixed_3_bounded :=
  random_data_from_schema (R := Lcg.source) Examples.mixed 3 (Some 4) 1 None 7.

Definition items_zero_bound :=
  random_data_from_schema (R := Lcg.source) Examples.items_only 2 (Some 0) 5 None 7.

Definition embedding_1 :=
  random_data_from_schema (R := Lcg.source) Examples.embedding_only 1 None 5 None 7.

Definition embedding_3 :=
  random_data_from_schema (R := Lcg.source) Examples.embedding_only 3 None 5 None 7.

End Runs.

(** ** Vocabulary of the further properties *)

(** The row lengths of a list feature with declared maximum [vc], one per
    drawn session length. *)
Definition lengths_of (vc : Z) (sls : list (option Z)) : list Z :=
  map (fun sl => py_or sl vc) sls.

(** The lengths recorded for a list feature after the session lengths
    [sls] have been drawn, one row each. *)
Definition lens_inv (f : Feature) (sls : list (option Z)) (o : option pyval) : Prop :=
  forall vc, value_count f = Some vc ->
    match sls with
    | [] => o = None
    | _ :: _ => exists vals, o = Some (VTuple vals (lengths_of vc sls))
    end.

(** The keys a dictionary comprehension over [names] ends up with, after
    the keys [seen]: each name once, at its first occurrence. *)
Fixpoint first_occurrences (seen names : list string) : list string :=
  match names with
  | [] => []
  | n :: rest =>
      if in_dec string_dec n seen then first_occurrences seen rest
      else n :: first_occurrences (seen ++ [n]) rest
  end.

(** A tagging operation that touches nothing but the tags. *)
Class TagsOnly (T : Merlin.Tagging) : Prop := {
  with_tags_name : forall cs tag,
    Merlin.name (Merlin.with_tags cs tag) = Merlin.name cs;
  with_tags_dtype : forall cs tag,
    Merlin.dtype (Merlin.with_tags cs tag) = Merlin.dtype cs;
  with_tags_is_list : forall cs tag,
    Merlin.is_list (Merlin.with_tags cs tag) = Merlin.is_list cs;
  with_tags_is_ragged : forall cs tag,
    Merlin.is_ragged (Merlin.with_tags cs tag) = Merlin.is_ragged cs;
  with_tags_properties : forall cs tag,
    Merlin.properties (Merlin.with_tags cs tag) = Merlin.properties cs
}.

(** Two columns that differ at most in their tags and in what marking a
    column sparse sets: the list and ragged flags and the ["value_count"]
    property. *)
Definition same_column (cs cs0 : Merlin.ColumnSchema) : Prop :=
  Merlin.name cs = Merlin.name cs0 /\
  Merlin.dtype cs = Merlin.dtype cs0 /\
  forall key, key <> "value_count"%string ->
    Dict.get (Merlin.properties cs) key = Dict.get (Merlin.properties cs0) key.

(** Two columns that differ at most in their tags. *)
Definition same_but_tags (cs cs0 : Merlin.ColumnSchema) : Prop :=
  Merlin.name cs = Merlin.name cs0 /\
  Merlin.dtype cs = Merlin.dtype cs0 /\
  Merlin.is_list cs = Merlin.is_list cs0 /\
  Merlin.is_ragged cs = Merlin.is_ragged cs0 /\
  Merlin.properties cs = Merlin.properties cs0.

(** The two halves of a (values, lengths) pair found in [data]. *)
Definition tuple_values (o : option pyval) : tensor :=
  match o with
  | Some (VTuple vals _) => vals
  | _ => mkTensor Float32 [0] []
  end.

Definition tuple_lengths (o : option pyval) : list Z :=
  match o with
  | Some (VTuple _ lens) => lens
  | _ => []
  end.

(** The schema of a call that returned; the empty schema otherwise. *)
Definition schema_of (r : result Merlin.Schema) : Merlin.Schema :=
  match r with
  | Ok schema => schema
  | Raise _ => []
  end.

Module MoreExamples.

Local Open Scope string_scope.

Definition matrix : Feature := mkFeature "matrix" None (Some 7) (Some [1; 4]).
Definition empty_rows : Feature := mkFeature "empty_rows" None None (Some [0; 3]).
Definition no_dims : Feature := mkFeature "no_dims" None None (Some []).
Definition constant : Feature := mkFeature "constant" None (Some 1) None.

Definition fixed_shapes : Schema := mkSchema [matrix; empty_rows; Examples.price].
Definition sessions : Schema :=
  mkSchema [Examples.item_id; Examples.price; Examples.dwell_times].
Definition starts_without_dims : Schema := mkSchema [no_dims; Examples.price].

Definition fixed_shapes_3 :=
  random_data_from_schema (R := Lcg.source) fixed_shapes 3 None 5 None 7.

Definition sessions_3 :=
  generate (R := Lcg.source) sessions 3 (Some 4) 2 None 7.

Definition sessions_3_item_id : option pyval :=
  Dict.get (output_of sessions_3) "item_id".

Definition dense_values : tensor :=
  mkTensor Float32 [3] [(1 # 2)%Q; (1 # 4)%Q; (3 # 4)%Q].

Definition ragged_values : tensor :=
  mkTensor Int64 [4] [inject_Z 5; inject_Z 6; inject_Z 7; inject_Z 8].

Definition described : Merlin.Schema :=
  [("a", Merlin.mkColumn "a" [Merlin.ITEM] "int64" false false
           [("domain", Merlin.POther "items")]);
   ("b", Merlin.mkColumn "b" [] "float32" true true
           [("value_count", Merlin.PMax 3)]);
   ("c", Merlin.mkColumn "c" [Merlin.USER] "int64" false false [])].

(** [_augment_schema(described, cats=["a"], conts=["b"], labels=["c", "a"],
    sparse_names=["b"], sparse_max={"b": 5})] with additive tagging. *)
Definition described_run : result Merlin.Schema :=
  _augment_schema (T := Merlin.union_tags) described
                  (Some ["a"]) (Some ["b"]) (Some (LabelList ["c"; "a"]))
                  (Some ["b"]) (Some [("b", 5)]) false.

End MoreExamples.

(** ** Two runs side by side *)

Section Alike.

Context {RS1 RS2 : Type} {R1 : RandomSource RS1} {R2 : RandomSource RS2}.

Variable sim : RS1 -> RS2 -> Prop.

(** From states related by [sim], [random.randint] gives the same integer in
    both sources and leaves them in related states. *)
Definition randint_alike : Prop :=
  forall a b s1 s2, sim s1 s2 -> a <= b ->
    fst (py_randint a b s1) = fst (py_randint a b s2) /\
    sim (snd (py_randint a b s1)) (snd (py_randint a b s2)).

(** From states related by [sim], [torch.randint] and [torch.rand] give the
    same elements in both sources and leave them in related states. *)
Definition torch_alike : Prop :=
  (forall dev lo hi n s1 s2, sim s1 s2 ->
     fst (torch_randint_draw dev lo hi n s1) = fst (torch_randint_draw dev lo hi n s2) /\
     sim (snd (torch_randint_draw dev lo hi n s1))
         (snd (torch_randint_draw dev lo hi n s2))) /\
  (forall dev n s1 s2, sim s1 s2 ->
     fst (torch_rand_draw dev n s1) = fst (torch_rand_draw dev n s2) /\
     sim (snd (torch_rand_draw dev n s1)) (snd (torch_rand_draw dev n s2))).

(** Two runs end alike: both return the same value and leave the sources in
    related states, or both raise the same exception. *)
Definition same_outcome {A} (r1 : result (A * RS1)) (r2 : result (A * RS2)) : Prop :=
  match r1, r2 with
  | Ok (a1, s1), Ok (a2, s2) => a1 = a2 /\ sim s1 s2
  | Raise e1, Raise e2 => e1 = e2
  | _, _ => False
  end.

End Alike.

Module Counted.

(** The linear congruential source together with a count of the draws made
    so far: state that no answer depends on. *)
#[export] Instance source : RandomSource (Z * nat) := {
  py_randint a b s :=
    (fst (py_randint (RandomSource := Lcg.source) a b (fst s)),
     (snd (py_randint (RandomSource := Lcg.source) a b (fst s)), S (snd s)));
  torch_randint_draw dev lo hi n s :=
    (fst (torch_randint_draw (RandomSource := Lcg.source) dev lo hi n (fst s)),
     (snd (torch_randint_draw (RandomSource := Lcg.source) dev lo hi n (fst s)),
      S (snd s)));
  torch_rand_draw dev n s :=
    (fst (torch_rand_draw (RandomSource := Lcg.source) dev n (fst s)),
     (snd (torch_rand_draw (RandomSource := Lcg.source) dev n (fst s)), S (snd s)))
}.

(** The states of the two sources agree on the seed. *)
Definition same_seed (z : Z) (s : Z * nat) : Prop := z = fst s.

End Counted.

(** * Properties *)

(** ** Dictionaries *)

Module DictFacts.

Lemma get_set_same {V} (d : Dict.t V) k v : Dict.get (Dict.set d k v) k = Some v.
Proof.
  induction d as [|[k' v'] d IH]; simpl.
  - now rewrite String.eqb_refl.
  - destruct (String.eqb k k') eqn:E; simpl.
    + now rewrite String.eqb_refl.
    + now rewrite E.
Qed.

Lemma get_set_other {V} (d : Dict.t V) k k' v :
  k' <> k -> Dict.get (Dict.set d k v) k' = Dict.get d k'.
Proof.
  intros Hne. induction d as [|[k0 v0] d IH]; simpl.
  - destruct (String.eqb k' k) eqn:E; [apply String.eqb_eq in E; congruence | reflexivity].
  - destruct (String.eqb k k0) eqn:E; simpl.
    + apply String.eqb_eq in E; subst k0.
      destruct (String.eqb k' k) eqn:E'; [apply String.eqb_eq in E'; congruence | reflexivity].
    + destruct (String.eqb k' k0); [reflexivity | exact IH].
Qed.

Lemma get_none_iff {V} (d : Dict.t V) k : Dict.get d k = None <-> ~ In k (Dict.keys d).
Proof.
  induction d as [|[k0 v0] d IH]; simpl.
  - tauto.
  - destruct (String.eqb k k0) eqn:E.
    + apply String.eqb_eq in E; subst. split; [discriminate | tauto].
    + apply String.eqb_neq in E. rewrite IH. split; [intros H [H1|H1]; congruence || tauto | tauto].
Qed.

Lemma keys_set_present {V} (d : Dict.t V) k v :
  In k (Dict.keys d) -> Dict.keys (Dict.set d k v) = Dict.keys d.
Proof.
  induction d as [|[k0 v0] d IH]; simpl; [tauto|].
  intros Hin. destruct (String.eqb k k0) eqn:E; simpl.
  - apply String.eqb_eq in E. now subst.
  - apply String.eqb_neq in E. f_equal. apply IH. destruct Hin; congruence.
Qed.

Lemma keys_set_absent {V} (d : Dict.t V) k v :
  ~ In k (Dict.keys d) -> Dict.keys (Dict.set d k v) = Dict.keys d ++ [k].
Proof.
  induction d as [|[k0 v0] d IH]; simpl; [reflexivity|].
  intros Hin. destruct (String.eqb k k0) eqn:E; simpl.
  - apply String.eqb_eq in E. subst. tauto.
  - f_equal. apply IH. tauto.
Qed.

Lemma in_keys_set {V} (d : Dict.t V) k v k' :
  In k' (Dict.keys (Dict.set d k v)) <-> k' = k \/ In k' (Dict.keys d).
Proof.
  destruct (in_dec string_dec k (Dict.keys d)) as [Hin|Hin].
  - rewrite keys_set_present by assumption. split; [tauto|]. intros [->|H]; assumption.
  - rewrite keys_set_absent by assumption. rewrite in_app_iff. simpl. split.
    + intros [H|[H|[]]]; auto.
    + intros [->|H]; auto.
Qed.

End DictFacts.

(** ** Lists of integers *)

Lemma zseq_length a n : length (zseq a n) = n.
Proof. revert a. induction n; simpl; intros; [reflexivity | now rewrite IHn]. Qed.

Lemma zseq_app a n m : zseq a (n + m) = zseq a n ++ zseq (a + Z.of_nat n) m.
Proof.
  revert a. induction n as [|n IH]; intros a.
  - simpl. now rewrite Z.add_0_r.
  - cbn [Nat.add zseq app]. rewrite IH. do 3 f_equal. lia.
Qed.

Lemma zseq_bounds a n x : In x (zseq a n) -> a <= x < a + Z.of_nat n.
Proof.
  revert a. induction n as [|n IH]; simpl; intros a; [tauto|].
  intros [<-|H]; [lia|]. apply IH in H. lia.
Qed.

Lemma range_length n : length (range n) = Z.to_nat n.
Proof. apply zseq_length. Qed.

Lemma zsum_app l1 l2 : zsum (l1 ++ l2) = zsum l1 + zsum l2.
Proof. induction l1; simpl; lia. Qed.

Lemma zsum_nonneg l : Forall (fun x => 0 <= x) l -> 0 <= zsum l.
Proof. induction 1; simpl; lia. Qed.

Lemma zsum_repeat x n : zsum (repeat x n) = Z.of_nat n * x.
Proof. induction n; [reflexivity|]. cbn [repeat zsum fold_right]. fold (zsum (repeat x n)). lia. Qed.

Lemma zip_with_app {A B C} (f : A -> B -> C) xs1 xs2 ys1 ys2 :
  length xs1 = length ys1 ->
  zip_with f (xs1 ++ xs2) (ys1 ++ ys2) = zip_with f xs1 ys1 ++ zip_with f xs2 ys2.
Proof.
  revert ys1. induction xs1 as [|x xs1 IH]; intros [|y ys1]; simpl; try discriminate.
  - reflexivity.
  - intros H. f_equal. apply IH. lia.
Qed.

Lemma zip_with_length {A B C} (f : A -> B -> C) xs ys :
  length xs = length ys -> length (zip_with f xs ys) = length xs.
Proof.
  revert ys. induction xs as [|x xs IH]; intros [|y ys]; simpl; try discriminate; auto.
Qed.

Lemma zip_sub_repeat a n : zip_with Z.sub (zseq a n) (repeat a n) = zseq 0 n.
Proof.
  enough (H : forall k, zip_with Z.sub (zseq (a + k) n) (repeat a n) = zseq k n).
  { specialize (H 0). now rewrite Z.add_0_r in H. }
  induction n as [|n IH]; intros k; cbn [zseq repeat zip_with]; [reflexivity|].
  f_equal; [lia|]. replace (a + k + 1) with (a + (k + 1)) by lia. apply IH.
Qed.

Lemma combine_app_eq {A B} (xs1 xs2 : list A) (ys1 ys2 : list B) :
  length xs1 = length ys1 ->
  combine (xs1 ++ xs2) (ys1 ++ ys2) = combine xs1 ys1 ++ combine xs2 ys2.
Proof.
  revert ys1. induction xs1 as [|x xs1 IH]; intros [|y ys1]; simpl; try discriminate.
  - reflexivity.
  - intros H. f_equal. apply IH. lia.
Qed.

Lemma combine_repeat {A B} (r : A) (ys : list B) :
  combine (repeat r (length ys)) ys = map (pair r) ys.
Proof. induction ys; simpl; [reflexivity | now f_equal]. Qed.

(** ** Offsets, lengths and coordinates *)

Lemma psums_length a ls : length (psums a ls) = S (length ls).
Proof. revert a. induction ls; simpl; intros; [reflexivity | now rewrite IHls]. Qed.

Lemma psums_snoc a ls x : psums a (ls ++ [x]) = psums a ls ++ [a + zsum ls + x].
Proof.
  revert a. induction ls as [|l ls IH]; intros a; simpl.
  - do 2 f_equal. lia.
  - rewrite IH. do 3 f_equal. lia.
Qed.

Lemma fold_offsets pre a ls :
  fold_left (fun offsets length => offsets ++ [last offsets 0 + length]) ls (pre ++ [a])
  = pre ++ psums a ls.
Proof.
  revert pre a. induction ls as [|l ls IH]; intros pre a; simpl.
  - reflexivity.
  - rewrite last_last. rewrite IH. now rewrite <- app_assoc.
Qed.

Lemma offsets_of_lengths_psums lens :
  offsets_of_lengths lens = psums 0 (removelast lens).
Proof. unfold offsets_of_lengths. apply (fold_offsets [] 0). Qed.

Lemma offsets_extended lens :
  lens <> [] ->
  offsets_of_lengths lens ++ [zsum lens] = psums 0 lens.
Proof.
  intros Hne. rewrite offsets_of_lengths_psums.
  destruct (exists_last Hne) as [ls [x ->]].
  rewrite removelast_last, psums_snoc, zsum_app. simpl. do 2 f_equal. lia.
Qed.

Lemma removelast_psums a l ls :
  removelast (psums a (l :: ls)) = a :: removelast (psums (a + l) ls).
Proof. simpl. destruct (psums (a + l) ls) eqn:E; [|reflexivity]. now destruct ls. Qed.

Lemma diff_psums a ls :
  zip_with Z.sub (tl (psums a ls)) (removelast (psums a ls)) = ls.
Proof.
  revert a. induction ls as [|l ls IH]; intros a.
  - reflexivity.
  - rewrite removelast_psums. cbn [psums tl].
    specialize (IH (a + l)).
    destruct ls as [|l' ls]; cbn [psums tl zip_with] in *.
    + f_equal. lia.
    + f_equal; [lia|]. exact IH.
Qed.

Lemma pull_values_offsets_lengths v lens :
  lens <> [] ->
  Z.of_nat (length (t_data v)) = zsum lens ->
  _pull_values_offsets (VOTuple v (offsets_of_lengths lens))
  = (flatten v, psums 0 lens, lens, Z.of_nat (length lens)).
Proof.
  intros Hne Hlen. unfold _pull_values_offsets. cbn [flatten t_data].
  rewrite Hlen, offsets_extended by assumption.
  rewrite diff_psums. do 2 f_equal.
  rewrite offsets_of_lengths_psums, psums_length.
  destruct (exists_last Hne) as [ls [x ->]].
  rewrite removelast_last, length_app. simpl. lia.
Qed.

(** The generalised body of [_get_indices]: rows from [r], offsets from [a]. *)
Lemma get_indices_from r a lens :
  Forall (fun l => 0 <= l) lens ->
  exists rr ro,
    repeat_interleave (zseq r (length lens)) lens = Ok rr /\
    repeat_interleave (removelast (psums a lens)) lens = Ok ro /\
    length rr = Z.to_nat (zsum lens) /\
    length ro = Z.to_nat (zsum lens) /\
    combine rr (zip_with Z.sub (zseq a (length ro)) ro) = coords r lens.
Proof.
  intros Hpos. revert r a. induction Hpos as [|l ls Hl Hls IH]; intros r a.
  - exists [], []. simpl. auto.
  - destruct (IH (r + 1) (a + l)) as (rr & ro & Hrr & Hro & Lrr & Lro & Hc).
    exists (repeat r (Z.to_nat l) ++ rr), (repeat a (Z.to_nat l) ++ ro).
    pose proof (zsum_nonneg ls Hls) as Hs.
    assert (Hlt : (l <? 0) = false) by (apply Z.ltb_ge; lia).
    rewrite removelast_psums. cbn [length zseq repeat_interleave zsum fold_right].
    fold (zsum ls). rewrite Hlt, Hrr, Hro. cbn [bindR].
    repeat split.
    + rewrite length_app, repeat_length, Lrr. lia.
    + rewrite length_app, repeat_length, Lro. lia.
    + rewrite length_app, repeat_length, zseq_app.
      rewrite zip_with_app by (now rewrite zseq_length, repeat_length).
      rewrite zip_sub_repeat, Z2Nat.id by lia.
      rewrite combine_app_eq by (now rewrite repeat_length, zseq_length).
      cbn [coords]. rewrite <- Hc. f_equal.
      unfold range. rewrite <- (zseq_length 0 (Z.to_nat l)) at 1.
      apply combine_repeat.
Qed.

Lemma get_indices_psums lens :
  Forall (fun l => 0 <= l) lens ->
  _get_indices (psums 0 lens) lens = Ok (coords 0 lens).
Proof.
  intros Hpos. unfold _get_indices.
  rewrite psums_length. unfold range.
  replace (Z.to_nat (Z.of_nat (S (length lens)) - 1)) with (length lens) by lia.
  destruct (get_indices_from 0 0 lens Hpos) as (rr & ro & Hrr & Hro & Lrr & Lro & Hc).
  rewrite Hrr, Hro. cbn [bindR]. rewrite Nat2Z.id, Hc.
  rewrite zip_with_length by (now rewrite zseq_length).
  rewrite zseq_length, Lrr, Lro, Nat.eqb_refl. reflexivity.
Qed.

(** ** Sparse to dense *)

Lemma Qplus_0_l_eq q : (0 + q)%Q = q.
Proof. destruct q as [n d]. unfold Qplus. cbn. now rewrite Z.mul_1_r. Qed.

Lemma filter_nil_of {A} (p : A -> bool) l :
  (forall x, In x l -> p x = false) -> filter p l = [].
Proof.
  induction l as [|x l IH]; simpl; intros H; [reflexivity|].
  rewrite (H x) by auto. apply IH. auto.
Qed.

Lemma map_const_repeat {A B} (b : B) (f : A -> B) l :
  (forall x, In x l -> f x = b) -> map f l = repeat b (length l).
Proof.
  induction l as [|x l IH]; simpl; intros H; [reflexivity|].
  rewrite (H x) by auto. f_equal. apply IH. auto.
Qed.

Lemma flat_map_ext_in {A B} (f g : A -> list B) l :
  (forall x, In x l -> f x = g x) -> flat_map f l = flat_map g l.
Proof.
  induction l as [|x l IH]; simpl; intros H; [reflexivity|].
  rewrite (H x) by auto. f_equal. apply IH. auto.
Qed.

Lemma coo_cell_skip_rows E0 E1 r c :
  (forall e, In e E0 -> fst (fst e) <> r) ->
  coo_cell (E0 ++ E1) r c = coo_cell E1 r c.
Proof.
  intros H. unfold coo_cell. rewrite filter_app.
  rewrite (filter_nil_of _ E0); [reflexivity|].
  intros e He. apply H in He. apply andb_false_intro1. now apply Z.eqb_neq.
Qed.

Lemma coo_cell_no_entry E r c :
  (forall e, In e E -> fst (fst e) <> r \/ snd (fst e) <> c) ->
  coo_cell E r c = 0%Q.
Proof.
  intros H. unfold coo_cell. rewrite filter_nil_of; [reflexivity|].
  intros e He. apply H in He. apply andb_false_iff.
  destruct He; [left | right]; now apply Z.eqb_neq.
Qed.

Lemma in_combine_row (r : Z) (cs : list Z) (vs : list Q) (e : (Z * Z) * Q) :
  In e (combine (map (pair r) cs) vs) -> fst (fst e) = r /\ In (snd (fst e)) cs.
Proof.
  destruct e as [[r' c'] v]. intros H. apply in_combine_l in H.
  apply in_map_iff in H. destruct H as (c & Heq & Hin). inversion Heq; subst. auto.
Qed.

(** One row: its values in order, then zeros. *)
Lemma cells_of_row r rest vs : forall c0 k,
  (forall e, In e rest -> fst (fst e) <> r) ->
  map (coo_cell (combine (map (pair r) (zseq c0 (length vs))) vs ++ rest) r)
      (zseq c0 (length vs + k))
  = vs ++ repeat 0%Q k.
Proof.
  induction vs as [|v vs IH]; intros c0 k Hrest.
  - cbn [length zseq map combine app Nat.add].
    rewrite <- (zseq_length c0 k) at 2. apply map_const_repeat.
    intros c _. apply coo_cell_no_entry. intros e He. left. now apply Hrest.
  - cbn [length zseq map combine app Nat.add]. f_equal.
    + unfold coo_cell. cbn [filter fst snd]. rewrite !Z.eqb_refl. cbn [andb map].
      rewrite filter_nil_of.
      * cbn. apply Qplus_0_l_eq.
      * intros e He. apply in_app_or in He. destruct He as [He|He].
        -- apply in_combine_row in He. destruct He as [_ He].
           apply zseq_bounds in He. apply andb_false_intro2. apply Z.eqb_neq. lia.
        -- apply Hrest in He. apply andb_false_intro1. now apply Z.eqb_neq.
    + rewrite <- (IH (c0 + 1) k Hrest). apply map_ext_in.
      intros c Hc. apply zseq_bounds in Hc.
      unfold coo_cell. cbn [filter fst snd].
      replace (c0 =? c) with false by (symmetry; apply Z.eqb_neq; lia).
      now rewrite andb_false_r.
Qed.

Lemma coords_rows r lens e : In e (coords r lens) -> r <= fst e.
Proof.
  revert r. induction lens as [|l ls IH]; intros r; simpl; [tauto|].
  intros H. apply in_app_or in H. destruct H as [H|H].
  - apply in_map_iff in H. destruct H as (c & <- & _). simpl. lia.
  - apply IH in H. lia.
Qed.

Lemma coords_length r lens :
  Forall (fun l => 0 <= l) lens -> length (coords r lens) = Z.to_nat (zsum lens).
Proof.
  intros H. revert r. induction H as [|l ls Hl Hls IH]; intros r; simpl; [reflexivity|].
  rewrite length_app, length_map, range_length, IH.
  pose proof (zsum_nonneg ls Hls). fold (zsum ls). lia.
Qed.

(** The dense rows of a ragged batch are its padded rows. *)
Lemma dense_pad_rows W lens : forall r vals,
  Forall (fun l => 0 <= l <= W) lens ->
  length vals = Z.to_nat (zsum lens) ->
  flat_map (fun r' => map (coo_cell (combine (coords r lens) vals) r') (range W))
           (zseq r (length lens))
  = pad_rows W lens vals.
Proof.
  induction lens as [|l ls IH]; intros r vals Hb Hlen; [reflexivity|].
  inversion Hb as [|? ? Hl Hls]; subst.
  assert (Hpos : Forall (fun l => 0 <= l) ls)
    by (eapply Forall_impl; [|exact Hls]; simpl; intros; lia).
  pose proof (zsum_nonneg ls Hpos) as Hs.
  cbn [zsum fold_right] in Hlen. fold (zsum ls) in Hlen.
  cbn [length zseq flat_map coords pad_rows].
  set (v0 := firstn (Z.to_nat l) vals). set (v1 := skipn (Z.to_nat l) vals).
  assert (Hv0 : length v0 = Z.to_nat l) by (subst v0; rewrite length_firstn; lia).
  assert (Hv1 : length v1 = Z.to_nat (zsum ls)) by (subst v1; rewrite length_skipn; lia).
  assert (Hv : vals = v0 ++ v1) by (symmetry; apply firstn_skipn).
  clearbody v0 v1. subst vals.
  rewrite combine_app_eq by (now rewrite length_map, range_length).
  rewrite (app_assoc v0). f_equal.
  - unfold range.
    rewrite <- Hv0 at 1.
    replace (Z.to_nat W) with (length v0 + Z.to_nat (W - l))%nat by lia.
    rewrite cells_of_row.
    + reflexivity.
    + intros [ix v] He. apply in_combine_l in He. apply coords_rows in He.
      cbn [fst]. lia.
  - rewrite <- (IH (r + 1) v1); try assumption.
    apply flat_map_ext_in. intros r' Hr'. apply zseq_bounds in Hr'.
    apply map_ext. intros c. apply coo_cell_skip_rows.
    intros e He. apply in_combine_row in He. lia.
Qed.

Lemma coords_in_bounds W n lens : forall r,
  Forall (fun l => 0 <= l <= W) lens ->
  0 <= r -> r + Z.of_nat (length lens) <= n ->
  forallb (in_bounds n W) (coords r lens) = true.
Proof.
  induction lens as [|l ls IH]; intros r Hb Hr Hn; [reflexivity|].
  inversion Hb; subst. cbn [coords length] in *.
  rewrite forallb_app. apply andb_true_intro. split.
  - apply forallb_forall. intros e He. apply in_map_iff in He.
    destruct He as (c & <- & Hc). apply zseq_bounds in Hc.
    unfold in_bounds. cbn [fst snd].
    repeat (apply andb_true_intro; split); try apply Z.leb_le; try apply Z.ltb_lt; lia.
  - apply IH; try assumption; lia.
Qed.

(** Conversely, coordinates that pass the bounds check come from rows no
    longer than the width. *)
Lemma coords_bounds_lengths W n lens : forall r,
  Forall (fun l => 0 <= l) lens -> 0 <= W ->
  forallb (in_bounds n W) (coords r lens) = true ->
  Forall (fun l => 0 <= l <= W) lens.
Proof.
  induction lens as [|l ls IH]; intros r Hpos HW Hb; [constructor|].
  inversion Hpos as [|? ? Hl Hls]; subst. cbn [coords] in Hb.
  rewrite forallb_app in Hb. apply andb_prop in Hb. destruct Hb as [H0 H1].
  constructor; [|eapply IH; eassumption].
  split; [assumption|].
  destruct (Z.eq_dec l 0) as [->|Hne]; [assumption|].
  rewrite forallb_forall in H0.
  specialize (H0 (r, l - 1)).
  assert (Hin : In (r, l - 1) (map (pair r) (range l))).
  { apply in_map. unfold range.
    replace (Z.to_nat l) with (Z.to_nat (l - 1) + 1)%nat by lia.
    rewrite zseq_app. apply in_or_app. right. simpl. left. lia. }
  apply H0 in Hin. unfold in_bounds in Hin. cbn [fst snd] in Hin.
  apply andb_prop in Hin. destruct Hin as [_ Hin]. apply Z.ltb_lt in Hin. lia.
Qed.

(** ** Padded rows, cell by cell *)

Lemma pad_rows_length W lens : forall vals,
  Forall (fun l => 0 <= l <= W) lens ->
  length vals = Z.to_nat (zsum lens) ->
  length (pad_rows W lens vals) = (length lens * Z.to_nat W)%nat.
Proof.
  induction lens as [|l ls IH]; intros vals Hb Hlen; [reflexivity|].
  inversion Hb as [|? ? Hl Hls]; subst.
  assert (Hs : 0 <= zsum ls)
    by (apply zsum_nonneg; eapply Forall_impl; [|exact Hls]; simpl; intros; lia).
  cbn [zsum fold_right] in Hlen. fold (zsum ls) in Hlen.
  cbn [pad_rows length]. rewrite !length_app, repeat_length, length_firstn.
  rewrite IH by (assumption || (rewrite length_skipn; lia)). lia.
Qed.

(** Cell [(r, c)] of the padded rows: the [c]-th value of row [r] when the
    row is that long, and zero otherwise. *)
Lemma pad_rows_cell W lens : forall vals r c,
  Forall (fun l => 0 <= l <= W) lens ->
  length vals = Z.to_nat (zsum lens) ->
  (r < length lens)%nat -> 0 <= c < W ->
  nth (r * Z.to_nat W + Z.to_nat c) (pad_rows W lens vals) 0%Q
  = if c <? nth r lens 0
    then nth (Z.to_nat (zsum (firstn r lens) + c)) vals 0%Q
    else 0%Q.
Proof.
  induction lens as [|l ls IH]; intros vals r c Hb Hlen Hr Hc; [simpl in Hr; lia|].
  inversion Hb as [|? ? Hl Hls]; subst.
  assert (Hpos : Forall (fun l => 0 <= l) ls)
    by (eapply Forall_impl; [|exact Hls]; simpl; intros; lia).
  pose proof (zsum_nonneg ls Hpos) as Hs.
  cbn [zsum fold_right] in Hlen. fold (zsum ls) in Hlen.
  assert (Hv0 : length (firstn (Z.to_nat l) vals) = Z.to_nat l)
    by (rewrite length_firstn; lia).
  cbn [pad_rows]. destruct r as [|r].
  - cbn [nth firstn zsum fold_right Nat.mul Nat.add]. rewrite Z.add_0_l.
    destruct (c <? l) eqn:E.
    + apply Z.ltb_lt in E. rewrite app_nth1 by lia.
      rewrite nth_firstn.
      replace (Z.to_nat c <? Z.to_nat l)%nat with true
        by (symmetry; apply Nat.ltb_lt; lia).
      reflexivity.
    + apply Z.ltb_ge in E. rewrite app_nth2 by lia.
      rewrite app_nth1 by (rewrite repeat_length; lia).
      apply nth_repeat.
  - cbn [length] in Hr. rewrite app_assoc.
    change (S r * Z.to_nat W)%nat with (Z.to_nat W + r * Z.to_nat W)%nat.
    rewrite app_nth2
      by (rewrite length_app, repeat_length, Hv0;
          replace (Z.to_nat l + Z.to_nat (W - l))%nat with (Z.to_nat W) by lia;
          generalize (r * Z.to_nat W)%nat (Z.to_nat W) (Z.to_nat c); intros; lia).
    rewrite length_app, repeat_length, Hv0.
    replace (Z.to_nat l + Z.to_nat (W - l))%nat with (Z.to_nat W) by lia.
    replace (Z.to_nat W + r * Z.to_nat W + Z.to_nat c - Z.to_nat W)%nat
      with (r * Z.to_nat W + Z.to_nat c)%nat
      by (generalize (r * Z.to_nat W)%nat (Z.to_nat W) (Z.to_nat c); intros; lia).
    rewrite IH; try assumption; [| rewrite length_skipn; lia | lia].
    cbn [nth firstn zsum fold_right]. fold (zsum (firstn r ls)).
    destruct (c <? nth r ls 0); [|reflexivity].
    rewrite nth_skipn. f_equal.
    assert (0 <= zsum (firstn r ls)).
    { apply zsum_nonneg. apply Forall_forall. intros x Hx.
      rewrite Forall_forall in Hpos. apply Hpos.
      rewrite <- (firstn_skipn r ls). apply in_or_app. now left. }
    lia.
Qed.

(** Rows that are all as long as the width need no padding. *)
Lemma pad_rows_full W n : forall vals,
  0 <= W -> length vals = (n * Z.to_nat W)%nat ->
  pad_rows W (repeat W n) vals = vals.
Proof.
  induction n as [|n IH]; intros vals HW Hlen.
  - simpl in *. now destruct vals.
  - cbn [repeat pad_rows]. rewrite Z.sub_diag. cbn [Z.to_nat repeat app].
    rewrite IH; [apply firstn_skipn | assumption |].
    rewrite length_skipn. lia.
Qed.

(** ** The output loop *)

Lemma bindR_ok {A B} (r : result A) (k : A -> result B) b :
  bindR r k = Ok b -> exists a, r = Ok a /\ k a = Ok b.
Proof. destruct r; simpl; [eauto | discriminate]. Qed.

Lemma sparse_args_lengths maxsl v lens :
  lens <> [] ->
  Forall (fun l => 0 <= l) lens ->
  length (t_data v) = Z.to_nat (zsum lens) ->
  sparse_args maxsl v lens
  = Ok (flatten v, coords 0 lens, Z.of_nat (length lens), py_or maxsl (hd 0 lens)).
Proof.
  intros Hne Hpos Hlen. unfold sparse_args.
  pose proof (zsum_nonneg lens Hpos).
  rewrite pull_values_offsets_lengths by (assumption || lia).
  rewrite get_indices_psums by assumption. cbn [bindR].
  destruct lens; [congruence | reflexivity].
Qed.

Lemma get_sparse_tensor_coords v lens W :
  Forall (fun l => 0 <= l <= W) lens ->
  length (t_data v) = Z.to_nat (zsum lens) ->
  0 <= W ->
  _get_sparse_tensor (flatten v) (coords 0 lens) (Z.of_nat (length lens)) W
  = Ok (padded W v lens).
Proof.
  intros Hb Hlen HW.
  assert (Hpos : Forall (fun l => 0 <= l) lens)
    by (eapply Forall_impl; [|exact Hb]; simpl; intros; lia).
  unfold _get_sparse_tensor. cbn [flatten t_data t_dtype].
  rewrite coords_length, Hlen, Nat.eqb_refl by assumption.
  rewrite (coords_in_bounds W (Z.of_nat (length lens)) lens 0) by (assumption || lia).
  replace (0 <=? Z.of_nat (length lens)) with true by (symmetry; apply Z.leb_le; lia).
  replace (0 <=? W) with true by (symmetry; apply Z.leb_le; lia).
  cbn [andb]. unfold padded. do 2 f_equal.
  unfold range at 2. rewrite Nat2Z.id. now apply dense_pad_rows.
Qed.

Lemma densify_val_tuple maxsl v lens out :
  lens <> [] ->
  Forall (fun l => 0 <= l) lens ->
  length (t_data v) = Z.to_nat (zsum lens) ->
  densify_val maxsl (VTuple v lens) = Ok out ->
  Forall (fun l => 0 <= l <= py_or maxsl (hd 0 lens)) lens /\
  out = VTensor (padded (py_or maxsl (hd 0 lens)) v lens).
Proof.
  intros Hne Hpos Hlen H. cbn [densify_val] in H.
  rewrite sparse_args_lengths in H by assumption. cbn [bindR] in H.
  apply bindR_ok in H. destruct H as (t & Ht & Hout).
  set (W := py_or maxsl (hd 0 lens)) in *.
  assert (HW : 0 <= W /\ forallb (in_bounds (Z.of_nat (length lens)) W) (coords 0 lens) = true).
  { unfold _get_sparse_tensor in Ht.
    destruct (0 <=? Z.of_nat (length lens)); [|discriminate].
    destruct (0 <=? W) eqn:E; [|discriminate].
    destruct (Nat.eqb _ _); [|discriminate].
    destruct (forallb _ _); [|discriminate].
    split; [now apply Z.leb_le | reflexivity]. }
  destruct HW as [HW Hb].
  assert (Hle : Forall (fun l => 0 <= l <= W) lens)
    by (eapply coords_bounds_lengths; eassumption).
  split; [assumption|].
  rewrite get_sparse_tensor_coords in Ht by assumption.
  congruence.
Qed.

Lemma densify_val_tuple_ok maxsl v lens :
  lens <> [] ->
  Forall (fun l => 0 <= l <= py_or maxsl (hd 0 lens)) lens ->
  length (t_data v) = Z.to_nat (zsum lens) ->
  densify_val maxsl (VTuple v lens)
  = Ok (VTensor (padded (py_or maxsl (hd 0 lens)) v lens)).
Proof.
  intros Hne Hb Hlen.
  assert (Hpos : Forall (fun l => 0 <= l) lens)
    by (eapply Forall_impl; [|exact Hb]; simpl; intros; lia).
  cbn [densify_val]. rewrite sparse_args_lengths by assumption. cbn [bindR].
  rewrite get_sparse_tensor_coords; try assumption; [reflexivity|].
  destruct lens as [|l0 ls]; [congruence|].
  inversion Hb; subst. cbn [hd] in *. lia.
Qed.

Lemma nodup_keys_set {V} (d : Dict.t V) k v :
  NoDup (Dict.keys d) -> NoDup (Dict.keys (Dict.set d k v)).
Proof.
  intros H. destruct (in_dec string_dec k (Dict.keys d)) as [Hin|Hin].
  - now rewrite DictFacts.keys_set_present.
  - rewrite DictFacts.keys_set_absent by assumption.
    apply NoDup_app; [assumption | repeat constructor; simpl; tauto |].
    intros x Hx [<-|[]]. contradiction.
Qed.

(** The outputs hold, under each key of [data] and in the same order, the
    dense form of the value of [data]. *)
Lemma densify_spec maxsl items : forall outputs out,
  NoDup (Dict.keys items) ->
  (forall k, In k (Dict.keys items) -> ~ In k (Dict.keys outputs)) ->
  densify maxsl items outputs = Ok out ->
  Dict.keys out = Dict.keys outputs ++ Dict.keys items /\
  (forall k, ~ In k (Dict.keys items) -> Dict.get out k = Dict.get outputs k) /\
  (forall k v, Dict.get items k = Some v ->
     exists o, densify_val maxsl v = Ok o /\ Dict.get out k = Some o).
Proof.
  induction items as [|[key val] rest IH]; intros outputs out Hnd Hfresh H.
  - cbn in H. inversion H; subst. cbn. rewrite app_nil_r. repeat split; auto.
    intros k v Hk. discriminate.
  - cbn [densify] in H. apply bindR_ok in H. destruct H as (o & Ho & H).
    cbn [Dict.keys map fst] in Hnd, Hfresh. fold (Dict.keys rest) in Hnd, Hfresh.
    inversion Hnd as [|? ? Hnotin Hnd']; subst.
    assert (Hkey : ~ In key (Dict.keys outputs)) by (apply Hfresh; now left).
    apply IH in H; try assumption.
    + destruct H as (Hkeys & Hother & Hget).
      rewrite DictFacts.keys_set_absent in Hkeys by assumption.
      rewrite <- app_assoc in Hkeys.
      split; [exact Hkeys|]. split.
      * intros k Hk.
        assert (Hk1 : k <> key) by (intros ->; apply Hk; now left).
        assert (Hk2 : ~ In k (Dict.keys rest)) by (intros Hin; apply Hk; now right).
        rewrite Hother by assumption. now apply DictFacts.get_set_other.
      * intros k v Hk. cbn [Dict.get] in Hk.
        destruct (String.eqb k key) eqn:E.
        -- apply String.eqb_eq in E. subst k. inversion Hk; subst v.
           exists o. split; [assumption|].
           rewrite Hother by assumption. apply DictFacts.get_set_same.
        -- now apply Hget.
    + intros k Hk. rewrite DictFacts.in_keys_set. intros [->|Hin]; [contradiction|].
      apply (Hfresh k); [now right | assumption].
Qed.

(** ** The monad *)

Lemma bindM_ok {S A B} (m : M S A) (k : A -> M S B) s r :
  bindM m k s = Ok r -> exists a s', m s = Ok (a, s') /\ k a s' = Ok r.
Proof.
  unfold bindM. destruct (m s) as [[a s']|e]; [eauto | discriminate].
Qed.

Lemma lift_ok {S A} (r : result A) (s : S) a s' :
  lift r s = Ok (a, s') -> r = Ok a /\ s' = s.
Proof. unfold lift. destruct r; intros H; inversion H; auto. Qed.

Lemma ret_ok {S A} (a : A) (s : S) b s' : ret a s = Ok (b, s') -> b = a /\ s' = s.
Proof. unfold ret. intros H; inversion H; auto. Qed.

Lemma forallb_nonneg size :
  forallb (fun d => 0 <=? d) size = true -> Forall (fun d => 0 <= d) size.
Proof.
  intros H. apply Forall_forall. intros d Hd.
  rewrite forallb_forall in H. apply Z.leb_le. now apply H.
Qed.

(** ** One row of one feature *)

Section Draws.

Context {RS : Type} {R : RandomSource RS} {L : RandomSourceLaws RS}.

Lemma torch_randint_ok low high size dev s t s' :
  torch_randint low high size dev s = Ok (t, s') ->
  t_shape t = size /\ Forall (fun d => 0 <= d) size /\ low < high /\
  length (t_data t) = Z.to_nat (numel size) /\
  Forall (fun q => exists z, q = inject_Z z /\ low <= z < high) (t_data t).
Proof.
  unfold torch_randint. intros H.
  destruct (forallb _ size) eqn:Hsz; [|discriminate].
  destruct (low <? high) eqn:Hlh; [|discriminate]. cbn [andb] in H.
  apply Z.ltb_lt in Hlh.
  pose proof (torch_randint_length dev low high (Z.to_nat (numel size)) s) as Hlen.
  pose proof (torch_randint_range dev low high (Z.to_nat (numel size)) s Hlh) as Hrng.
  destruct (torch_randint_draw dev low high (Z.to_nat (numel size)) s) as [vs s1].
  cbn [fst] in Hlen, Hrng. inversion H; subst. cbn [t_shape t_data].
  repeat split; try assumption.
  - now apply forallb_nonneg.
  - now rewrite length_map.
  - apply Forall_map. eapply Forall_impl; [|exact Hrng]. intros z Hz. eauto.
Qed.

Lemma torch_rand_ok size dev s t s' :
  torch_rand size dev s = Ok (t, s') ->
  t_shape t = size /\ Forall (fun d => 0 <= d) size /\
  length (t_data t) = Z.to_nat (numel size) /\
  Forall unit_elem (t_data t).
Proof.
  unfold torch_rand. intros H.
  destruct (forallb _ size) eqn:Hsz; [|discriminate].
  pose proof (torch_rand_length dev (Z.to_nat (numel size)) s) as Hlen.
  pose proof (torch_rand_range dev (Z.to_nat (numel size)) s) as Hrng.
  destruct (torch_rand_draw dev (Z.to_nat (numel size)) s) as [vs s1].
  cbn [fst] in Hlen, Hrng. inversion H; subst. cbn [t_shape t_data].
  repeat split; try assumption. now apply forallb_nonneg.
Qed.

(** The row drawn for a feature has the shape the feature asks for and
    elements in the feature's range. *)
Lemma draw_row_ok f sl dev s row s' :
  draw_row f sl dev s = Ok (row, s') ->
  t_shape row = row_dims f sl /\
  Forall (fun d => 0 <= d) (row_dims f sl) /\
  length (t_data row) = Z.to_nat (numel (row_dims f sl)) /\
  Forall (elem_ok f) (t_data row).
Proof.
  unfold draw_row, row_dims, elem_ok. intros H.
  destruct (int_domain f) as [max_num|]; destruct (value_count f) as [vc|];
    first [ apply torch_randint_ok in H; destruct H as (H1 & H2 & _ & H3 & H4)
          | apply torch_rand_ok in H; destruct H as (H1 & H2 & H3 & H4) ];
    repeat split; assumption.
Qed.

Lemma draw_session_length_ok maxsl minsl s sl s' :
  draw_session_length maxsl minsl s = Ok (sl, s') ->
  session_ok maxsl minsl sl.
Proof.
  unfold draw_session_length, session_ok. intros H.
  destruct maxsl as [m|]; [|apply ret_ok in H; tauto].
  destruct (m =? 0); [apply ret_ok in H; tauto|].
  apply bindM_ok in H. destruct H as (v & s1 & Hv & H).
  apply ret_ok in H. destruct H as [-> _].
  unfold random_randint in Hv. destruct (minsl <=? m) eqn:E; [|discriminate].
  apply Z.leb_le in E. pose proof (py_randint_range minsl m s E) as Hr.
  destruct (py_randint minsl m s) as [v' s2]. inversion Hv; subst.
  exists v. auto.
Qed.

End Draws.

(** ** Accumulation across rows *)

Lemma shape_eqb_refl a : shape_eqb a a = true.
Proof. unfold shape_eqb. destruct (list_eq_dec Z.eq_dec a a); congruence. Qed.

Lemma numel_nonneg dims : Forall (fun d => 0 <= d) dims -> 0 <= numel dims.
Proof.
  induction 1 as [|d rest Hd Hrest IH]; cbn [numel fold_right]; [lia|].
  fold (numel rest). now apply Z.mul_nonneg_nonneg.
Qed.

Lemma cat_ok f da db rest a b :
  tensor_ok f (da :: rest) a -> tensor_ok f (db :: rest) b ->
  exists t, cat a b = Ok t /\ tensor_ok f (da + db :: rest) t /\
            t_data t = t_data a ++ t_data b.
Proof.
  intros (Ha & Da & La & Ea) (Hb & Db & Lb & Eb).
  unfold cat. rewrite Ha, Hb, shape_eqb_refl.
  eexists. split; [reflexivity|]. split; [|reflexivity].
  inversion Da as [|? ? Hda Hrest]; subst. inversion Db as [|? ? Hdb _]; subst.
  pose proof (numel_nonneg rest Hrest) as Hn.
  change (numel (da :: rest)) with (da * numel rest) in La.
  change (numel (db :: rest)) with (db * numel rest) in Lb.
  split; [reflexivity|]. cbn [t_data]. split; [|split].
  - constructor; [lia | assumption].
  - change (numel (da + db :: rest)) with ((da + db) * numel rest).
    rewrite length_app, La, Lb, Z.mul_add_distr_r.
    rewrite Z2Nat.inj_add by (apply Z.mul_nonneg_nonneg; assumption). reflexivity.
  - now apply Forall_app.
Qed.

Lemma concat_length_uniform (n : nat) (ts : list tensor) :
  Forall (fun t => length (t_data t) = n) ts ->
  length (concat (map t_data ts)) = (length ts * n)%nat.
Proof.
  induction 1 as [|t ts Ht Hts IH]; [reflexivity|].
  cbn [map concat length]. rewrite length_app, Ht, IH. lia.
Qed.

Lemma stack_ok f dims ts :
  ts <> [] -> Forall (tensor_ok f dims) ts ->
  exists t, stack ts = Ok t /\ tensor_ok f (Z.of_nat (length ts) :: dims) t.
Proof.
  intros Hne Hall. destruct ts as [|t0 rest]; [congruence|].
  inversion Hall as [|? ? (H0 & D0 & L0 & E0) Hrest]; subst.
  unfold stack.
  assert (Hsh : forallb (fun t => shape_eqb (t_shape t) (t_shape t0)) rest = true).
  { apply forallb_forall. intros t Ht. rewrite Forall_forall in Hrest.
    destruct (Hrest t Ht) as [-> _]. apply shape_eqb_refl. }
  rewrite Hsh. eexists. split; [reflexivity|].
  pose proof (numel_nonneg _ D0) as Hn.
  split; [reflexivity|]. cbn [t_data]. split; [|split].
  - constructor; [lia | assumption].
  - rewrite (concat_length_uniform (Z.to_nat (numel (t_shape t0)))).
    + match goal with
      | |- _ = Z.to_nat (numel (?k :: ?d)) => change (numel (k :: d)) with (k * numel d)
      end.
      rewrite Z2Nat.inj_mul, Nat2Z.id by lia. reflexivity.
    + eapply Forall_impl; [|exact Hall]. intros t (_ & _ & Ht & _). exact Ht.
  - apply Forall_concat. apply Forall_map.
    eapply Forall_impl; [|exact Hall]. intros t (_ & _ & _ & Ht). exact Ht.
Qed.

Lemma is_embedding_shape f e :
  is_embedding f = Ok e -> exists d0 rest, shape_of f = d0 :: rest.
Proof.
  unfold is_embedding, shape_of. destruct (shape f) as [[|d0 rest]|]; intros H;
    [discriminate | eauto | eauto].
Qed.

Section Accumulate.

Variables (f : Feature) (num_rows : Z) (maxsl : option Z) (minsl : Z).
Variables (sl : option Z) (e : bool) (row : tensor).

Hypothesis Hsl : session_ok maxsl minsl sl.
Hypothesis Hemb : is_embedding f = Ok e.
Hypothesis Hshape : t_shape row = row_dims f sl.
Hypothesis Hdims : Forall (fun d => 0 <= d) (row_dims f sl).
Hypothesis Hlen : length (t_data row) = Z.to_nat (numel (row_dims f sl)).
Hypothesis Helems : Forall (elem_ok f) (t_data row).

Lemma accumulate_list vc k old :
  value_count f = Some vc ->
  feat_inv f num_rows maxsl minsl k old ->
  exists v, accumulate f e (Z.of_nat k) num_rows old row = Ok v /\
            feat_inv f num_rows maxsl minsl (S k) (Some v).
Proof.
  intros Hvc Hinv. unfold row_dims in *. rewrite Hvc in *.
  set (ll := py_or sl vc) in *.
  assert (Hll : 0 <= ll) by (now inversion Hdims).
  assert (Hok : len_ok maxsl minsl vc ll) by (split; [assumption | exists sl; auto]).
  assert (Hnum : length (t_data row) = Z.to_nat ll)
    by (rewrite Hlen; cbn [numel fold_right]; f_equal; lia).
  unfold accumulate, is_list_feature, len. rewrite Hvc, Hshape. cbn [bindR].
  destruct k as [|k].
  - cbn [feat_inv] in Hinv. subst old.
    eexists. split; [reflexivity|]. cbn [feat_inv]. rewrite Hvc.
    eexists. split; [reflexivity|].
    exists row, [ll]. cbn [zsum fold_right length].
    rewrite Z.add_0_r. repeat split; auto.
  - cbn [feat_inv] in Hinv. rewrite Hvc in Hinv.
    destruct Hinv as (v & -> & vals & lens & -> & Hk & Hlens & Hsh & Hdata & Hel).
    assert (Hpos : 0 <= zsum lens).
    { apply zsum_nonneg. eapply Forall_impl; [|exact Hlens]. now intros l [Hl _]. }
    unfold cat. rewrite Hsh, Hshape, shape_eqb_refl. cbn [bindR].
    eexists. split; [reflexivity|]. cbn [feat_inv]. rewrite Hvc.
    eexists. split; [reflexivity|].
    eexists _, (lens ++ [ll]). split; [reflexivity|]. cbn [t_shape t_data].
    rewrite zsum_app. cbn [zsum fold_right]. rewrite Z.add_0_r.
    repeat split.
    + rewrite length_app. simpl. lia.
    + apply Forall_app. split; [assumption | now constructor].
    + rewrite length_app, Hdata, Hnum. lia.
    + now apply Forall_app.
Qed.

Lemma accumulate_embedding k old :
  value_count f = None -> e = true ->
  Z.of_nat k < num_rows ->
  feat_inv f num_rows maxsl minsl k old ->
  exists v, accumulate f e (Z.of_nat k) num_rows old row = Ok v /\
            feat_inv f num_rows maxsl minsl (S k) (Some v).
Proof.
  intros Hvc -> Hk Hinv. unfold row_dims in *. rewrite Hvc in *.
  assert (Hrow : tensor_ok f (shape_of f) row) by (repeat split; assumption).
  unfold accumulate, is_list_feature. rewrite Hvc.
  destruct k as [|k].
  - cbn [feat_inv] in Hinv. subst old.
    eexists. split; [reflexivity|]. cbn [feat_inv]. rewrite Hvc.
    eexists. split; [reflexivity|]. exists true. split; [assumption|].
    left. split; [reflexivity|]. eauto.
  - cbn [feat_inv] in Hinv. rewrite Hvc in Hinv.
    destruct Hinv as (v & -> & e' & He' & Hinv).
    rewrite Hemb in He'. inversion He'; subst e'. clear He'.
    assert (Hrows : exists rows,
      match v with
      | VList rows => Ok (rows ++ [row])
      | VTensor t => Ok [t; row]
      | VTuple _ _ => Raise TypeError
      end = Ok rows /\ length rows = S (S k) /\ Forall (tensor_ok f (shape_of f)) rows).
    { destruct Hinv as [[Hk1 (t & -> & Ht)] | [(Hk2 & _ & ts & -> & Hts & Hall) | (_ & Hkn & _)]].
      - exists [t; row]. repeat split; [simpl; lia | auto].
      - exists (ts ++ [row]). repeat split.
        + rewrite length_app. simpl. lia.
        + apply Forall_app. auto.
      - lia. }
    destruct Hrows as (rows & -> & Hlenr & Hall). cbn [bindR].
    destruct (Z.of_nat (S k) =? num_rows - 1) eqn:E.
    + apply Z.eqb_eq in E.
      destruct (stack_ok f (shape_of f) rows) as (t & -> & Ht);
        [now destruct rows | assumption |].
      cbn [bindR]. eexists. split; [reflexivity|]. cbn [feat_inv]. rewrite Hvc.
      eexists. split; [reflexivity|]. exists true. split; [assumption|].
      right. right. split; [lia|]. split; [lia|].
      exists t. split; [reflexivity|].
      replace num_rows with (Z.of_nat (length rows)) by lia. exact Ht.
    + apply Z.eqb_neq in E.
      eexists. split; [reflexivity|]. cbn [feat_inv]. rewrite Hvc.
      eexists. split; [reflexivity|]. exists true. split; [assumption|].
      right. left. split; [lia|]. split; [lia|]. eauto.
Qed.

Lemma accumulate_plain k old :
  value_count f = None -> e = false ->
  feat_inv f num_rows maxsl minsl k old ->
  exists v, accumulate f e (Z.of_nat k) num_rows old row = Ok v /\
            feat_inv f num_rows maxsl minsl (S k) (Some v).
Proof.
  intros Hvc -> Hinv. unfold row_dims in *. rewrite Hvc in *.
  destruct (is_embedding_shape f false Hemb) as (d0 & rest & Hsf).
  assert (Hrow : tensor_ok f (d0 :: rest) row)
    by (rewrite <- Hsf; repeat split; assumption).
  unfold accumulate, is_list_feature. rewrite Hvc.
  destruct k as [|k].
  - cbn [feat_inv] in Hinv. subst old.
    eexists. split; [reflexivity|]. cbn [feat_inv]. rewrite Hvc.
    eexists. split; [reflexivity|]. exists false. split; [assumption|].
    exists d0, rest, row. split; [assumption|]. split; [reflexivity|].
    replace (Z.of_nat 1 * d0) with d0 by lia. exact Hrow.
  - cbn [feat_inv] in Hinv. rewrite Hvc in Hinv.
    destruct Hinv as (v & -> & e' & He' & Hinv).
    rewrite Hemb in He'. inversion He'; subst e'. clear He'.
    destruct Hinv as (d0' & rest' & t & Hsf' & -> & Ht).
    rewrite Hsf in Hsf'. inversion Hsf'; subst d0' rest'.
    destruct (cat_ok f _ _ _ t row Ht Hrow) as (t' & -> & Ht' & _).
    cbn [bindR]. eexists. split; [reflexivity|]. cbn [feat_inv]. rewrite Hvc.
    eexists. split; [reflexivity|]. exists false. split; [assumption|].
    exists d0, rest, t'. split; [assumption|]. split; [reflexivity|].
    replace (Z.of_nat (S (S k)) * d0) with (Z.of_nat (S k) * d0 + d0) by lia.
    exact Ht'.
Qed.

(** Whatever the kind of the feature, a further row keeps the invariant. *)
Lemma accumulate_step k old :
  Z.of_nat k < num_rows ->
  feat_inv f num_rows maxsl minsl k old ->
  exists v, accumulate f e (Z.of_nat k) num_rows old row = Ok v /\
            feat_inv f num_rows maxsl minsl (S k) (Some v).
Proof.
  intros Hk Hinv. destruct (value_count f) as [vc|] eqn:Hvc.
  - now apply (accumulate_list vc).
  - destruct (Bool.bool_dec e true) as [He|He].
    + now apply accumulate_embedding.
    + apply accumulate_plain; try assumption. now apply not_true_is_false.
Qed.

End Accumulate.

(** ** The two loops of the generator *)

Section Loops.

Context {RS : Type} {R : RandomSource RS} {L : RandomSourceLaws RS}.

Variables (num_rows : Z) (maxsl : option Z) (minsl : Z) (dev : option device).

Lemma feature_step_set sl i data f s data' s' :
  feature_step num_rows sl dev i data f s = Ok (data', s') ->
  exists v, data' = Dict.set data (name f) v.
Proof.
  unfold feature_step. intros H.
  apply bindM_ok in H. destruct H as (e & s1 & _ & H).
  apply bindM_ok in H. destruct H as (row & s2 & _ & H).
  apply bindM_ok in H. destruct H as (v & s3 & _ & H).
  apply ret_ok in H. destruct H as [-> _]. eauto.
Qed.

Lemma feature_step_inv sl k data f s data' s' :
  session_ok maxsl minsl sl ->
  Z.of_nat k < num_rows ->
  feat_inv f num_rows maxsl minsl k (Dict.get data (name f)) ->
  feature_step num_rows sl dev (Z.of_nat k) data f s = Ok (data', s') ->
  exists v, data' = Dict.set data (name f) v /\
            feat_inv f num_rows maxsl minsl (S k) (Some v).
Proof.
  intros Hsl Hk Hinv H. unfold feature_step in H.
  apply bindM_ok in H. destruct H as (e & s1 & He & H).
  apply lift_ok in He. destruct He as [He ->].
  apply bindM_ok in H. destruct H as (row & s2 & Hrow & H).
  apply draw_row_ok in Hrow. destruct Hrow as (H1 & H2 & H3 & H4).
  apply bindM_ok in H. destruct H as (v & s3 & Hv & H).
  apply lift_ok in Hv. destruct Hv as [Hv ->].
  apply ret_ok in H. destruct H as [-> _].
  destruct (accumulate_step f num_rows maxsl minsl sl e row Hsl He H1 H2 H3 H4 k _ Hk Hinv)
    as (v' & Hv' & Hinv').
  rewrite Hv in Hv'. inversion Hv'; subst v'. eauto.
Qed.

Lemma features_loop_inv sl k fs : forall data s data' s',
  session_ok maxsl minsl sl ->
  Z.of_nat k < num_rows ->
  NoDup (map name fs) ->
  (forall f, In f fs -> feat_inv f num_rows maxsl minsl k (Dict.get data (name f))) ->
  foldM (feature_step num_rows sl dev (Z.of_nat k)) data fs s = Ok (data', s') ->
  (forall f, In f fs -> feat_inv f num_rows maxsl minsl (S k) (Dict.get data' (name f))) /\
  (forall key, ~ In key (map name fs) -> Dict.get data' key = Dict.get data key).
Proof.
  induction fs as [|f fs IH]; intros data s data' s' Hsl Hk Hnd Hinv H.
  - apply ret_ok in H. destruct H as [-> _]. split; [intros f []| reflexivity].
  - cbn [foldM] in H. apply bindM_ok in H. destruct H as (data1 & s1 & Hstep & H).
    cbn [map] in Hnd. inversion Hnd as [|? ? Hnotin Hnd']; subst.
    apply feature_step_inv in Hstep; [| assumption | assumption | apply Hinv; now left].
    destruct Hstep as (v & -> & Hv).
    apply IH in H; try assumption.
    + destruct H as [Hfs Hother]. split.
      * intros f' [<-|Hin].
        -- rewrite Hother by assumption. now rewrite DictFacts.get_set_same.
        -- now apply Hfs.
      * intros key Hkey. cbn [map] in Hkey.
        rewrite Hother by (intros Hin; apply Hkey; now right).
        apply DictFacts.get_set_other. intros ->. apply Hkey. now left.
    + intros f' Hin. rewrite DictFacts.get_set_other; [apply Hinv; now right|].
      intros Heq. apply Hnotin. rewrite <- Heq. now apply in_map.
Qed.

Lemma features_loop_keys_fresh sl i fs : forall data s data' s',
  NoDup (map name fs) ->
  (forall f, In f fs -> ~ In (name f) (Dict.keys data)) ->
  foldM (feature_step num_rows sl dev i) data fs s = Ok (data', s') ->
  Dict.keys data' = Dict.keys data ++ map name fs.
Proof.
  induction fs as [|f fs IH]; intros data s data' s' Hnd Hfresh H.
  - apply ret_ok in H. destruct H as [-> _]. cbn. now rewrite app_nil_r.
  - cbn [foldM] in H. apply bindM_ok in H. destruct H as (data1 & s1 & Hstep & H).
    apply feature_step_set in Hstep. destruct Hstep as (v & ->).
    cbn [map] in Hnd. inversion Hnd as [|? ? Hnotin Hnd']; subst.
    apply IH in H; try assumption.
    + rewrite H, DictFacts.keys_set_absent by (apply Hfresh; now left).
      now rewrite <- app_assoc.
    + intros f' Hin. rewrite DictFacts.in_keys_set. intros [Heq|Hk].
      * apply Hnotin. rewrite <- Heq. now apply in_map.
      * apply (Hfresh f'); [now right | assumption].
Qed.

Lemma features_loop_keys_present sl i fs : forall data s data' s',
  (forall f, In f fs -> In (name f) (Dict.keys data)) ->
  foldM (feature_step num_rows sl dev i) data fs s = Ok (data', s') ->
  Dict.keys data' = Dict.keys data.
Proof.
  induction fs as [|f fs IH]; intros data s data' s' Hin H.
  - apply ret_ok in H. now destruct H as [-> _].
  - cbn [foldM] in H. apply bindM_ok in H. destruct H as (data1 & s1 & Hstep & H).
    apply feature_step_set in Hstep. destruct Hstep as (v & ->).
    apply IH in H.
    + rewrite H. apply DictFacts.keys_set_present. apply Hin. now left.
    + intros f' Hf'. rewrite DictFacts.in_keys_set. right. apply Hin. now right.
Qed.

Variable schema : Schema.
Hypothesis Hnames : NoDup (map name (feature schema)).

Lemma rows_loop_inv n : forall k data s data' s',
  (n <> 0%nat -> Z.of_nat (k + n) <= num_rows) ->
  (forall f, In f (feature schema) ->
     feat_inv f num_rows maxsl minsl k (Dict.get data (name f))) ->
  foldM (row_step schema num_rows maxsl minsl dev) data (zseq (Z.of_nat k) n) s
    = Ok (data', s') ->
  forall f, In f (feature schema) ->
    feat_inv f num_rows maxsl minsl (k + n) (Dict.get data' (name f)).
Proof.
  induction n as [|n IH]; intros k data s data' s' Hk Hinv H.
  - apply ret_ok in H. destruct H as [-> _]. now rewrite Nat.add_0_r.
  - cbn [zseq foldM] in H. apply bindM_ok in H. destruct H as (data1 & s1 & Hrow & H).
    unfold row_step in Hrow. apply bindM_ok in Hrow.
    destruct Hrow as (sl & s2 & Hsl & Hrow).
    apply draw_session_length_ok in Hsl.
    specialize (Hk (Nat.neq_succ_0 n)).
    apply features_loop_inv in Hrow; [| assumption | lia | assumption | assumption].
    destruct Hrow as [Hinv1 _].
    replace (Z.of_nat k + 1) with (Z.of_nat (S k)) in H by lia.
    replace (k + S n)%nat with (S k + n)%nat by lia.
    eapply IH; [| exact Hinv1 | exact H]. lia.
Qed.

Lemma rows_loop_keys n : forall i data s data' s',
  Dict.keys data = map name (feature schema) ->
  foldM (row_step schema num_rows maxsl minsl dev) data (zseq i n) s = Ok (data', s') ->
  Dict.keys data' = map name (feature schema).
Proof.
  induction n as [|n IH]; intros i data s data' s' Hkeys H.
  - apply ret_ok in H. now destruct H as [-> _].
  - cbn [zseq foldM] in H. apply bindM_ok in H. destruct H as (data1 & s1 & Hrow & H).
    unfold row_step in Hrow. apply bindM_ok in Hrow.
    destruct Hrow as (sl & s2 & _ & Hrow).
    apply features_loop_keys_present in Hrow.
    + eapply IH; [|exact H]. congruence.
    + intros f Hf. rewrite Hkeys. now apply in_map.
Qed.

(** What [data] holds when the row loop ends. *)
Lemma generate_spec s data s' :
  generate schema num_rows maxsl minsl dev s = Ok (data, s') ->
  (forall f, In f (feature schema) ->
     feat_inv f num_rows maxsl minsl (Z.to_nat num_rows) (Dict.get data (name f))) /\
  (1 <= num_rows -> Dict.keys data = map name (feature schema)) /\
  NoDup (Dict.keys data).
Proof.
  unfold generate, range. intros H.
  assert (Hinv : forall f, In f (feature schema) ->
     feat_inv f num_rows maxsl minsl (Z.to_nat num_rows) (Dict.get data (name f))).
  { apply (rows_loop_inv (Z.to_nat num_rows) 0 [] s data s'); [lia | | exact H].
    intros f _. reflexivity. }
  split; [exact Hinv|].
  assert (Hkeys : 1 <= num_rows -> Dict.keys data = map name (feature schema)).
  { intros HN. destruct (Z.to_nat num_rows) as [|n] eqn:E; [lia|].
    cbn [zseq foldM] in H. apply bindM_ok in H. destruct H as (data1 & s1 & Hrow & H).
    unfold row_step in Hrow. apply bindM_ok in Hrow.
    destruct Hrow as (sl & s2 & _ & Hrow).
    apply features_loop_keys_fresh in Hrow; [| assumption | intros f _ []].
    eapply rows_loop_keys; [|exact H]. exact Hrow. }
  split; [exact Hkeys|].
  destruct (Z_le_gt_dec 1 num_rows) as [HN|HN].
  - now rewrite Hkeys.
  - replace (Z.to_nat num_rows) with 0%nat in H by lia.
    apply ret_ok in H. destruct H as [-> _]. constructor.
Qed.

(** A run that returns went through [generate] and [densify]. *)
Lemma random_data_from_schema_ok s out s' :
  random_data_from_schema schema num_rows maxsl minsl dev s = Ok (out, s') ->
  exists data,
    generate schema num_rows maxsl minsl dev s = Ok (data, s') /\
    densify maxsl data [] = Ok out.
Proof.
  unfold random_data_from_schema. intros H.
  apply bindM_ok in H. destruct H as (data & s1 & Hgen & H).
  apply lift_ok in H. destruct H as [H ->]. eauto.
Qed.

(** The output of a feature is the dense form of its entry of [data]. *)
Lemma output_of_feature s out s' f :
  1 <= num_rows ->
  In f (feature schema) ->
  random_data_from_schema schema num_rows maxsl minsl dev s = Ok (out, s') ->
  exists data v o,
    generate schema num_rows maxsl minsl dev s = Ok (data, s') /\
    Dict.get data (name f) = Some v /\
    feat_inv f num_rows maxsl minsl (Z.to_nat num_rows) (Some v) /\
    densify_val maxsl v = Ok o /\
    Dict.get out (name f) = Some o /\
    Dict.keys out = map name (feature schema).
Proof.
  intros HN Hf H. apply random_data_from_schema_ok in H.
  destruct H as (data & Hgen & Hden).
  destruct (generate_spec s data s' Hgen) as (Hinv & Hkeys & Hnd).
  specialize (Hinv f Hf). specialize (Hkeys HN).
  apply densify_spec in Hden; [| assumption | intros k _ []].
  destruct Hden as (Hk & _ & Hget).
  destruct (Z.to_nat num_rows) as [|n] eqn:E; [lia|].
  pose proof Hinv as Hinv'. cbn [feat_inv] in Hinv'.
  destruct Hinv' as (v & Hv & _).
  destruct (Hget _ _ Hv) as (o & Ho & Hout).
  exists data, v, o. rewrite <- Hv. cbn [app] in Hk. rewrite Hk, Hkeys. auto 10.
Qed.

End Loops.

(** ** Facts about the accumulated values *)

Lemma session_ok_unset maxsl minsl sl :
  truthy maxsl = false -> session_ok maxsl minsl sl -> sl = None.
Proof.
  unfold truthy, session_ok. destruct maxsl as [m|]; [|auto].
  destruct (m =? 0); [auto | discriminate].
Qed.

Lemma len_ok_unset maxsl minsl vc l :
  truthy maxsl = false -> len_ok maxsl minsl vc l -> l = vc.
Proof.
  intros Ht (_ & sl & Hsl & ->). now rewrite (session_ok_unset _ _ _ Ht Hsl).
Qed.

Lemma len_ok_width maxsl minsl vc l :
  len_ok maxsl minsl vc l -> py_or maxsl l = py_or maxsl vc.
Proof.
  intros Hl. destruct (truthy maxsl) eqn:Ht.
  - unfold truthy in Ht. destruct maxsl as [m|]; [|discriminate].
    cbn [py_or]. now destruct (m =? 0).
  - now rewrite (len_ok_unset _ _ _ _ Ht Hl).
Qed.

Lemma Forall_eq_repeat {A} (x : A) l :
  Forall (fun y => y = x) l -> l = repeat x (length l).
Proof. induction 1; simpl; [reflexivity | congruence]. Qed.

Lemma feat_inv_list f num_rows maxsl minsl vc k v :
  value_count f = Some vc ->
  feat_inv f num_rows maxsl minsl (S k) (Some v) ->
  list_inv f maxsl minsl vc (S k) v.
Proof.
  intros Hvc H. cbn [feat_inv] in H. rewrite Hvc in H.
  destruct H as (v' & Hv & H). now inversion Hv; subst.
Qed.

Lemma list_inv_lengths f maxsl minsl vc k vals lens :
  list_inv f maxsl minsl vc (S k) (VTuple vals lens) ->
  lens <> [] /\ Forall (fun l => 0 <= l) lens /\
  length (t_data vals) = Z.to_nat (zsum lens) /\
  py_or maxsl (hd 0 lens) = py_or maxsl vc.
Proof.
  intros (vals' & lens' & Heq & Hk & Hlens & _ & Hdata & _).
  inversion Heq; subst vals' lens'.
  destruct lens as [|l0 ls]; [discriminate|].
  split; [discriminate|]. split.
  - eapply Forall_impl; [|exact Hlens]. now intros l [Hl _].
  - split; [assumption|]. inversion Hlens; subst. cbn [hd].
    eapply len_ok_width; eassumption.
Qed.



Lemma feat_inv_elements f num_rows maxsl minsl k v :
  feat_inv f num_rows maxsl minsl (S k) (Some v) ->
  Forall (elem_ok f) (elements v).
Proof.
  cbn [feat_inv]. intros (v' & Hv & H). inversion Hv; subst v'. clear Hv.
  destruct (value_count f) as [vc|].
  - destruct H as (vals & lens & -> & _ & _ & _ & _ & H). exact H.
  - destruct H as (e & _ & H). destruct e.
    + destruct H as [(_ & t & -> & _ & _ & _ & H)
                    | [(_ & _ & ts & -> & _ & H) | (_ & _ & t & -> & _ & _ & _ & H)]];
        cbn [elements]; try exact H.
      apply Forall_concat, Forall_map.
      eapply Forall_impl; [|exact H]. now intros t (_ & _ & _ & Ht).
    + destruct H as (d0 & rest & t & _ & -> & _ & _ & _ & H). exact H.
Qed.

Lemma pad_rows_elements (P : Q -> Prop) W lens : forall vals,
  Forall P vals -> Forall (fun q => P q \/ q = 0%Q) (pad_rows W lens vals).
Proof.
  induction lens as [|l ls IH]; intros vals Hv; cbn [pad_rows]; [constructor|].
  rewrite <- (firstn_skipn (Z.to_nat l) vals) in Hv.
  apply Forall_app in Hv. destruct Hv as [H0 H1].
  apply Forall_app. split; [|apply Forall_app; split].
  - eapply Forall_impl; [|exact H0]. intros q Hq. now left.
  - apply Forall_forall. intros q Hq. right. now apply repeat_spec in Hq.
  - now apply IH.
Qed.

Lemma densify_val_not_tuple maxsl v :
  (forall vals lens, v <> VTuple vals lens) -> densify_val maxsl v = Ok v.
Proof. destruct v; intros H; try reflexivity. now destruct (H values lengths). Qed.

Lemma feat_inv_not_tuple f num_rows maxsl minsl k v :
  value_count f = None ->
  feat_inv f num_rows maxsl minsl (S k) (Some v) ->
  forall vals lens, v <> VTuple vals lens.
Proof.
  intros Hvc H vals lens ->. cbn [feat_inv] in H. rewrite Hvc in H.
  destruct H as (v' & Hv & e & _ & H). inversion Hv; subst v'. destruct e.
  - destruct H as [(_ & t & Ht & _) | [(_ & _ & ts & Ht & _) | (_ & _ & t & Ht & _)]];
      discriminate.
  - destruct H as (d0 & rest & t & _ & Ht & _). discriminate.
Qed.


(** ** Runs that return *)

Lemma is_embedding_returns f :
  shape f <> Some [] -> exists e, is_embedding f = Ok e.
Proof.
  unfold is_embedding. destruct (shape f) as [[|d0 rest]|]; intros H;
    [congruence | eauto | eauto].
Qed.

Lemma len_ok_bounded maxsl minsl vc l :
  (truthy maxsl = true -> 1 <= minsl) ->
  len_ok maxsl minsl vc l -> 0 <= l <= py_or maxsl vc.
Proof.
  intros Hok Hl. destruct (truthy maxsl) eqn:Ht.
  - specialize (Hok eq_refl). destruct Hl as (Hl & sl & Hsl & ->).
    unfold truthy in Ht. unfold session_ok in Hsl.
    destruct maxsl as [m|]; [|discriminate].
    destruct (m =? 0) eqn:Em; [discriminate|].
    destruct Hsl as (v & -> & Hv). cbn [py_or] in *. rewrite Em.
    destruct (v =? 0) eqn:Ev; [apply Z.eqb_eq in Ev; lia | lia].
  - pose proof (proj1 Hl) as Hpos. rewrite (len_ok_unset _ _ _ _ Ht Hl) in *.
    unfold truthy in Ht. destruct maxsl as [m|]; cbn [py_or].
    + destruct (m =? 0); [lia | discriminate].
    + lia.
Qed.

Lemma densify_returns maxsl items :
  (forall k v, In (k, v) items -> exists o, densify_val maxsl v = Ok o) ->
  forall outputs, exists out, densify maxsl items outputs = Ok out.
Proof.
  induction items as [|[key val] rest IH]; intros Hall outputs.
  - eexists. reflexivity.
  - cbn [densify]. destruct (Hall key val) as (o & ->); [now left|]. cbn [bindR].
    apply IH. intros k v Hin. apply (Hall k v). now right.
Qed.

Lemma get_of_in {V} (d : Dict.t V) k v :
  NoDup (Dict.keys d) -> In (k, v) d -> Dict.get d k = Some v.
Proof.
  induction d as [|[k0 v0] d IH]; intros Hnd Hin; [destruct Hin|].
  cbn [Dict.keys map fst] in Hnd. inversion Hnd as [|? ? Hnotin Hnd']; subst.
  cbn [Dict.get]. destruct Hin as [Heq|Hin].
  - inversion Heq; subst. now rewrite String.eqb_refl.
  - destruct (String.eqb k k0) eqn:E.
    + apply String.eqb_eq in E. subst k0. exfalso. apply Hnotin.
      change k with (fst (k, v)). now apply in_map.
    + now apply IH.
Qed.

Section Returns.

Context {RS : Type} {R : RandomSource RS} {L : RandomSourceLaws RS}.

Variables (num_rows : Z) (maxsl : option Z) (minsl : Z) (dev : option device).

Lemma draw_session_length_returns s :
  session_args_ok maxsl minsl ->
  exists sl s', draw_session_length maxsl minsl s = Ok (sl, s').
Proof.
  unfold session_args_ok, draw_session_length. intros H.
  destruct maxsl as [m|]; [|eexists _, _; reflexivity].
  destruct (m =? 0) eqn:E; [eexists _, _; reflexivity|].
  apply Z.eqb_neq in E. destruct H as [H|H]; [contradiction|].
  unfold bindM, random_randint. apply Z.leb_le in H. rewrite H.
  destruct (py_randint minsl m s). eexists _, _. reflexivity.
Qed.

Lemma torch_randint_returns low high size s :
  Forall (fun d => 0 <= d) size -> low < high ->
  exists t s', torch_randint low high size dev s = Ok (t, s').
Proof.
  intros Hsz Hlh. unfold torch_randint.
  replace (forallb (fun d => 0 <=? d) size) with true.
  - apply Z.ltb_lt in Hlh. rewrite Hlh. cbn [andb].
    destruct (torch_randint_draw dev low high (Z.to_nat (numel size)) s).
    eexists _, _. reflexivity.
  - symmetry. apply forallb_forall. intros d Hd. apply Z.leb_le.
    rewrite Forall_forall in Hsz. now apply Hsz.
Qed.

Lemma torch_rand_returns size s :
  Forall (fun d => 0 <= d) size ->
  exists t s', torch_rand size dev s = Ok (t, s').
Proof.
  intros Hsz. unfold torch_rand.
  replace (forallb (fun d => 0 <=? d) size) with true.
  - destruct (torch_rand_draw dev (Z.to_nat (numel size)) s).
    eexists _, _. reflexivity.
  - symmetry. apply forallb_forall. intros d Hd. apply Z.leb_le.
    rewrite Forall_forall in Hsz. now apply Hsz.
Qed.

Lemma draw_row_returns f sl s :
  feature_ok maxsl minsl f ->
  session_ok maxsl minsl sl ->
  exists row s', draw_row f sl dev s = Ok (row, s').
Proof.
  intros (_ & Hint & Hvc) Hsl. unfold draw_row.
  assert (Hlist : forall vc, value_count f = Some vc ->
                             Forall (fun d => 0 <= d) [py_or sl vc]).
  { intros vc E. rewrite E in Hvc. constructor; [|constructor].
    destruct (truthy maxsl) eqn:Ht.
    - unfold truthy in Ht. unfold session_ok in Hsl.
      destruct maxsl as [m|]; [|discriminate].
      destruct (m =? 0); [discriminate|].
      destruct Hsl as (v & -> & Hv). cbn [py_or].
      destruct (v =? 0) eqn:Ev; [apply Z.eqb_eq in Ev; lia | lia].
    - rewrite (session_ok_unset _ _ _ Ht Hsl). exact Hvc. }
  destruct (int_domain f) as [M|]; destruct (value_count f) as [vc|].
  - apply torch_randint_returns; [now apply Hlist | now apply Hint].
  - apply torch_randint_returns; [assumption | now apply Hint].
  - apply torch_rand_returns. now apply Hlist.
  - now apply torch_rand_returns.
Qed.

Lemma feature_step_returns sl k data f s :
  feature_ok maxsl minsl f ->
  session_ok maxsl minsl sl ->
  Z.of_nat k < num_rows ->
  feat_inv f num_rows maxsl minsl k (Dict.get data (name f)) ->
  exists data' s', feature_step num_rows sl dev (Z.of_nat k) data f s = Ok (data', s').
Proof.
  intros Hok Hsl Hk Hinv. unfold feature_step.
  destruct (is_embedding_returns f (proj1 Hok)) as (e & He).
  destruct (draw_row_returns f sl s Hok Hsl) as (row & s1 & Hrow).
  pose proof (draw_row_ok f sl dev s row s1 Hrow) as (H1 & H2 & H3 & H4).
  destruct (accumulate_step f num_rows maxsl minsl sl e row Hsl He H1 H2 H3 H4 k _ Hk Hinv)
    as (v & Hv & _).
  unfold bindM, lift, ret. rewrite He, Hrow, Hv. eexists _, _. reflexivity.
Qed.

Lemma features_loop_returns sl k fs : forall data s,
  session_ok maxsl minsl sl ->
  Z.of_nat k < num_rows ->
  NoDup (map name fs) ->
  (forall f, In f fs -> feature_ok maxsl minsl f) ->
  (forall f, In f fs -> feat_inv f num_rows maxsl minsl k (Dict.get data (name f))) ->
  exists data' s',
    foldM (feature_step num_rows sl dev (Z.of_nat k)) data fs s = Ok (data', s').
Proof.
  induction fs as [|f fs IH]; intros data s Hsl Hk Hnd Hok Hinv.
  - eexists _, _. reflexivity.
  - cbn [foldM]. cbn [map] in Hnd. inversion Hnd as [|? ? Hnotin Hnd']; subst.
    destruct (feature_step_returns sl k data f s) as (data1 & s1 & Hstep);
      [apply Hok; now left | assumption | assumption | apply Hinv; now left |].
    unfold bindM. rewrite Hstep.
    apply feature_step_set in Hstep. destruct Hstep as (v & ->).
    apply IH; try assumption.
    + intros f' Hin. apply Hok. now right.
    + intros f' Hin. rewrite DictFacts.get_set_other; [apply Hinv; now right|].
      intros Heq. apply Hnotin. rewrite <- Heq. now apply in_map.
Qed.

Variable schema : Schema.
Hypothesis Hnames : NoDup (map name (feature schema)).
Hypothesis Hargs : session_args_ok maxsl minsl.
Hypothesis Hfeatures : forall f, In f (feature schema) -> feature_ok maxsl minsl f.

Lemma rows_loop_returns n : forall k data s,
  (n <> 0%nat -> Z.of_nat (k + n) <= num_rows) ->
  (forall f, In f (feature schema) ->
     feat_inv f num_rows maxsl minsl k (Dict.get data (name f))) ->
  exists data' s',
    foldM (row_step schema num_rows maxsl minsl dev) data (zseq (Z.of_nat k) n) s
      = Ok (data', s').
Proof.
  induction n as [|n IH]; intros k data s Hk Hinv.
  - eexists _, _. reflexivity.
  - specialize (Hk (Nat.neq_succ_0 n)). cbn [zseq foldM].
    destruct (draw_session_length_returns s Hargs) as (sl & s1 & Hsl).
    pose proof (draw_session_length_ok _ _ _ _ _ Hsl) as Hslok.
    destruct (features_loop_returns sl k (feature schema) data s1)
      as (data1 & s2 & Hloop); try assumption; [lia|].
    assert (Hrow : row_step schema num_rows maxsl minsl dev data (Z.of_nat k) s
                   = Ok (data1, s2)).
    { unfold row_step, bindM. now rewrite Hsl. }
    unfold bindM at 1. rewrite Hrow.
    destruct (features_loop_inv num_rows maxsl minsl dev sl k (feature schema)
                data s1 data1 s2 Hslok ltac:(lia) Hnames Hinv Hloop) as [Hinv1 _].
    replace (Z.of_nat k + 1) with (Z.of_nat (S k)) by lia.
    apply IH; [intros _; lia | exact Hinv1].
Qed.

Lemma densify_val_returns f k v :
  feature_ok maxsl minsl f ->
  feat_inv f num_rows maxsl minsl (S k) (Some v) ->
  exists o, densify_val maxsl v = Ok o.
Proof.
  intros (_ & _ & Hvc) Hinv. destruct (value_count f) as [vc|] eqn:E.
  - apply (feat_inv_list _ _ _ _ vc) in Hinv; [|assumption].
    pose proof Hinv as (vals & lens & -> & _ & Hlens & _).
    destruct (list_inv_lengths _ _ _ _ _ _ _ Hinv) as (Hne & Hpos & Hdata & HW).
    eexists. apply densify_val_tuple_ok; try assumption.
    rewrite HW. eapply Forall_impl; [|exact Hlens].
    intros l Hl. apply (len_ok_bounded maxsl minsl); [|assumption].
    intros Ht. now rewrite Ht in Hvc.
  - exists v. apply densify_val_not_tuple.
    eapply feat_inv_not_tuple; eassumption.
Qed.

(** On a schema of drawable features with distinct names and accepted
    session bounds, the generator returns. *)
Lemma random_data_from_schema_returns s :
  exists out s', random_data_from_schema schema num_rows maxsl minsl dev s = Ok (out, s').
Proof.
  destruct (rows_loop_returns (Z.to_nat num_rows) 0 [] s) as (data & s' & Hgen).
  { intros Hn. lia. }
  { intros f _. reflexivity. }
  fold (range num_rows) in Hgen.
  change (generate schema num_rows maxsl minsl dev s = Ok (data, s')) in Hgen.
  destruct (generate_spec num_rows maxsl minsl dev schema Hnames s data s' Hgen)
    as (Hinv & Hkeys & Hnd).
  destruct (densify_returns maxsl data) with (outputs := @nil (string * pyval))
    as (out & Hout).
  { intros key v Hin.
    destruct (Z_le_gt_dec 1 num_rows) as [HN|HN].
    - assert (Hk : In key (map name (feature schema))).
      { rewrite <- Hkeys by assumption. change key with (fst (key, v)). now apply in_map. }
      apply in_map_iff in Hk. destruct Hk as (f & <- & Hf).
      specialize (Hinv f Hf). rewrite (get_of_in data _ v Hnd Hin) in Hinv.
      destruct (Z.to_nat num_rows) as [|k] eqn:E; [lia|].
      eapply densify_val_returns; [apply Hfeatures|]; eassumption.
    - unfold generate, range in Hgen.
      replace (Z.to_nat num_rows) with 0%nat in Hgen by lia.
      apply ret_ok in Hgen. destruct Hgen as [-> _]. destruct Hin. }
  exists out, s'. unfold random_data_from_schema, bindM, lift.
  now rewrite Hgen, Hout.
Qed.

End Returns.

(** ** The concrete random source meets the contract *)

Lemma Lcg_draws_length {A} (pick : Z -> A) n : forall s,
  length (fst (Lcg.draws pick n s)) = n.
Proof.
  induction n as [|n IH]; intros s; [reflexivity|].
  cbn [Lcg.draws]. specialize (IH (Lcg.next s)).
  destruct (Lcg.draws pick n (Lcg.next s)). cbn [fst length] in *. now rewrite IH.
Qed.

Lemma Lcg_draws_all {A} (pick : Z -> A) (P : A -> Prop) n : forall s,
  (forall x, P (pick x)) -> Forall P (fst (Lcg.draws pick n s)).
Proof.
  induction n as [|n IH]; intros s Hp; [constructor|].
  cbn [Lcg.draws]. specialize (IH (Lcg.next s) Hp).
  destruct (Lcg.draws pick n (Lcg.next s)). cbn [fst] in *. now constructor.
Qed.

Lemma Lcg_laws : @RandomSourceLaws Z Lcg.source.
Proof.
  constructor.
  - intros a b s Hab. cbn [py_randint Lcg.source fst].
    pose proof (Z.mod_pos_bound s (b - a + 1)). lia.
  - intros dev lo hi n s. apply Lcg_draws_length.
  - intros dev lo hi n s Hlh. apply Lcg_draws_all.
    intros x. pose proof (Z.mod_pos_bound x (hi - lo)). lia.
  - intros dev n s. apply Lcg_draws_length.
  - intros dev n s. apply Lcg_draws_all.
    intros x. pose proof (Z.mod_pos_bound x 1000 eq_refl) as Hx.
    unfold Qle, Qlt. cbn. lia.
Qed.

(** ** List features *)

(** The output of a list feature is the padded form of its accumulated
    (values, lengths) pair, [py_or max_session_length value_count.max] wide. *)
Lemma list_feature_output {RS} {R : RandomSource RS} {L : RandomSourceLaws RS}
    (schema : Schema) (num_rows : Z) (maxsl : option Z) (minsl : Z)
    (dev : option device) (s s' : RS) (out : Dict.t pyval) (f : Feature) (vc : Z) :
  NoDup (map name (feature schema)) ->
  In f (feature schema) ->
  value_count f = Some vc ->
  1 <= num_rows ->
  random_data_from_schema schema num_rows maxsl minsl dev s = Ok (out, s') ->
  exists data vals lens,
    generate schema num_rows maxsl minsl dev s = Ok (data, s') /\
    Dict.get data (name f) = Some (VTuple vals lens) /\
    list_inv f maxsl minsl vc (Z.to_nat num_rows) (VTuple vals lens) /\
    Forall (fun l => 0 <= l <= py_or maxsl vc) lens /\
    Dict.get out (name f) = Some (VTensor (padded (py_or maxsl vc) vals lens)).
Proof.
  intros Hnd Hf Hvc HN Hrun.
  destruct (output_of_feature num_rows maxsl minsl dev schema Hnd s out s' f HN Hf Hrun)
    as (data & v & o & Hgen & Hv & Hinv & Ho & Hout & _).
  destruct (Z.to_nat num_rows) as [|k] eqn:E; [lia|].
  apply (feat_inv_list _ _ _ _ vc) in Hinv; [|assumption].
  pose proof Hinv as (vals & lens & -> & _).
  destruct (list_inv_lengths _ _ _ _ _ _ _ Hinv) as (Hne & Hpos & Hdata & HW).
  apply densify_val_tuple in Ho; try assumption.
  rewrite HW in Ho. destruct Ho as [Hb ->].
  exists data, vals, lens. auto 10.
Qed.


(** C1: with no [max_session_length], over [num_rows >= 1] rows and for a
    list feature with declared maximum [vc]: the generator returns on
    drawable arguments, and whenever it returns, the output of the feature is
    a dense tensor of shape [(num_rows, vc)]; every row was drawn with [vc]
    values, and the tensor holds row by row those values in order, padded
    with zeros up to the width. *)
Theorem list_feature_padded_shape {RS} {R : RandomSource RS} {L : RandomSourceLaws RS}
    (schema : Schema) (num_rows : Z) (minsl : Z) (dev : option device)
    (s : RS) (f : Feature) (vc : Z) :
  NoDup (map name (feature schema)) ->
  In f (feature schema) ->
  value_count f = Some vc ->
  1 <= num_rows ->
  (drawable schema None minsl ->
   exists out s', random_data_from_schema schema num_rows None minsl dev s = Ok (out, s')) /\
  forall out s',
    random_data_from_schema schema num_rows None minsl dev s = Ok (out, s') ->
    exists data vals lens t,
      generate schema num_rows None minsl dev s = Ok (data, s') /\
      Dict.get data (name f) = Some (VTuple vals lens) /\
      lens = repeat vc (Z.to_nat num_rows) /\
      length (t_data vals) = Z.to_nat (zsum lens) /\
      Dict.get out (name f) = Some (VTensor t) /\
      t_shape t = [num_rows; vc] /\
      t_data t = pad_rows vc lens (t_data vals) /\
      t_data t = t_data vals.
Proof.
  intros Hnd Hf Hvc HN. split.
  { intros [Hargs Hok]. now apply random_data_from_schema_returns. }
  intros out s' Hrun.
  destruct (list_feature_output schema num_rows None minsl dev s s' out f vc
              Hnd Hf Hvc HN Hrun)
    as (data & vals & lens & Hgen & Hv & Hinv & Hb & Hout).
  cbn [py_or] in *.
  destruct Hinv as (vals' & lens' & Heq & Hk & Hlens & _ & Hdata & _).
  inversion Heq; subst vals' lens'.
  assert (Hrep : lens = repeat vc (Z.to_nat num_rows)).
  { rewrite <- Hk. apply Forall_eq_repeat.
    eapply Forall_impl; [|exact Hlens]. intros l Hl.
    now apply (len_ok_unset None minsl). }
  exists data, vals, lens, (padded vc vals lens).
  repeat split; try assumption.
  - unfold padded. cbn [t_shape]. rewrite Hk. do 2 f_equal. lia.
  - cbn [padded t_data]. rewrite Hrep. apply pad_rows_full.
    + destruct lens as [|l0 ls]; [simpl in Hk; lia|]. inversion Hb; subst. lia.
    + rewrite Hdata, Hrep, zsum_repeat.
      destruct lens as [|l0 ls]; [simpl in Hk; lia|]. inversion Hb; subst.
      rewrite Z2Nat.inj_mul, Nat2Z.id by lia. reflexivity.
Qed.

(** C3, as amended: over [num_rows >= 1] rows, the generator returns on
    drawable arguments, and whenever it returns, the padded width of the
    output of a list feature is [max_session_length] when that is given and
    not zero, and the declared maximum value count otherwise. *)
Theorem list_feature_padded_width {RS} {R : RandomSource RS} {L : RandomSourceLaws RS}
    (schema : Schema) (num_rows : Z) (maxsl : option Z) (minsl : Z)
    (dev : option device) (s : RS) (f : Feature) (vc : Z) :
  NoDup (map name (feature schema)) ->
  In f (feature schema) ->
  value_count f = Some vc ->
  1 <= num_rows ->
  (drawable schema maxsl minsl ->
   exists out s', random_data_from_schema schema num_rows maxsl minsl dev s = Ok (out, s')) /\
  forall out s',
    random_data_from_schema schema num_rows maxsl minsl dev s = Ok (out, s') ->
    exists t,
      Dict.get out (name f) = Some (VTensor t) /\
      t_shape t = [num_rows;
                   match maxsl with
                   | Some m => if m =? 0 then vc else m
                   | None => vc
                   end].
Proof.
  intros Hnd Hf Hvc HN. split.
  { intros [Hargs Hok]. now apply random_data_from_schema_returns. }
  intros out s' Hrun.
  destruct (list_feature_output schema num_rows maxsl minsl dev s s' out f vc
              Hnd Hf Hvc HN Hrun)
    as (data & vals & lens & Hgen & Hv & Hinv & Hb & Hout).
  exists (padded (py_or maxsl vc) vals lens). split; [assumption|].
  destruct Hinv as (vals' & lens' & Heq & Hk & _).
  inversion Heq; subst vals' lens'.
  unfold padded. cbn [t_shape]. rewrite Hk. unfold py_or. do 2 f_equal. lia.
Qed.

Ltac distinct_names :=
  repeat (constructor; [simpl; intuition discriminate|]); constructor.

Ltac feature_is_ok :=
  unfold feature_ok; cbn;
  repeat split;
  try discriminate; try lia;
  try (intros M HM; inversion HM; lia);
  repeat constructor; lia.

Lemma mixed_drawable_unbounded : drawable Examples.mixed None 5.
Proof.
  split; [exact I|]. intros f [<-|[<-|[<-|[<-|[]]]]]; feature_is_ok.
Defined.

Lemma mixed_drawable_bounded : drawable Examples.mixed (Some 4) 1.
Proof.
  split; [right; lia|]. intros f [<-|[<-|[<-|[<-|[]]]]]; feature_is_ok.
Defined.

Lemma list_feature_padded_shape_witness :
  (exists out s',
     random_data_from_schema (R := Lcg.source) Examples.mixed 3 None 5 None 7
       = Ok (out, s')) /\
  exists data vals lens t,
    generate (R := Lcg.source) Examples.mixed 3 None 5 None 7
      = Ok (data, state_of 7 Runs.mixed_3) /\
    Dict.get data "item_id" = Some (VTuple vals lens) /\
    lens = repeat 3 (Z.to_nat 3) /\
    length (t_data vals) = Z.to_nat (zsum lens) /\
    Dict.get (output_of Runs.mixed_3) "item_id" = Some (VTensor t) /\
    t_shape t = [3; 3] /\
    t_data t = pad_rows 3 lens (t_data vals) /\
    t_data t = t_data vals.
Proof.
  destruct (list_feature_padded_shape (L := Lcg_laws) Examples.mixed 3 5 None 7
              Examples.item_id 3) as [Hreturns Hshape].
  - distinct_names.
  - simpl. auto.
  - reflexivity.
  - lia.
  - split.
    + apply Hreturns. exact mixed_drawable_unbounded.
    + apply Hshape. vm_compute. reflexivity.
Defined.

Lemma list_feature_padded_width_witness :
  (exists out s',
     random_data_from_schema (R := Lcg.source) Examples.mixed 3 (Some 4) 1 None 7
       = Ok (out, s')) /\
  exists t,
    Dict.get (output_of Runs.mixed_3_bounded) "dwell_times" = Some (VTensor t) /\
    t_shape t = [3; 4].
Proof.
  destruct (list_feature_padded_width (L := Lcg_laws) Examples.mixed 3 (Some 4) 1 None 7
              Examples.dwell_times 4) as [Hreturns Hwidth].
  - distinct_names.
  - simpl. auto.
  - reflexivity.
  - lia.
  - split.
    + apply Hreturns. exact mixed_drawable_bounded.
    + apply (Hwidth _ (state_of 7 Runs.mixed_3_bounded)). vm_compute. reflexivity.
Defined.

(** C3 as stated fails when [max_session_length] is given as [0]: the
    width is the declared maximum value count 3, not 0. *)
Lemma list_feature_padded_width_zero_bound :
  exists out s' t,
    random_data_from_schema (R := Lcg.source) Examples.items_only 2 (Some 0) 5 None 7
      = Ok (out, s') /\
    Dict.get out "item_id" = Some (VTensor t) /\
    t_shape t = [2; 3] /\
    t_shape t <> [2; 0].
Proof.
  exists (output_of Runs.items_zero_bound), (state_of 7 Runs.items_zero_bound).
  eexists. split; [vm_compute; reflexivity|].
  split; [vm_compute; reflexivity|]. split; [reflexivity | discriminate].
Qed.

(** ** Value ranges *)

(** The output of a feature that is not a list feature is its entry of
    [data], unchanged. *)
Lemma plain_feature_output {RS} {R : RandomSource RS} {L : RandomSourceLaws RS}
    (schema : Schema) (num_rows : Z) (maxsl : option Z) (minsl : Z)
    (dev : option device) (s s' : RS) (out : Dict.t pyval) (f : Feature) :
  NoDup (map name (feature schema)) ->
  In f (feature schema) ->
  value_count f = None ->
  1 <= num_rows ->
  random_data_from_schema schema num_rows maxsl minsl dev s = Ok (out, s') ->
  exists data v,
    generate schema num_rows maxsl minsl dev s = Ok (data, s') /\
    Dict.get data (name f) = Some v /\
    feat_inv f num_rows maxsl minsl (Z.to_nat num_rows) (Some v) /\
    Dict.get out (name f) = Some v.
Proof.
  intros Hnd Hf Hvc HN Hrun.
  destruct (output_of_feature num_rows maxsl minsl dev schema Hnd s out s' f HN Hf Hrun)
    as (data & v & o & Hgen & Hv & Hinv & Ho & Hout & _).
  exists data, v. repeat split; try assumption.
  destruct (Z.to_nat num_rows) as [|k] eqn:E; [lia|].
  rewrite densify_val_not_tuple in Ho
    by (eapply feat_inv_not_tuple; eassumption).
  congruence.
Qed.

(** C4: over [num_rows >= 1] rows and for a feature with integer domain
    maximum [M]: the generator returns on drawable arguments, and whenever
    it returns, every value it drew for the feature is an integer [z] with
    [1 <= z < M]; the output of the feature holds those values, and for a
    list feature the padding zeros besides. *)
Theorem int_feature_values_in_domain {RS} {R : RandomSource RS} {L : RandomSourceLaws RS}
    (schema : Schema) (num_rows : Z) (maxsl : option Z) (minsl : Z)
    (dev : option device) (s : RS) (f : Feature) (M : Z) :
  NoDup (map name (feature schema)) ->
  In f (feature schema) ->
  int_domain f = Some M ->
  1 <= num_rows ->
  (drawable schema maxsl minsl ->
   exists out s', random_data_from_schema schema num_rows maxsl minsl dev s = Ok (out, s')) /\
  forall out s',
    random_data_from_schema schema num_rows maxsl minsl dev s = Ok (out, s') ->
    exists data v o,
      generate schema num_rows maxsl minsl dev s = Ok (data, s') /\
      Dict.get data (name f) = Some v /\
      Forall (int_elem M) (elements v) /\
      Dict.get out (name f) = Some o /\
      Forall (fun q => int_elem M q \/ (is_list_feature f = true /\ q = 0%Q))
             (elements o).
Proof.
  intros Hnd Hf HM HN. split.
  { intros [Hargs Hok]. now apply random_data_from_schema_returns. }
  intros out s' Hrun.
  assert (Hel : forall k v, feat_inv f num_rows maxsl minsl (S k) (Some v) ->
                            Forall (int_elem M) (elements v)).
  { intros k v Hinv. apply feat_inv_elements in Hinv.
    eapply Forall_impl; [|exact Hinv]. unfold elem_ok. now rewrite HM. }
  destruct (value_count f) as [vc|] eqn:Hvc.
  - destruct (list_feature_output schema num_rows maxsl minsl dev s s' out f vc
                Hnd Hf Hvc HN Hrun)
      as (data & vals & lens & Hgen & Hv & Hinv & Hb & Hout).
    destruct (generate_spec num_rows maxsl minsl dev schema Hnd s data s' Hgen)
      as (Hall & _ & _).
    specialize (Hall f Hf). rewrite Hv in Hall.
    destruct (Z.to_nat num_rows) as [|k] eqn:E; [lia|].
    apply Hel in Hall. cbn [elements] in Hall.
    exists data, (VTuple vals lens), (VTensor (padded (py_or maxsl vc) vals lens)).
    repeat split; try assumption.
    cbn [elements padded t_data].
    eapply Forall_impl; [|apply pad_rows_elements; exact Hall].
    intros q [Hq| ->]; [now left | right].
    unfold is_list_feature. now rewrite Hvc.
  - destruct (plain_feature_output schema num_rows maxsl minsl dev s s' out f
                Hnd Hf Hvc HN Hrun)
      as (data & v & Hgen & Hv & Hinv & Hout).
    destruct (Z.to_nat num_rows) as [|k] eqn:E; [lia|].
    apply Hel in Hinv.
    exists data, v, v. repeat split; try assumption.
    eapply Forall_impl; [|exact Hinv]. intros q Hq. now left.
Qed.

Lemma int_feature_values_in_domain_witness :
  (exists out s',
     random_data_from_schema (R := Lcg.source) Examples.mixed 3 (Some 4) 1 None 7
       = Ok (out, s')) /\
  exists data v o,
    generate (R := Lcg.source) Examples.mixed 3 (Some 4) 1 None 7
      = Ok (data, state_of 7 Runs.mixed_3_bounded) /\
    Dict.get data "item_id" = Some v /\
    Forall (int_elem 10) (elements v) /\
    Dict.get (output_of Runs.mixed_3_bounded) "item_id" = Some o /\
    Forall (fun q => int_elem 10 q \/ (is_list_feature Examples.item_id = true /\ q = 0%Q))
           (elements o).
Proof.
  destruct (int_feature_values_in_domain (L := Lcg_laws) Examples.mixed 3 (Some 4) 1
              None 7 Examples.item_id 10) as [Hreturns Hvalues].
  - distinct_names.
  - simpl. auto.
  - reflexivity.
  - lia.
  - split.
    + apply Hreturns. exact mixed_drawable_bounded.
    + apply Hvalues. vm_compute. reflexivity.
Defined.

(** ** Whole outputs *)

Lemma output_keys {RS} {R : RandomSource RS} {L : RandomSourceLaws RS}
    (schema : Schema) (num_rows : Z) (maxsl : option Z) (minsl : Z)
    (dev : option device) (s s' : RS) (out : Dict.t pyval) :
  NoDup (map name (feature schema)) ->
  1 <= num_rows ->
  random_data_from_schema schema num_rows maxsl minsl dev s = Ok (out, s') ->
  Dict.keys out = map name (feature schema).
Proof.
  intros Hnd HN H. apply random_data_from_schema_ok in H.
  destruct H as (data & Hgen & Hden).
  destruct (generate_spec num_rows maxsl minsl dev schema Hnd s data s' Hgen)
    as (_ & Hkeys & Hndk).
  apply densify_spec in Hden; [| assumption | intros k _ []].
  destruct Hden as (Hk & _). rewrite Hk. cbn [Dict.keys map app]. now apply Hkeys.
Qed.

Lemma scalar_continuous_ok maxsl minsl f :
  scalar_continuous f -> feature_ok maxsl minsl f.
Proof.
  intros (Hvc & Hint & Hshape). unfold feature_ok, shape_of.
  rewrite Hvc, Hint.
  destruct Hshape as [-> | ->]; (split; [discriminate|]);
    (split; [discriminate|]); repeat constructor; lia.
Qed.

(** C5: on a schema of scalar continuous features with distinct names,
    over [num_rows >= 1] rows and with session bounds that
    [random.randint] accepts, the generator returns a mapping whose keys are
    the feature names, one entry per feature; each entry is a tensor of
    shape [(num_rows)] holding [num_rows] elements, all in [0, 1). *)
Theorem scalar_continuous_schema_output {RS} {R : RandomSource RS}
    {L : RandomSourceLaws RS}
    (schema : Schema) (num_rows : Z) (maxsl : option Z) (minsl : Z)
    (dev : option device) (s : RS) :
  NoDup (map name (feature schema)) ->
  (forall f, In f (feature schema) -> scalar_continuous f) ->
  session_args_ok maxsl minsl ->
  1 <= num_rows ->
  exists out s',
    random_data_from_schema schema num_rows maxsl minsl dev s = Ok (out, s') /\
    Dict.keys out = map name (feature schema) /\
    forall f, In f (feature schema) ->
      exists t,
        Dict.get out (name f) = Some (VTensor t) /\
        t_shape t = [num_rows] /\
        length (t_data t) = Z.to_nat num_rows /\
        Forall unit_elem (t_data t).
Proof.
  intros Hnd Hsc Hargs HN.
  destruct (random_data_from_schema_returns num_rows maxsl minsl dev schema Hnd Hargs
              (fun f Hf => scalar_continuous_ok maxsl minsl f (Hsc f Hf)) s)
    as (out & s' & Hrun).
  exists out, s'. split; [exact Hrun|]. split; [eapply output_keys; eassumption|].
  intros f Hf. destruct (Hsc f Hf) as (Hvc & Hint & Hshape).
  destruct (plain_feature_output schema num_rows maxsl minsl dev s s' out f
              Hnd Hf Hvc HN Hrun)
    as (data & v & _ & _ & Hinv & Hout).
  destruct (Z.to_nat num_rows) as [|k] eqn:E; [lia|].
  cbn [feat_inv] in Hinv. rewrite Hvc in Hinv.
  destruct Hinv as (v' & Hv & e & He & Hinv). inversion Hv; subst v'. clear Hv.
  assert (Hsf : shape_of f = [1] /\ e = false).
  { unfold is_embedding, shape_of in *.
    destruct Hshape as [Hs | Hs]; rewrite Hs in *; inversion He; auto. }
  destruct Hsf as [Hsf ->].
  destruct Hinv as (d0 & rest & t & Hd & -> & Hsh & _ & Hlen & Hel).
  rewrite Hsf in Hd. inversion Hd; subst d0 rest.
  replace (Z.of_nat (S k) * 1) with num_rows in * by lia.
  exists t. repeat split; try assumption.
  - rewrite Hlen. cbn [numel fold_right]. f_equal. lia.
  - eapply Forall_impl; [|exact Hel]. unfold elem_ok. now rewrite Hint.
Qed.

Lemma scalar_continuous_schema_output_witness :
  exists out s',
    random_data_from_schema (R := Lcg.source) Examples.continuous_only 2 None 5 None 7
      = Ok (out, s') /\
    Dict.keys out = map name (feature Examples.continuous_only) /\
    forall f, In f (feature Examples.continuous_only) ->
      exists t,
        Dict.get out (name f) = Some (VTensor t) /\
        t_shape t = [2] /\
        length (t_data t) = Z.to_nat 2 /\
        Forall unit_elem (t_data t).
Proof.
  apply (scalar_continuous_schema_output (L := Lcg_laws) Examples.continuous_only
           2 None 5 None 7).
  - distinct_names.
  - intros f [<-|[<-|[]]]; unfold scalar_continuous; simpl; auto.
  - exact I.
  - lia.
Defined.

(** ** Embedding features *)

(** The output of an embedding feature: stacked to [(num_rows, shape)] from
    two rows on, and the single row itself when there is one row. *)
Lemma embedding_feature_output {RS} {R : RandomSource RS} {L : RandomSourceLaws RS}
    (schema : Schema) (num_rows : Z) (maxsl : option Z) (minsl : Z)
    (dev : option device) (s s' : RS) (out : Dict.t pyval) (f : Feature)
    (d0 : Z) (rest : list Z) :
  NoDup (map name (feature schema)) ->
  In f (feature schema) ->
  value_count f = None ->
  shape f = Some (d0 :: rest) ->
  1 < d0 ->
  1 <= num_rows ->
  random_data_from_schema schema num_rows maxsl minsl dev s = Ok (out, s') ->
  exists t,
    Dict.get out (name f) = Some (VTensor t) /\
    t_shape t = if num_rows =? 1 then d0 :: rest else num_rows :: d0 :: rest.
Proof.
  intros Hnd Hf Hvc Hshape Hd0 HN Hrun.
  destruct (plain_feature_output schema num_rows maxsl minsl dev s s' out f
              Hnd Hf Hvc HN Hrun)
    as (data & v & _ & _ & Hinv & Hout).
  destruct (Z.to_nat num_rows) as [|k] eqn:E; [lia|].
  cbn [feat_inv] in Hinv. rewrite Hvc in Hinv.
  destruct Hinv as (v' & Hv & e & He & Hinv). inversion Hv; subst v'. clear Hv.
  assert (Hsf : shape_of f = d0 :: rest) by (unfold shape_of; now rewrite Hshape).
  unfold is_embedding in He. rewrite Hshape in He.
  apply Z.ltb_lt in Hd0. rewrite Hd0 in He. inversion He; subst e.
  unfold emb_inv in Hinv. rewrite Hsf in Hinv.
  destruct Hinv as [(Hk & t & -> & Ht & _) | [(_ & Hk & _) | (Hk & Hkn & t & -> & Ht & _)]].
  - exists t. split; [assumption|].
    replace (num_rows =? 1) with true by (symmetry; apply Z.eqb_eq; lia). exact Ht.
  - lia.
  - exists t. split; [assumption|].
    replace (num_rows =? 1) with false by (symmetry; apply Z.eqb_neq; lia). exact Ht.
Qed.

(** C2, at the input where it fails: one row of an embedding feature of
    declared shape [(2)] comes out with shape [(2)], not [(1, 2)]. *)
Theorem embedding_single_row_not_stacked :
  exists out s' t,
    random_data_from_schema (R := Lcg.source) Examples.embedding_only 1 None 5 None 7
      = Ok (out, s') /\
    Dict.get out "user_vector" = Some (VTensor t) /\
    t_shape t = [2].
Proof.
  exists (output_of Runs.embedding_1), (state_of 7 Runs.embedding_1).
  eexists. split; [vm_compute; reflexivity|]. split; vm_compute; reflexivity.
Qed.

(** Three rows of the same feature are stacked to shape [(3, 2)]. *)
Lemma embedding_three_rows_stacked :
  exists out s' t,
    random_data_from_schema (R := Lcg.source) Examples.embedding_only 3 None 5 None 7
      = Ok (out, s') /\
    Dict.get out "user_vector" = Some (VTensor t) /\
    t_shape t = [3; 2].
Proof.
  exists (output_of Runs.embedding_3), (state_of 7 Runs.embedding_3).
  eexists. split; [vm_compute; reflexivity|]. split; vm_compute; reflexivity.
Qed.

(** ** Determinism *)

Section SideBySide.

Context {RS1 RS2 : Type} {R1 : RandomSource RS1} {R2 : RandomSource RS2}.

Variable sim : RS1 -> RS2 -> Prop.

Lemma same_outcome_bind {A B} (m1 : M RS1 A) (m2 : M RS2 A)
    (k1 : A -> M RS1 B) (k2 : A -> M RS2 B) s1 s2 :
  same_outcome sim (m1 s1) (m2 s2) ->
  (forall a t1 t2, sim t1 t2 -> same_outcome sim (k1 a t1) (k2 a t2)) ->
  same_outcome sim (bindM m1 k1 s1) (bindM m2 k2 s2).
Proof.
  unfold bindM. intros H K.
  destruct (m1 s1) as [[a1 t1]|e1], (m2 s2) as [[a2 t2]|e2]; cbn in H;
    try contradiction.
  - destruct H as [-> Hs]. now apply K.
  - exact H.
Qed.

Lemma same_outcome_lift {A} (r : result A) s1 s2 :
  sim s1 s2 -> same_outcome sim (lift r s1) (lift r s2).
Proof. intros Hs. destruct r; cbn; auto. Qed.

Lemma same_outcome_ret {A} (a : A) s1 s2 :
  sim s1 s2 -> same_outcome sim (ret a s1) (ret a s2).
Proof. intros Hs. cbn. auto. Qed.

Lemma same_outcome_fold {A B} (f1 : A -> B -> M RS1 A) (f2 : A -> B -> M RS2 A) xs :
  (forall a x t1 t2, sim t1 t2 -> same_outcome sim (f1 a x t1) (f2 a x t2)) ->
  forall a s1 s2, sim s1 s2 ->
    same_outcome sim (foldM f1 a xs s1) (foldM f2 a xs s2).
Proof.
  intros Hf. induction xs as [|x xs IH]; intros a s1 s2 Hs; cbn [foldM].
  - now apply same_outcome_ret.
  - apply same_outcome_bind; [now apply Hf|]. intros a' t1 t2 Ht. now apply IH.
Qed.

(** The session length of a row: [random.randint] is asked only when a
    session length is in force. *)
Lemma same_draw_session_length maxsl minsl s1 s2 :
  (truthy maxsl = true -> randint_alike sim) ->
  sim s1 s2 ->
  same_outcome sim (draw_session_length maxsl minsl s1)
                   (draw_session_length maxsl minsl s2).
Proof.
  intros Hpy Hs. unfold draw_session_length.
  destruct maxsl as [m|]; [|now apply same_outcome_ret].
  destruct (m =? 0) eqn:E; [now apply same_outcome_ret|].
  assert (Halike : randint_alike sim) by (apply Hpy; cbn; now rewrite E).
  apply same_outcome_bind.
  - unfold random_randint. destruct (minsl <=? m) eqn:L; [|reflexivity].
    apply Z.leb_le in L. destruct (Halike minsl m s1 s2 Hs L) as [Hv Hs'].
    destruct (py_randint minsl m s1) as [v1 t1], (py_randint minsl m s2) as [v2 t2].
    cbn in *. now subst.
  - intros sl t1 t2 Ht. now apply same_outcome_ret.
Qed.

Hypothesis Htorch : torch_alike sim.

Lemma same_torch_randint low high size dev s1 s2 :
  sim s1 s2 ->
  same_outcome sim (torch_randint low high size dev s1)
                   (torch_randint low high size dev s2).
Proof.
  intros Hs. unfold torch_randint.
  destruct (forallb (fun d => 0 <=? d) size && (low <? high)); [|reflexivity].
  destruct Htorch as [Hint _].
  destruct (Hint dev low high (Z.to_nat (numel size)) s1 s2 Hs) as [Hv Hs'].
  destruct (torch_randint_draw dev low high (Z.to_nat (numel size)) s1) as [v1 t1],
    (torch_randint_draw dev low high (Z.to_nat (numel size)) s2) as [v2 t2].
  cbn in *. now subst.
Qed.

Lemma same_torch_rand size dev s1 s2 :
  sim s1 s2 ->
  same_outcome sim (torch_rand size dev s1) (torch_rand size dev s2).
Proof.
  intros Hs. unfold torch_rand.
  destruct (forallb (fun d => 0 <=? d) size); [|reflexivity].
  destruct Htorch as [_ Hrand].
  destruct (Hrand dev (Z.to_nat (numel size)) s1 s2 Hs) as [Hv Hs'].
  destruct (torch_rand_draw dev (Z.to_nat (numel size)) s1) as [v1 t1],
    (torch_rand_draw dev (Z.to_nat (numel size)) s2) as [v2 t2].
  cbn in *. now subst.
Qed.

Lemma same_draw_row f sl dev s1 s2 :
  sim s1 s2 ->
  same_outcome sim (draw_row f sl dev s1) (draw_row f sl dev s2).
Proof.
  intros Hs. unfold draw_row.
  destruct (int_domain f), (value_count f);
    (now apply same_torch_randint) || (now apply same_torch_rand).
Qed.

Lemma same_feature_step num_rows sl dev i data f s1 s2 :
  sim s1 s2 ->
  same_outcome sim (feature_step num_rows sl dev i data f s1)
                   (feature_step num_rows sl dev i data f s2).
Proof.
  intros Hs. unfold feature_step.
  apply same_outcome_bind; [now apply same_outcome_lift|]. intros e t1 t2 Ht.
  apply same_outcome_bind; [now apply same_draw_row|]. intros row u1 u2 Hu.
  apply same_outcome_bind; [now apply same_outcome_lift|]. intros v w1 w2 Hw.
  now apply same_outcome_ret.
Qed.

Lemma same_generate schema num_rows maxsl minsl dev s1 s2 :
  (truthy maxsl = true -> randint_alike sim) ->
  sim s1 s2 ->
  same_outcome sim (generate schema num_rows maxsl minsl dev s1)
                   (generate schema num_rows maxsl minsl dev s2).
Proof.
  intros Hpy Hs. unfold generate. apply same_outcome_fold; [|exact Hs].
  intros data i t1 t2 Ht. unfold row_step.
  apply same_outcome_bind; [now apply same_draw_session_length|].
  intros sl u1 u2 Hu. apply same_outcome_fold; [|exact Hu].
  intros data' f w1 w2 Hw. now apply same_feature_step.
Qed.

End SideBySide.

(** Equal states of one source answer alike. *)
Lemma equal_states_alike {RS} {R : RandomSource RS} :
  torch_alike (R1 := R) (R2 := R) eq /\ randint_alike (R1 := R) (R2 := R) eq.
Proof.
  unfold torch_alike, randint_alike.
  split; [split|]; intros; subst; auto.
Qed.

(** A count of the draws is state that no answer depends on. *)
Lemma counted_alike :
  torch_alike (R1 := Lcg.source) (R2 := Counted.source) Counted.same_seed /\
  randint_alike (R1 := Lcg.source) (R2 := Counted.source) Counted.same_seed.
Proof.
  unfold torch_alike, randint_alike, Counted.same_seed.
  split; [split|]; intros; subst; cbn; auto.
Qed.



(** ** Coordinates and the padded width *)

(** With a session length of at least 1 whenever one is drawn, every
    coordinate handed to [_get_sparse_tensor] lies inside the dense size. *)
Lemma generated_indices_in_bounds {RS} {R : RandomSource RS} {L : RandomSourceLaws RS}
    (schema : Schema) (num_rows : Z) (maxsl : option Z) (minsl : Z)
    (dev : option device) (s s' : RS) (data : Dict.t pyval) (f : Feature) (vc : Z)
    (vals values : tensor) (lens : list Z) (indices : list (Z * Z)) (n W : Z) :
  NoDup (map name (feature schema)) ->
  In f (feature schema) ->
  value_count f = Some vc ->
  (truthy maxsl = true -> 1 <= minsl) ->
  generate schema num_rows maxsl minsl dev s = Ok (data, s') ->
  Dict.get data (name f) = Some (VTuple vals lens) ->
  sparse_args maxsl vals lens = Ok (values, indices, n, W) ->
  Forall (fun ix => 0 <= fst ix < n /\ 0 <= snd ix < W) indices.
Proof.
  intros Hnd Hf Hvc Hmin Hgen Hv Hargs.
  destruct (generate_spec num_rows maxsl minsl dev schema Hnd s data s' Hgen)
    as (Hinv & _ & _).
  specialize (Hinv f Hf). rewrite Hv in Hinv.
  destruct (Z.to_nat num_rows) as [|k] eqn:E; [discriminate Hinv|].
  apply (feat_inv_list _ _ _ _ vc) in Hinv; [|assumption].
  destruct (list_inv_lengths _ _ _ _ _ _ _ Hinv) as (Hne & Hpos & Hdata & HW).
  destruct Hinv as (vals' & lens' & Heq & _ & Hlens & _).
  inversion Heq; subst vals' lens'.
  rewrite sparse_args_lengths in Hargs by assumption.
  inversion Hargs; subst values indices n W. rewrite HW.
  assert (Hb : Forall (fun l => 0 <= l <= py_or maxsl vc) lens).
  { eapply Forall_impl; [|exact Hlens]. intros l Hl.
    now apply (len_ok_bounded maxsl minsl). }
  pose proof (coords_in_bounds (py_or maxsl vc) (Z.of_nat (length lens)) lens 0 Hb
                ltac:(lia) ltac:(lia)) as Hin.
  rewrite forallb_forall in Hin. apply Forall_forall. intros ix Hix.
  apply Hin in Hix. unfold in_bounds in Hix.
  repeat (apply andb_prop in Hix; destruct Hix as [Hix ?]).
  repeat match goal with
         | H : (_ <=? _) = true |- _ => apply Z.leb_le in H
         | H : (_ <? _) = true |- _ => apply Z.ltb_lt in H
         end.
  lia.
Qed.

(** C10, at the input where it fails: with [min_session_length = 0] and
    [max_session_length = 2] the session length drawn is 0, the row falls
    back to the declared 5 values, and column 4 is handed over with a dense
    width of 2; the dense step rejects it. *)
Theorem zero_session_length_exceeds_width :
  exists data vals s' values indices num_rows seq_limit,
    draw_session_length (R := Lcg.source) (Some 2) 0 3 = Ok (Some 0, Lcg.next 3) /\
    generate (R := Lcg.source) Examples.history_only 1 (Some 2) 0 None 3
      = Ok (data, s') /\
    Dict.get data "history" = Some (VTuple vals [5]) /\
    sparse_args (Some 2) vals [5] = Ok (values, indices, num_rows, seq_limit) /\
    seq_limit = 2 /\
    In (0, 4) indices /\
    random_data_from_schema (R := Lcg.source) Examples.history_only 1 (Some 2) 0 None 3
      = Raise RuntimeError.
Proof.
  do 7 eexists.
  split; [vm_compute; reflexivity|].
  split; [vm_compute; reflexivity|].
  split; [vm_compute; reflexivity|].
  split; [vm_compute; reflexivity|].
  split; [reflexivity|].
  split; [simpl; auto 10|].
  vm_compute. reflexivity.
Qed.

(** ** Schema augmentation *)

Lemma Tags_eqb_eq a b : Merlin.Tags_eqb a b = true -> a = b.
Proof. destruct a, b; simpl; intros H; congruence. Qed.

Lemma union_tags_applied : Merlin.TagsApplied Merlin.union_tags.
Proof.
  constructor. intros cs tag. cbn [Merlin.with_tags Merlin.union_tags Merlin.tags].
  destruct (existsb (Merlin.Tags_eqb tag) (Merlin.tags cs)) eqn:E.
  - apply existsb_exists in E. destruct E as (x & Hx & Heq).
    apply Tags_eqb_eq in Heq. now subst.
  - apply in_or_app. right. now left.
Qed.

Lemma union_tags_kept : Merlin.TagsKept Merlin.union_tags.
Proof.
  constructor. intros cs tag t H. cbn [Merlin.with_tags Merlin.union_tags Merlin.tags].
  destruct (existsb _ _); [assumption | apply in_or_app; now left].
Qed.

Lemma replace_tags_applied : Merlin.TagsApplied Merlin.replace_tags.
Proof. constructor. intros cs tag. now left. Qed.

Lemma getitem_ok schema k cs :
  Merlin.getitem schema k = Ok cs -> Dict.get schema k = Some cs.
Proof. unfold Merlin.getitem. destruct (Dict.get schema k); congruence. Qed.

Lemma getitem_present schema k :
  In k (Dict.keys schema) -> exists cs, Merlin.getitem schema k = Ok cs.
Proof.
  intros H. unfold Merlin.getitem. destruct (Dict.get schema k) eqn:E; [eauto|].
  apply DictFacts.get_none_iff in E. contradiction.
Qed.

Lemma getitem_absent schema k :
  ~ In k (Dict.keys schema) -> Merlin.getitem schema k = Raise KeyError.
Proof.
  intros H. unfold Merlin.getitem. apply DictFacts.get_none_iff in H. now rewrite H.
Qed.

Lemma get_some_in_keys {V} (d : Dict.t V) k v :
  Dict.get d k = Some v -> In k (Dict.keys d).
Proof.
  intros H. destruct (in_dec string_dec k (Dict.keys d)) as [Hin|Hin]; [assumption|].
  apply DictFacts.get_none_iff in Hin. congruence.
Qed.

Lemma select_loop_keys schema names : forall selected sel,
  Merlin.select_loop schema names selected = Ok sel ->
  forall k, In k (Dict.keys sel) <-> In k (Dict.keys selected) \/ In k names.
Proof.
  induction names as [|key rest IH]; intros selected sel H k.
  - inversion H; subst. simpl. tauto.
  - cbn [Merlin.select_loop] in H. apply bindR_ok in H. destruct H as (cs & _ & H).
    rewrite (IH _ _ H k), DictFacts.in_keys_set. simpl. intuition.
Qed.

Lemma select_loop_returns schema names : forall selected,
  (forall n, In n names -> In n (Dict.keys schema)) ->
  exists sel, Merlin.select_loop schema names selected = Ok sel.
Proof.
  induction names as [|key rest IH]; intros selected Hall.
  - eexists. reflexivity.
  - cbn [Merlin.select_loop].
    destruct (getitem_present schema key) as (cs & ->); [apply Hall; now left|].
    cbn [bindR]. apply IH. intros n Hn. apply Hall. now right.
Qed.

Lemma select_loop_missing schema names : forall selected n,
  In n names -> ~ In n (Dict.keys schema) ->
  Merlin.select_loop schema names selected = Raise KeyError.
Proof.
  induction names as [|key rest IH]; intros selected n Hin Hmiss; [destruct Hin|].
  cbn [Merlin.select_loop]. unfold Merlin.getitem at 1.
  destruct (Dict.get schema key) as [cs|] eqn:E; cbn [bindR]; [|reflexivity].
  destruct Hin as [->|Hin].
  - apply get_some_in_keys in E. contradiction.
  - eapply IH; eassumption.
Qed.

Lemma has_tag_set schema k cs k' t :
  (k' = k -> In t (Merlin.tags cs)) ->
  has_tag schema k' t -> has_tag (Dict.set schema k cs) k' t.
Proof.
  intros Hsame (cs' & Hget & Ht). unfold has_tag.
  destruct (string_dec k' k) as [->|Hne].
  - rewrite DictFacts.get_set_same. eauto.
  - rewrite DictFacts.get_set_other by assumption. eauto.
Qed.

Section Tagging.

Context {T : Merlin.Tagging}.

Lemma tag_loop_keys tag labels : forall schema schema',
  tag_loop tag labels schema = Ok schema' ->
  Dict.keys schema' = Dict.keys schema.
Proof.
  induction labels as [|label rest IH]; intros schema schema' H.
  - now inversion H.
  - cbn [tag_loop] in H. apply bindR_ok in H. destruct H as (cs & Hcs & H).
    apply getitem_ok in Hcs. rewrite (IH _ _ H).
    apply DictFacts.keys_set_present. eapply get_some_in_keys; eassumption.
Qed.

(** The tagging loops look every name up themselves: a name that is not a
    column stops them with the same lookup error. *)
Lemma tag_loop_missing tag labels : forall schema n,
  In n labels -> ~ In n (Dict.keys schema) ->
  tag_loop tag labels schema = Raise KeyError.
Proof.
  induction labels as [|label rest IH]; intros schema n Hin Hmiss; [destruct Hin|].
  cbn [tag_loop]. unfold Merlin.getitem at 1.
  destruct (Dict.get schema label) as [cs|] eqn:E; cbn [bindR]; [|reflexivity].
  apply get_some_in_keys in E.
  destruct Hin as [->|Hin]; [contradiction|].
  apply (IH _ n Hin). now rewrite DictFacts.keys_set_present.
Qed.

Context {A : Merlin.TagsApplied T}.

(** A tagging loop keeps the columns, tags the listed ones and leaves the
    others as they are. *)
Lemma tag_loop_spec tag labels : forall schema schema',
  tag_loop tag labels schema = Ok schema' ->
  Dict.keys schema' = Dict.keys schema /\
  (forall k, In k labels -> has_tag schema' k tag) /\
  (forall k, ~ In k labels -> Dict.get schema' k = Dict.get schema k).
Proof.
  induction labels as [|label rest IH]; intros schema schema' H.
  - inversion H; subst. repeat split; auto. intros k [].
  - cbn [tag_loop] in H. apply bindR_ok in H. destruct H as (cs & Hcs & H).
    apply getitem_ok in Hcs.
    destruct (IH _ _ H) as (Hkeys & Hnew & Hother).
    split; [|split].
    + rewrite Hkeys. apply DictFacts.keys_set_present.
      eapply get_some_in_keys; eassumption.
    + intros k Hk. destruct (in_dec string_dec k rest) as [Hin|Hnin]; [now apply Hnew|].
      destruct Hk as [<-|Hk]; [|contradiction].
      exists (Merlin.with_tags cs tag). split.
      * rewrite Hother by assumption. apply DictFacts.get_set_same.
      * apply Merlin.with_tags_applies.
    + intros k Hk. rewrite Hother by (intros Hin; apply Hk; now right).
      apply DictFacts.get_set_other. intros ->. apply Hk. now left.
Qed.

(** With additive tagging, a tagging loop loses no tag. *)
Lemma tag_loop_keeps {K : Merlin.TagsKept T} tag labels : forall schema schema',
  tag_loop tag labels schema = Ok schema' ->
  forall k t, has_tag schema k t -> has_tag schema' k t.
Proof.
  induction labels as [|label rest IH]; intros schema schema' H k t Hkt.
  - now inversion H; subst.
  - cbn [tag_loop] in H. apply bindR_ok in H. destruct H as (cs & Hcs & H).
    apply getitem_ok in Hcs. eapply IH; [exact H|].
    apply has_tag_set; [|assumption].
    intros ->. destruct Hkt as (cs' & Hget & Ht).
    rewrite Hcs in Hget. inversion Hget; subst cs'. now apply Merlin.with_tags_keeps.
Qed.

Lemma tag_loop_returns tag labels : forall schema,
  (forall k, In k labels -> In k (Dict.keys schema)) ->
  exists schema', tag_loop tag labels schema = Ok schema'.
Proof.
  induction labels as [|label rest IH]; intros schema Hall.
  - eexists. reflexivity.
  - cbn [tag_loop].
    destruct (getitem_present schema label) as (cs & Hcs); [apply Hall; now left|].
    rewrite Hcs. cbn [bindR]. apply IH. intros k Hk.
    rewrite DictFacts.in_keys_set. right. apply Hall. now right.
Qed.

End Tagging.

Lemma sparse_step_spec sparse_max dense schema col schema' :
  sparse_step sparse_max dense schema col = Ok schema' ->
  Dict.keys schema' = Dict.keys schema /\
  (forall k t, has_tag schema k t -> has_tag schema' k t) /\
  marked_sparse sparse_max dense schema' col /\
  (forall c, c <> col -> marked_sparse sparse_max dense schema c ->
             marked_sparse sparse_max dense schema' c).
Proof.
  unfold sparse_step. intros H. apply bindR_ok in H. destruct H as (cs & Hcs & H).
  apply getitem_ok in Hcs. inversion H; subst schema'. clear H.
  split; [|split; [|split]].
  - apply DictFacts.keys_set_present. eapply get_some_in_keys; eassumption.
  - intros k t Hkt. apply has_tag_set; [|assumption].
    intros ->. destruct Hkt as (cs' & Hget & Ht).
    rewrite Hcs in Hget. inversion Hget; subst cs'. exact Ht.
  - eexists. split; [apply DictFacts.get_set_same|].
    cbn [Merlin.is_list Merlin.is_ragged Merlin.properties].
    repeat split. intros m Hm. rewrite Hm. apply DictFacts.get_set_same.
  - intros c Hne (cs' & Hget & Hrest). exists cs'.
    rewrite DictFacts.get_set_other by assumption. auto.
Qed.

Lemma sparse_loop_spec sparse_max dense cols : forall schema schema',
  sparse_loop sparse_max dense cols schema = Ok schema' ->
  Dict.keys schema' = Dict.keys schema /\
  (forall k t, has_tag schema k t -> has_tag schema' k t) /\
  (forall c, In c cols \/ marked_sparse sparse_max dense schema c ->
             marked_sparse sparse_max dense schema' c).
Proof.
  induction cols as [|col rest IH]; intros schema schema' H.
  - inversion H; subst. repeat split; auto. intros c [[]|Hc]. exact Hc.
  - cbn [sparse_loop] in H. apply bindR_ok in H. destruct H as (schema1 & Hstep & H).
    apply sparse_step_spec in Hstep. destruct Hstep as (Hk1 & Ht1 & Hcol & Hothers).
    destruct (IH _ _ H) as (Hk & Ht & Hm).
    split; [congruence|]. split; [auto|].
    intros c Hc. apply Hm.
    destruct (string_dec c col) as [->|Hne]; [now right|].
    destruct Hc as [[Heq|Hin]|Hc]; [congruence | now left | right; now apply Hothers].
Qed.

Lemma sparse_loop_returns sparse_max dense cols : forall schema,
  (forall c, In c cols -> In c (Dict.keys schema)) ->
  exists schema', sparse_loop sparse_max dense cols schema = Ok schema'.
Proof.
  induction cols as [|col rest IH]; intros schema Hall.
  - eexists. reflexivity.
  - cbn [sparse_loop].
    destruct (getitem_present schema col) as (cs & Hcs); [apply Hall; now left|].
    destruct (sparse_step sparse_max dense schema col) as [schema1|e] eqn:E.
    + cbn [bindR]. apply IH. intros c Hc.
      apply sparse_step_spec in E. destruct E as (-> & _). apply Hall. now right.
    + unfold sparse_step in E. rewrite Hcs in E. discriminate.
Qed.

Lemma sparse_max_of_get sm c : sparse_max_of (Some sm) c = Dict.get sm c.
Proof. destruct sm as [|[k v] sm]; reflexivity. Qed.

Lemma in_names_assoc (conts cats labels : list string) k :
  In k ((conts ++ cats) ++ labels) <-> In k (conts ++ cats ++ labels).
Proof. now rewrite app_assoc. Qed.

Lemma has_tag_same_column schema schema' k t :
  Dict.get schema' k = Dict.get schema k -> has_tag schema k t -> has_tag schema' k t.
Proof. intros Heq (cs & Hget & Ht). exists cs. split; congruence. Qed.

Section AugmentFacts.

Context {T : Merlin.Tagging}.

(** The stages of a call that returns, when all the names are columns. *)
Lemma augment_schema_stages
    (schema : Merlin.Schema) (cats conts labels : list string)
    (sparse_names : option (list string)) (sparse_max : option (Dict.t Z))
    (sparse_as_dense : bool) :
  (forall n, In n (conts ++ cats ++ labels) -> In n (Dict.keys schema)) ->
  (forall c, In c (or_empty sparse_names) -> In c (conts ++ cats ++ labels)) ->
  exists sel s1 s2 s3 result,
    Merlin.select_by_name schema ((conts ++ cats) ++ labels) = Ok sel /\
    tag_loop Merlin.TARGET labels sel = Ok s1 /\
    tag_loop Merlin.CATEGORICAL cats s1 = Ok s2 /\
    tag_loop Merlin.CONTINUOUS conts s2 = Ok s3 /\
    sparse_loop sparse_max sparse_as_dense (or_empty sparse_names) s3 = Ok result /\
    _augment_schema schema (Some cats) (Some conts) (Some (LabelList labels))
                    sparse_names sparse_max sparse_as_dense = Ok result /\
    (forall k, In k (Dict.keys result) <-> In k (conts ++ cats ++ labels)).
Proof.
  intros Hnames Hsparse. unfold _augment_schema. cbn [concat_names bindR or_empty].
  unfold Merlin.select_by_name.
  destruct (select_loop_returns schema ((conts ++ cats) ++ labels) [])
    as (sel & Hsel).
  { intros n Hn. apply Hnames. now apply in_names_assoc. }
  rewrite Hsel. cbn [bindR].
  pose proof (select_loop_keys _ _ _ _ Hsel) as Hkeys0.
  assert (Hkeys : forall k, In k (Dict.keys sel) <-> In k (conts ++ cats ++ labels)).
  { intros k. rewrite Hkeys0, in_names_assoc. simpl. tauto. }
  destruct (tag_loop_returns Merlin.TARGET labels sel) as (s1 & H1).
  { intros k Hk. apply Hkeys. rewrite !in_app_iff. auto. }
  rewrite H1. cbn [bindR].
  pose proof (tag_loop_keys _ _ _ _ H1) as K1.
  destruct (tag_loop_returns Merlin.CATEGORICAL cats s1) as (s2 & H2).
  { intros k Hk. rewrite K1. apply Hkeys. rewrite !in_app_iff. auto. }
  rewrite H2. cbn [bindR].
  pose proof (tag_loop_keys _ _ _ _ H2) as K2.
  destruct (tag_loop_returns Merlin.CONTINUOUS conts s2) as (s3 & H3).
  { intros k Hk. rewrite K2, K1. apply Hkeys. rewrite !in_app_iff. auto. }
  rewrite H3. cbn [bindR].
  pose proof (tag_loop_keys _ _ _ _ H3) as K3.
  destruct (sparse_loop_returns sparse_max sparse_as_dense (or_empty sparse_names) s3)
    as (s4 & H4).
  { intros c Hc. rewrite K3, K2, K1. apply Hkeys. now apply Hsparse. }
  destruct (sparse_loop_spec _ _ _ _ _ H4) as (K4 & _).
  exists sel, s1, s2, s3, s4. repeat split; try assumption.
  - intros Hk. apply Hkeys. now rewrite <- K1, <- K2, <- K3, <- K4.
  - intros Hk. rewrite K4, K3, K2, K1. now apply Hkeys.
Qed.

Context {A : Merlin.TagsApplied T}.

(** X21: whatever the tagging does to the tags already present, the three
    tags are on their columns when no column is named in two of the lists:
    a later tagging loop touches the columns of its own list only. *)
Lemma augment_schema_tags_disjoint
    (schema : Merlin.Schema) (cats conts labels : list string)
    (sparse_names : option (list string)) (sparse_max : option (Dict.t Z))
    (sparse_as_dense : bool) :
  (forall n, In n (conts ++ cats ++ labels) -> In n (Dict.keys schema)) ->
  (forall c, In c (or_empty sparse_names) -> In c (conts ++ cats ++ labels)) ->
  (forall k, In k labels -> ~ In k cats /\ ~ In k conts) ->
  (forall k, In k cats -> ~ In k conts) ->
  exists result,
    _augment_schema schema (Some cats) (Some conts) (Some (LabelList labels))
                    sparse_names sparse_max sparse_as_dense = Ok result /\
    (forall k, In k (Dict.keys result) <-> In k (conts ++ cats ++ labels)) /\
    (forall k, In k labels -> has_tag result k Merlin.TARGET) /\
    (forall k, In k cats -> has_tag result k Merlin.CATEGORICAL) /\
    (forall k, In k conts -> has_tag result k Merlin.CONTINUOUS).
Proof.
  intros Hnames Hsparse Hlab Hcat.
  destruct (augment_schema_stages schema cats conts labels sparse_names sparse_max
              sparse_as_dense Hnames Hsparse)
    as (sel & s1 & s2 & s3 & result & _ & H1 & H2 & H3 & H4 & Hrun & Hkeys).
  destruct (tag_loop_spec _ _ _ _ H1) as (_ & N1 & _).
  destruct (tag_loop_spec _ _ _ _ H2) as (_ & N2 & O2).
  destruct (tag_loop_spec _ _ _ _ H3) as (_ & N3 & O3).
  destruct (sparse_loop_spec _ _ _ _ _ H4) as (_ & T4 & _).
  exists result. split; [exact Hrun|]. split; [exact Hkeys|].
  repeat split; intros k Hk; apply T4.
  - destruct (Hlab k Hk) as [Hc1 Hc2].
    apply (has_tag_same_column s2); [now apply O3|].
    apply (has_tag_same_column s1); [now apply O2|]. now apply N1.
  - apply (has_tag_same_column s2); [apply O3; now apply Hcat|]. now apply N2.
  - now apply N3.
Qed.

(** C6: when every name of [cats], [conts] and [labels] is a column of the
    schema (and the sparse names, if any, are among them), [_augment_schema]
    returns a schema whose columns are exactly those names, and every
    column carries the tag of the last tagging loop that names it, whatever
    the tagging does to the tags already present: a column of [conts] is
    tagged CONTINUOUS, a column of [cats] that is not in [conts] is tagged
    CATEGORICAL, and a column of [labels] that is in neither is tagged
    TARGET. *)
Theorem augment_schema_tags_of_last_list
    (schema : Merlin.Schema) (cats conts labels : list string)
    (sparse_names : option (list string)) (sparse_max : option (Dict.t Z))
    (sparse_as_dense : bool) :
  (forall n, In n (conts ++ cats ++ labels) -> In n (Dict.keys schema)) ->
  (forall c, In c (or_empty sparse_names) -> In c (conts ++ cats ++ labels)) ->
  exists result,
    _augment_schema schema (Some cats) (Some conts) (Some (LabelList labels))
                    sparse_names sparse_max sparse_as_dense = Ok result /\
    (forall k, In k (Dict.keys result) <-> In k (conts ++ cats ++ labels)) /\
    (forall k, In k conts -> has_tag result k Merlin.CONTINUOUS) /\
    (forall k, In k cats -> ~ In k conts -> has_tag result k Merlin.CATEGORICAL) /\
    (forall k, In k labels -> ~ In k cats -> ~ In k conts ->
               has_tag result k Merlin.TARGET).
Proof.
  intros Hnames Hsparse.
  destruct (augment_schema_stages schema cats conts labels sparse_names sparse_max
              sparse_as_dense Hnames Hsparse)
    as (sel & s1 & s2 & s3 & result & _ & H1 & H2 & H3 & H4 & Hrun & Hkeys).
  destruct (tag_loop_spec _ _ _ _ H1) as (_ & N1 & _).
  destruct (tag_loop_spec _ _ _ _ H2) as (_ & N2 & O2).
  destruct (tag_loop_spec _ _ _ _ H3) as (_ & N3 & O3).
  destruct (sparse_loop_spec _ _ _ _ _ H4) as (_ & T4 & _).
  exists result. split; [exact Hrun|]. split; [exact Hkeys|].
  split; [|split].
  - intros k Hk. apply T4. now apply N3.
  - intros k Hk Hc. apply T4.
    apply (has_tag_same_column s2); [now apply O3|]. now apply N2.
  - intros k Hk Hc1 Hc2. apply T4.
    apply (has_tag_same_column s2); [now apply O3|].
    apply (has_tag_same_column s1); [now apply O2|]. now apply N1.
Qed.

(** With additive tagging the lists may overlap: every label is tagged
    TARGET, every categorical column CATEGORICAL and every continuous column
    CONTINUOUS. *)
Theorem augment_schema_selects_and_tags {K : Merlin.TagsKept T}
    (schema : Merlin.Schema) (cats conts labels : list string)
    (sparse_names : option (list string)) (sparse_max : option (Dict.t Z))
    (sparse_as_dense : bool) :
  (forall n, In n (conts ++ cats ++ labels) -> In n (Dict.keys schema)) ->
  (forall c, In c (or_empty sparse_names) -> In c (conts ++ cats ++ labels)) ->
  exists result,
    _augment_schema schema (Some cats) (Some conts) (Some (LabelList labels))
                    sparse_names sparse_max sparse_as_dense = Ok result /\
    (forall k, In k (Dict.keys result) <-> In k (conts ++ cats ++ labels)) /\
    (forall k, In k labels -> has_tag result k Merlin.TARGET) /\
    (forall k, In k cats -> has_tag result k Merlin.CATEGORICAL) /\
    (forall k, In k conts -> has_tag result k Merlin.CONTINUOUS).
Proof.
  intros Hnames Hsparse.
  destruct (augment_schema_stages schema cats conts labels sparse_names sparse_max
              sparse_as_dense Hnames Hsparse)
    as (sel & s1 & s2 & s3 & result & _ & H1 & H2 & H3 & H4 & Hrun & Hkeys).
  destruct (tag_loop_spec _ _ _ _ H1) as (_ & N1 & _).
  destruct (tag_loop_spec _ _ _ _ H2) as (_ & N2 & _).
  destruct (tag_loop_spec _ _ _ _ H3) as (_ & N3 & _).
  pose proof (tag_loop_keeps _ _ _ _ H2) as T2.
  pose proof (tag_loop_keeps _ _ _ _ H3) as T3.
  destruct (sparse_loop_spec _ _ _ _ _ H4) as (_ & T4 & _).
  exists result. split; [exact Hrun|]. split; [exact Hkeys|].
  repeat split; intros k Hk; apply T4; auto.
Qed.

(** Whenever a call returns, the columns of [sparse_names] are marked. *)
Lemma augment_schema_sparse_marked
    (schema : Merlin.Schema) (cats conts : option (list string))
    (labels : option labels_arg) (sparse_names : list string)
    (sparse_max : option (Dict.t Z)) (sparse_as_dense : bool)
    (result : Merlin.Schema) (c : string) :
  _augment_schema schema cats conts labels (Some sparse_names) sparse_max
                  sparse_as_dense = Ok result ->
  In c sparse_names ->
  marked_sparse sparse_max sparse_as_dense result c.
Proof.
  unfold _augment_schema. intros H Hc.
  apply bindR_ok in H. destruct H as (names & _ & H).
  apply bindR_ok in H. destruct H as (sel & _ & H).
  apply bindR_ok in H. destruct H as (s1 & _ & H).
  apply bindR_ok in H. destruct H as (s2 & _ & H).
  apply bindR_ok in H. destruct H as (s3 & _ & H).
  cbn [or_empty] in H.
  destruct (sparse_loop_spec _ _ _ _ _ H) as (_ & _ & Hm).
  apply Hm. now left.
Qed.

(** C7: when the names of [cats], [conts] and [labels] are columns of the
    schema and [sparse_names] are among them, [_augment_schema] returns a
    schema in which every column named in [sparse_names] is a list column,
    ragged exactly when [sparse_as_dense] is false, and with the
    value-count maximum that [sparse_max] gives for it, if any. *)
Theorem augment_schema_marks_sparse
    (schema : Merlin.Schema) (cats conts labels sparse_names : list string)
    (sparse_max : option (Dict.t Z)) (sparse_as_dense : bool) (c : string) :
  (forall n, In n (conts ++ cats ++ labels) -> In n (Dict.keys schema)) ->
  (forall x, In x sparse_names -> In x (conts ++ cats ++ labels)) ->
  In c sparse_names ->
  exists result cs,
    _augment_schema schema (Some cats) (Some conts) (Some (LabelList labels))
                    (Some sparse_names) sparse_max sparse_as_dense = Ok result /\
    Dict.get result c = Some cs /\
    Merlin.is_list cs = true /\
    Merlin.is_ragged cs = negb sparse_as_dense /\
    forall sm m, sparse_max = Some sm -> Dict.get sm c = Some m ->
      Dict.get (Merlin.properties cs) "value_count"%string = Some (Merlin.PMax m).
Proof.
  intros Hnames Hsparse Hc.
  destruct (augment_schema_stages schema cats conts labels (Some sparse_names)
              sparse_max sparse_as_dense Hnames Hsparse)
    as (sel & s1 & s2 & s3 & result & _ & _ & _ & _ & _ & Hrun & _).
  destruct (augment_schema_sparse_marked _ _ _ _ _ _ _ _ c Hrun Hc)
    as (cs & Hget & Hlist & Hragged & Hmax).
  exists result, cs. repeat split; try assumption.
  intros sm m -> Hsm. apply Hmax. now rewrite sparse_max_of_get.
Qed.

(** C8: a name of [cats], [conts] or [labels] that is not a column of the
    schema makes [_augment_schema] fail with the lookup error of the
    selection, and no schema is returned. *)
Theorem augment_schema_missing_name
    (schema : Merlin.Schema) (cats conts labels : list string)
    (sparse_names : option (list string)) (sparse_max : option (Dict.t Z))
    (sparse_as_dense : bool) (n : string) :
  In n (conts ++ cats ++ labels) ->
  ~ In n (Dict.keys schema) ->
  _augment_schema schema (Some cats) (Some conts) (Some (LabelList labels))
                  sparse_names sparse_max sparse_as_dense = Raise KeyError.
Proof.
  intros Hin Hmiss. unfold _augment_schema. cbn [concat_names bindR].
  unfold Merlin.select_by_name.
  rewrite (select_loop_missing schema _ [] n); [reflexivity | | assumption].
  now apply in_names_assoc.
Qed.

End AugmentFacts.

Lemma augment_schema_selects_and_tags_witness :
  exists result,
    _augment_schema (T := Merlin.union_tags) Examples.table
                    (Some ["a"%string]) (Some ["b"%string])
                    (Some (LabelList ["c"%string])) None None false = Ok result /\
    (forall k, In k (Dict.keys result)
               <-> In k (["b"%string] ++ ["a"%string] ++ ["c"%string])) /\
    (forall k, In k ["c"%string] -> has_tag result k Merlin.TARGET) /\
    (forall k, In k ["a"%string] -> has_tag result k Merlin.CATEGORICAL) /\
    (forall k, In k ["b"%string] -> has_tag result k Merlin.CONTINUOUS).
Proof.
  apply (augment_schema_selects_and_tags (A := union_tags_applied) (K := union_tags_kept)
           Examples.table ["a"%string] ["b"%string] ["c"%string] None None false).
  - simpl. intuition.
  - simpl. intuition.
Defined.

Lemma augment_schema_marks_sparse_witness :
  exists result cs,
    _augment_schema (T := Merlin.union_tags) Examples.table
                    (Some ["a"%string]) (Some ["b"%string])
                    (Some (LabelList ["c"%string])) (Some ["a"%string])
                    (Some [("a"%string, 10)]) false = Ok result /\
    Dict.get result "a"%string = Some cs /\
    Merlin.is_list cs = true /\
    Merlin.is_ragged cs = negb false /\
    forall sm m, Some [("a"%string, 10)] = Some sm -> Dict.get sm "a"%string = Some m ->
      Dict.get (Merlin.properties cs) "value_count"%string = Some (Merlin.PMax m).
Proof.
  apply (augment_schema_marks_sparse (T := Merlin.union_tags) Examples.table
           ["a"%string] ["b"%string] ["c"%string] ["a"%string]
           (Some [("a"%string, 10)]) false "a"%string).
  - simpl. intuition.
  - simpl. intuition.
  - simpl. auto.
Defined.

Lemma augment_schema_tags_of_last_list_witness :
  exists result,
    _augment_schema (T := Merlin.replace_tags) Examples.table
                    (Some ["a"%string; "b"%string]) (Some ["b"%string])
                    (Some (LabelList ["c"%string; "a"%string])) None None false
    = Ok result /\
    (forall k, In k (Dict.keys result)
               <-> In k (["b"%string] ++ ["a"%string; "b"%string]
                           ++ ["c"%string; "a"%string])) /\
    (forall k, In k ["b"%string] -> has_tag result k Merlin.CONTINUOUS) /\
    (forall k, In k ["a"%string; "b"%string] -> ~ In k ["b"%string] ->
               has_tag result k Merlin.CATEGORICAL) /\
    (forall k, In k ["c"%string; "a"%string] -> ~ In k ["a"%string; "b"%string] ->
               ~ In k ["b"%string] -> has_tag result k Merlin.TARGET).
Proof.
  apply (augment_schema_tags_of_last_list (A := replace_tags_applied) Examples.table
           ["a"%string; "b"%string] ["b"%string] ["c"%string; "a"%string]
           None None false).
  - simpl. intuition.
  - simpl. intuition.
Defined.

(** With replacing tagging, a column named both in [labels] and in [cats]
    comes out with the CATEGORICAL tag alone: every name is a column of the
    schema, and yet the label does not carry TARGET. *)
Lemma augment_schema_overlap_drops_target :
  (forall n, In n (["b"%string] ++ ["a"%string] ++ ["a"%string]) ->
             In n (Dict.keys Examples.table)) /\
  exists result cs,
    _augment_schema (T := Merlin.replace_tags) Examples.table
                    (Some ["a"%string]) (Some ["b"%string])
                    (Some (LabelList ["a"%string])) None None false = Ok result /\
    In "a"%string ["a"%string] /\
    Dict.get result "a"%string = Some cs /\
    Merlin.tags cs = [Merlin.CATEGORICAL] /\
    ~ has_tag result "a"%string Merlin.TARGET.
Proof.
  split; [simpl; intuition|].
  eexists _, _. split; [vm_compute; reflexivity|].
  split; [now left|]. split; [reflexivity|]. split; [reflexivity|].
  intros (cs & Hget & Hin). vm_compute in Hget. inversion Hget; subst cs.
  simpl in Hin. destruct Hin as [H|[]]. discriminate.
Qed.

(** With replacing tagging and lists that share no name, the tags are on
    their columns all the same. *)
Lemma replace_tags_disjoint_lists :
  exists result,
    _augment_schema (T := Merlin.replace_tags) Examples.table
                    (Some ["a"%string]) (Some ["b"%string])
                    (Some (LabelList ["c"%string])) None None false = Ok result /\
    (forall k, In k (Dict.keys result)
               <-> In k (["b"%string] ++ ["a"%string] ++ ["c"%string])) /\
    (forall k, In k ["c"%string] -> has_tag result k Merlin.TARGET) /\
    (forall k, In k ["a"%string] -> has_tag result k Merlin.CATEGORICAL) /\
    (forall k, In k ["b"%string] -> has_tag result k Merlin.CONTINUOUS).
Proof.
  apply (augment_schema_tags_disjoint (A := replace_tags_applied) Examples.table
           ["a"%string] ["b"%string] ["c"%string] None None false).
  - simpl. intuition.
  - simpl. intuition.
  - intros k [<-|[]]. split; intros [H|[]]; discriminate.
  - intros k [<-|[]] [H|[]]. discriminate.
Defined.

(** With replacing tagging and a column named both categorical and
    continuous, the column does not keep the CATEGORICAL tag. *)
Lemma replace_tags_overlap :
  exists result cs,
    _augment_schema (T := Merlin.replace_tags) Examples.table
                    (Some ["a"%string]) (Some ["a"%string])
                    (Some (LabelList ["c"%string])) None None false = Ok result /\
    Dict.get result "a"%string = Some cs /\
    Merlin.tags cs = [Merlin.CONTINUOUS].
Proof. eexists _, _. split; [vm_compute; reflexivity|]. split; reflexivity. Qed.

Lemma augment_schema_missing_name_witness :
  _augment_schema (T := Merlin.union_tags) Examples.table
                  (Some ["a"%string]) (Some ["b"%string])
                  (Some (LabelList ["z"%string])) None None false = Raise KeyError.
Proof.
  apply (augment_schema_missing_name (T := Merlin.union_tags) Examples.table
           ["a"%string] ["b"%string] ["z"%string] None None false "z"%string).
  - simpl. auto.
  - simpl. intuition discriminate.
Defined.

(** * Further properties of the generator *)

Lemma bindM_raise {S A B} (m : M S A) (k : A -> M S B) s e :
  m s = Raise e -> bindM m k s = Raise e.
Proof. unfold bindM. now intros ->. Qed.

Lemma bindM_step {S A B} (m : M S A) (k : A -> M S B) s a s' :
  m s = Ok (a, s') -> bindM m k s = k a s'.
Proof. unfold bindM. now intros ->. Qed.

(** ** Edge cases of the row loop *)

(** X1: with no row to draw ([num_rows <= 0]) the generator returns the
    empty mapping and leaves the random sources as they were, whatever the
    schema and the session bounds. *)
Theorem no_rows_empty_output {RS} {R : RandomSource RS}
    (schema : Schema) (num_rows : Z) (maxsl : option Z) (minsl : Z)
    (dev : option device) (s : RS) :
  num_rows <= 0 ->
  random_data_from_schema schema num_rows maxsl minsl dev s = Ok ([], s).
Proof.
  intros H. unfold random_data_from_schema, generate, range.
  replace (Z.to_nat num_rows) with 0%nat by lia. reflexivity.
Qed.

Lemma no_rows_empty_output_witness :
  random_data_from_schema (R := Lcg.source) MoreExamples.starts_without_dims 0
                          (Some 3) 5 None 7 = Ok ([], 7).
Proof.
  apply (no_rows_empty_output (R := Lcg.source) MoreExamples.starts_without_dims 0
           (Some 3) 5 None 7).
  lia.
Defined.

(** X2: as soon as there is a row, a [max_session_length] that is not zero
    and lies below [min_session_length] ends the call with [ValueError],
    whatever the schema: the session length is drawn before any feature is
    looked at. *)
Theorem session_bounds_value_error {RS} {R : RandomSource RS}
    (schema : Schema) (num_rows m minsl : Z) (dev : option device) (s : RS) :
  1 <= num_rows ->
  m <> 0 ->
  m < minsl ->
  random_data_from_schema schema num_rows (Some m) minsl dev s = Raise ValueError.
Proof.
  intros HN Hm Hlt. unfold random_data_from_schema, generate, range.
  destruct (Z.to_nat num_rows) as [|n] eqn:E; [lia|].
  cbn [zseq foldM]. unfold bindM, row_step, draw_session_length, random_randint.
  apply Z.eqb_neq in Hm. rewrite Hm.
  replace (minsl <=? m) with false by (symmetry; apply Z.leb_gt; lia).
  reflexivity.
Qed.

Lemma session_bounds_value_error_witness :
  random_data_from_schema (R := Lcg.source) Examples.continuous_only 2 (Some 3) 5 None 7
  = Raise ValueError.
Proof.
  apply (session_bounds_value_error (R := Lcg.source) Examples.continuous_only 2 3 5
           None 7); lia.
Defined.

(** ** Which schemas can be drawn *)

Lemma features_loop_each {RS} {R : RandomSource RS}
    (num_rows : Z) (sl : option Z) (dev : option device) (i : Z) (fs : list Feature) :
  forall data (s : RS) data' s',
    foldM (feature_step num_rows sl dev i) data fs s = Ok (data', s') ->
    forall f, In f fs ->
      exists e s1 row s2,
        is_embedding f = Ok e /\ draw_row f sl dev s1 = Ok (row, s2).
Proof.
  induction fs as [|f0 fs IH]; intros data s data' s' H f Hf; [destruct Hf|].
  cbn [foldM] in H. apply bindM_ok in H. destruct H as (data1 & s1 & Hstep & H).
  destruct Hf as [<-|Hf]; [|eapply IH; eassumption].
  unfold feature_step in Hstep.
  apply bindM_ok in Hstep. destruct Hstep as (e & s2 & He & Hstep).
  apply lift_ok in He. destruct He as [He ->].
  apply bindM_ok in Hstep. destruct Hstep as (row & s3 & Hrow & _).
  eauto 10.
Qed.

Lemma first_row_draws {RS} {R : RandomSource RS} {L : RandomSourceLaws RS}
    (schema : Schema) (num_rows : Z) (maxsl : option Z) (minsl : Z)
    (dev : option device) (s : RS) (out : Dict.t pyval) (s' : RS) :
  1 <= num_rows ->
  random_data_from_schema schema num_rows maxsl minsl dev s = Ok (out, s') ->
  exists sl,
    session_ok maxsl minsl sl /\
    forall f, In f (feature schema) ->
      exists e s1 row s2,
        is_embedding f = Ok e /\ draw_row f sl dev s1 = Ok (row, s2).
Proof.
  intros HN H. apply random_data_from_schema_ok in H.
  destruct H as (data & Hgen & _). unfold generate, range in Hgen.
  destruct (Z.to_nat num_rows) as [|n] eqn:E; [lia|].
  cbn [zseq foldM] in Hgen. apply bindM_ok in Hgen.
  destruct Hgen as (data1 & s1 & Hrow & _).
  unfold row_step in Hrow. apply bindM_ok in Hrow.
  destruct Hrow as (sl & s2 & Hsl & Hloop).
  exists sl. split; [eapply draw_session_length_ok; eassumption|].
  eapply features_loop_each; eassumption.
Qed.

Lemma draw_row_domain {RS} {R : RandomSource RS} {L : RandomSourceLaws RS}
    (f : Feature) (sl : option Z) (dev : option device) (s : RS) row s' (M : Z) :
  draw_row f sl dev s = Ok (row, s') -> int_domain f = Some M -> 1 < M.
Proof.
  unfold draw_row. intros H HM. rewrite HM in H.
  destruct (value_count f); apply torch_randint_ok in H; tauto.
Qed.

(** X3: when no session length is in force ([max_session_length] absent
    or zero), over at least one row and with distinct feature names, the
    generator returns exactly when every feature can be drawn: a shape, if
    declared, has a leading dimension; an integer domain has a maximum above
    1; a declared value count is not negative; a feature that is not a list
    has no negative dimension. *)
Theorem returns_iff_features_ok {RS} {R : RandomSource RS} {L : RandomSourceLaws RS}
    (schema : Schema) (num_rows : Z) (maxsl : option Z) (minsl : Z)
    (dev : option device) (s : RS) :
  truthy maxsl = false ->
  NoDup (map name (feature schema)) ->
  1 <= num_rows ->
  (exists out s',
     random_data_from_schema schema num_rows maxsl minsl dev s = Ok (out, s'))
  <-> (forall f, In f (feature schema) -> feature_ok maxsl minsl f).
Proof.
  intros Ht Hnd HN. split.
  - intros (out & s' & Hrun) f Hf.
    destruct (first_row_draws schema num_rows maxsl minsl dev s out s' HN Hrun)
      as (sl & Hsl & Hall).
    destruct (Hall f Hf) as (e & s1 & row & s2 & He & Hrow).
    rewrite (session_ok_unset _ _ _ Ht Hsl) in Hrow.
    pose proof (draw_row_ok _ _ _ _ _ _ Hrow) as (_ & Hdims & _).
    unfold feature_ok. split; [|split].
    + intros Hs. unfold is_embedding in He. rewrite Hs in He. discriminate.
    + intros M HM. eapply draw_row_domain; eassumption.
    + unfold row_dims in Hdims. rewrite Ht.
      destruct (value_count f) as [vc|]; [|exact Hdims].
      now inversion Hdims.
  - intros Hok. apply random_data_from_schema_returns; try assumption.
    unfold session_args_ok. unfold truthy in Ht.
    destruct maxsl as [m|]; [|exact I].
    left. destruct (m =? 0) eqn:E; [now apply Z.eqb_eq | discriminate].
Qed.

Lemma returns_iff_features_ok_witness :
  (exists out s',
     random_data_from_schema (R := Lcg.source) Examples.mixed 3 None 5 None 7
       = Ok (out, s'))
  <-> (forall f, In f (feature Examples.mixed) -> feature_ok None 5 f).
Proof.
  apply (returns_iff_features_ok (L := Lcg_laws) Examples.mixed 3 None 5 None 7).
  - reflexivity.
  - distinct_names.
  - lia.
Defined.

(** X4: when the first feature of the schema cannot be drawn, a call over
    at least one row with accepted session bounds ends with the exception of
    that feature: [IndexError] when it declares a shape without any
    dimension, and otherwise [RuntimeError] when its integer domain has a
    maximum of 1 or less. *)
Theorem first_feature_error {RS} {R : RandomSource RS}
    (f : Feature) (rest : list Feature) (num_rows : Z) (maxsl : option Z)
    (minsl : Z) (dev : option device) (s : RS) :
  1 <= num_rows ->
  session_args_ok maxsl minsl ->
  shape f = Some [] \/ (exists M, int_domain f = Some M /\ M <= 1) ->
  random_data_from_schema (mkSchema (f :: rest)) num_rows maxsl minsl dev s
  = match shape f with
    | Some [] => Raise IndexError
    | _ => Raise RuntimeError
    end.
Proof.
  intros HN Hargs Hbad.
  destruct (draw_session_length_returns maxsl minsl s Hargs) as (sl & s1 & Hsl).
  assert (Hrun : forall e,
    feature_step num_rows sl dev 0 [] f s1 = Raise e ->
    random_data_from_schema (mkSchema (f :: rest)) num_rows maxsl minsl dev s = Raise e).
  { intros e He. unfold random_data_from_schema, generate, range.
    destruct (Z.to_nat num_rows) as [|n] eqn:E; [lia|].
    cbn [zseq foldM]. do 2 apply bindM_raise. unfold row_step.
    rewrite (bindM_step _ _ _ _ _ Hsl). cbn [foldM feature].
    now apply bindM_raise. }
  assert (Hint : forall M, shape f <> Some [] -> int_domain f = Some M -> M <= 1 ->
    feature_step num_rows sl dev 0 [] f s1 = Raise RuntimeError).
  { intros M Hs HM Hle.
    unfold feature_step, bindM, lift, is_embedding, draw_row, torch_randint.
    rewrite HM.
    replace (1 <? M) with false by (symmetry; apply Z.ltb_ge; lia).
    destruct (shape f) as [[|d0 ds]|]; [congruence | |];
      destruct (value_count f); now rewrite andb_false_r. }
  destruct (shape f) as [[|d0 ds]|] eqn:Hs.
  - apply Hrun. unfold feature_step, bindM, lift, is_embedding. now rewrite Hs.
  - destruct Hbad as [Hbad | (M & HM & Hle)]; [discriminate|].
    apply Hrun. apply (Hint M); [discriminate | assumption | assumption].
  - destruct Hbad as [Hbad | (M & HM & Hle)]; [discriminate|].
    apply Hrun. apply (Hint M); [discriminate | assumption | assumption].
Qed.

Lemma first_feature_error_witness :
  random_data_from_schema (R := Lcg.source)
    (mkSchema (MoreExamples.constant :: [Examples.price])) 2 None 5 None 7
  = Raise RuntimeError.
Proof.
  apply (first_feature_error (R := Lcg.source) MoreExamples.constant [Examples.price]
           2 None 5 None 7).
  - lia.
  - exact I.
  - right. exists 1. split; [reflexivity | lia].
Defined.

(** ** What the outputs hold *)

Lemma feat_inv_final_tensor f num_rows maxsl minsl v :
  1 <= num_rows ->
  value_count f = None ->
  feat_inv f num_rows maxsl minsl (Z.to_nat num_rows) (Some v) ->
  exists t, v = VTensor t.
Proof.
  intros HN Hvc Hinv. destruct (Z.to_nat num_rows) as [|k] eqn:E; [lia|].
  cbn [feat_inv] in Hinv. rewrite Hvc in Hinv.
  destruct Hinv as (v' & Hv & e & _ & Hinv). inversion Hv; subst v'. destruct e.
  - destruct Hinv as [(_ & t & -> & _) | [(_ & Hk & _) | (_ & _ & t & -> & _)]];
      [eauto | lia | eauto].
  - destruct Hinv as (d0 & rest & t & _ & -> & _). eauto.
Qed.

(** X5: over at least one row and with distinct feature names, a call that
    returns gives a mapping whose keys are the feature names in schema
    order, and every value of the mapping is a tensor: neither the (values,
    lengths) pair of a list feature nor the row list of an embedding feature
    is left in the output. *)
Theorem output_entries_are_tensors {RS} {R : RandomSource RS} {L : RandomSourceLaws RS}
    (schema : Schema) (num_rows : Z) (maxsl : option Z) (minsl : Z)
    (dev : option device) (s s' : RS) (out : Dict.t pyval) :
  NoDup (map name (feature schema)) ->
  1 <= num_rows ->
  random_data_from_schema schema num_rows maxsl minsl dev s = Ok (out, s') ->
  Dict.keys out = map name (feature schema) /\
  forall key v, Dict.get out key = Some v -> exists t, v = VTensor t.
Proof.
  intros Hnd HN Hrun.
  pose proof (output_keys schema num_rows maxsl minsl dev s s' out Hnd HN Hrun) as Hkeys.
  split; [exact Hkeys|]. intros key v Hget.
  assert (Hin : In key (map name (feature schema))).
  { rewrite <- Hkeys. destruct (in_dec string_dec key (Dict.keys out)) as [H|H]; [exact H|].
    apply DictFacts.get_none_iff in H. congruence. }
  apply in_map_iff in Hin. destruct Hin as (f & <- & Hf).
  destruct (value_count f) as [vc|] eqn:Hvc.
  - destruct (list_feature_output schema num_rows maxsl minsl dev s s' out f vc
                Hnd Hf Hvc HN Hrun) as (_ & vals & lens & _ & _ & _ & _ & Hout).
    rewrite Hout in Hget. inversion Hget. eauto.
  - destruct (plain_feature_output schema num_rows maxsl minsl dev s s' out f
                Hnd Hf Hvc HN Hrun) as (_ & v' & _ & _ & Hinv & Hout).
    rewrite Hout in Hget. inversion Hget; subst v'.
    eapply feat_inv_final_tensor; eassumption.
Qed.

Lemma output_entries_are_tensors_witness :
  Dict.keys (output_of Runs.mixed_3_bounded) = map name (feature Examples.mixed) /\
  forall key v, Dict.get (output_of Runs.mixed_3_bounded) key = Some v ->
                exists t, v = VTensor t.
Proof.
  apply (output_entries_are_tensors (L := Lcg_laws) Examples.mixed 3 (Some 4) 1 None 7
           (state_of 7 Runs.mixed_3_bounded)).
  - distinct_names.
  - lia.
  - vm_compute. reflexivity.
Defined.

(** X6: a feature that is neither a list nor an embedding (declared shape
    [d0 :: rest] with [d0 <= 1]) is concatenated along its leading
    dimension: over [num_rows >= 1] rows its output has shape
    [num_rows * d0 :: rest], holds as many elements as that shape says, all
    in the range of the feature.  A shape [(1, 4)] gives [(num_rows, 4)]; a
    leading dimension 0 gives a leading dimension 0, however many rows. *)
Theorem fixed_shape_feature_output {RS} {R : RandomSource RS} {L : RandomSourceLaws RS}
    (schema : Schema) (num_rows : Z) (maxsl : option Z) (minsl : Z)
    (dev : option device) (s s' : RS) (out : Dict.t pyval) (f : Feature)
    (d0 : Z) (rest : list Z) :
  NoDup (map name (feature schema)) ->
  In f (feature schema) ->
  value_count f = None ->
  shape f = Some (d0 :: rest) ->
  d0 <= 1 ->
  1 <= num_rows ->
  random_data_from_schema schema num_rows maxsl minsl dev s = Ok (out, s') ->
  exists t,
    Dict.get out (name f) = Some (VTensor t) /\
    t_shape t = num_rows * d0 :: rest /\
    length (t_data t) = Z.to_nat (numel (num_rows * d0 :: rest)) /\
    Forall (elem_ok f) (t_data t).
Proof.
  intros Hnd Hf Hvc Hshape Hd0 HN Hrun.
  destruct (plain_feature_output schema num_rows maxsl minsl dev s s' out f
              Hnd Hf Hvc HN Hrun)
    as (data & v & _ & _ & Hinv & Hout).
  destruct (Z.to_nat num_rows) as [|k] eqn:E; [lia|].
  cbn [feat_inv] in Hinv. rewrite Hvc in Hinv.
  destruct Hinv as (v' & Hv & e & He & Hinv). inversion Hv; subst v'. clear Hv.
  assert (Hsf : shape_of f = d0 :: rest) by (unfold shape_of; now rewrite Hshape).
  unfold is_embedding in He. rewrite Hshape in He.
  replace (1 <? d0) with false in He by (symmetry; apply Z.ltb_ge; lia).
  inversion He; subst e.
  destruct Hinv as (d0' & rest' & t & Hd & -> & Hsh & Hdims & Hlen & Hel).
  rewrite Hsf in Hd. inversion Hd; subst d0' rest'.
  replace (Z.of_nat (S k)) with num_rows in * by lia.
  exists t. auto.
Qed.

Lemma fixed_shape_feature_output_witness :
  exists t,
    Dict.get (output_of MoreExamples.fixed_shapes_3) "matrix" = Some (VTensor t) /\
    t_shape t = [3 * 1; 4] /\
    length (t_data t) = Z.to_nat (numel [3 * 1; 4]) /\
    Forall (elem_ok MoreExamples.matrix) (t_data t).
Proof.
  apply (fixed_shape_feature_output (L := Lcg_laws) MoreExamples.fixed_shapes 3 None 5
           None 7 (state_of 7 MoreExamples.fixed_shapes_3)
           (output_of MoreExamples.fixed_shapes_3) MoreExamples.matrix 1 [4]).
  - distinct_names.
  - simpl. auto.
  - reflexivity.
  - reflexivity.
  - lia.
  - lia.
  - vm_compute. reflexivity.
Defined.

(** X7: over [num_rows >= 2] rows an embedding feature (declared shape
    [d0 :: rest] with [d0 > 1], not a list) is stacked along a new leading
    axis: its output has shape [num_rows :: d0 :: rest], holds as many
    elements as that shape says, all in the range of the feature. *)
Theorem embedding_rows_stacked {RS} {R : RandomSource RS} {L : RandomSourceLaws RS}
    (schema : Schema) (num_rows : Z) (maxsl : option Z) (minsl : Z)
    (dev : option device) (s s' : RS) (out : Dict.t pyval) (f : Feature)
    (d0 : Z) (rest : list Z) :
  NoDup (map name (feature schema)) ->
  In f (feature schema) ->
  value_count f = None ->
  shape f = Some (d0 :: rest) ->
  1 < d0 ->
  2 <= num_rows ->
  random_data_from_schema schema num_rows maxsl minsl dev s = Ok (out, s') ->
  exists t,
    Dict.get out (name f) = Some (VTensor t) /\
    t_shape t = num_rows :: d0 :: rest /\
    length (t_data t) = Z.to_nat (numel (num_rows :: d0 :: rest)) /\
    Forall (elem_ok f) (t_data t).
Proof.
  intros Hnd Hf Hvc Hshape Hd0 HN Hrun.
  destruct (plain_feature_output schema num_rows maxsl minsl dev s s' out f
              Hnd Hf Hvc ltac:(lia) Hrun)
    as (data & v & _ & _ & Hinv & Hout).
  destruct (Z.to_nat num_rows) as [|k] eqn:E; [lia|].
  cbn [feat_inv] in Hinv. rewrite Hvc in Hinv.
  destruct Hinv as (v' & Hv & e & He & Hinv). inversion Hv; subst v'. clear Hv.
  assert (Hsf : shape_of f = d0 :: rest) by (unfold shape_of; now rewrite Hshape).
  unfold is_embedding in He. rewrite Hshape in He.
  apply Z.ltb_lt in Hd0. rewrite Hd0 in He. inversion He; subst e.
  unfold emb_inv in Hinv. rewrite Hsf in Hinv.
  destruct Hinv as [(Hk & _) | [(_ & Hk & _) | (_ & _ & t & -> & Ht)]]; [lia | lia |].
  destruct Ht as (Hsh & _ & Hlen & Hel).
  exists t. auto.
Qed.

Lemma embedding_rows_stacked_witness :
  exists t,
    Dict.get (output_of Runs.mixed_3) "user_vector" = Some (VTensor t) /\
    t_shape t = [3; 2] /\
    length (t_data t) = Z.to_nat (numel [3; 2]) /\
    Forall (elem_ok Examples.user_vector) (t_data t).
Proof.
  apply (embedding_rows_stacked (L := Lcg_laws) Examples.mixed 3 None 5 None 7
           (state_of 7 Runs.mixed_3) (output_of Runs.mixed_3) Examples.user_vector 2 []).
  - distinct_names.
  - simpl. auto.
  - reflexivity.
  - reflexivity.
  - lia.
  - lia.
  - vm_compute. reflexivity.
Defined.

Lemma unit_elem_zero : unit_elem 0%Q.
Proof. unfold unit_elem, Qle, Qlt. cbn. lia. Qed.

(** X8: for a feature without integer domain, of whatever kind, every
    element of its output lies in [0, 1): the values come from [torch.rand],
    and the zeros that pad a list feature lie in the interval too. *)
Theorem continuous_feature_in_unit_interval {RS} {R : RandomSource RS}
    {L : RandomSourceLaws RS}
    (schema : Schema) (num_rows : Z) (maxsl : option Z) (minsl : Z)
    (dev : option device) (s s' : RS) (out : Dict.t pyval) (f : Feature) :
  NoDup (map name (feature schema)) ->
  In f (feature schema) ->
  int_domain f = None ->
  1 <= num_rows ->
  random_data_from_schema schema num_rows maxsl minsl dev s = Ok (out, s') ->
  exists o,
    Dict.get out (name f) = Some o /\
    Forall unit_elem (elements o).
Proof.
  intros Hnd Hf Hint HN Hrun.
  assert (Hel : forall k v, feat_inv f num_rows maxsl minsl (S k) (Some v) ->
                            Forall unit_elem (elements v)).
  { intros k v Hinv. apply feat_inv_elements in Hinv.
    eapply Forall_impl; [|exact Hinv]. unfold elem_ok. now rewrite Hint. }
  destruct (value_count f) as [vc|] eqn:Hvc.
  - destruct (list_feature_output schema num_rows maxsl minsl dev s s' out f vc
                Hnd Hf Hvc HN Hrun)
      as (data & vals & lens & Hgen & Hv & Hinv & Hb & Hout).
    destruct (generate_spec num_rows maxsl minsl dev schema Hnd s data s' Hgen)
      as (Hall & _ & _).
    specialize (Hall f Hf). rewrite Hv in Hall.
    destruct (Z.to_nat num_rows) as [|k] eqn:E; [lia|].
    apply Hel in Hall. cbn [elements] in Hall.
    eexists. split; [exact Hout|]. cbn [elements padded t_data].
    eapply Forall_impl; [|apply pad_rows_elements; exact Hall].
    intros q [Hq| ->]; [exact Hq | exact unit_elem_zero].
  - destruct (plain_feature_output schema num_rows maxsl minsl dev s s' out f
                Hnd Hf Hvc HN Hrun)
      as (data & v & Hgen & Hv & Hinv & Hout).
    destruct (Z.to_nat num_rows) as [|k] eqn:E; [lia|].
    exists v. split; [exact Hout | eapply Hel; exact Hinv].
Qed.

Lemma continuous_feature_in_unit_interval_witness :
  exists o,
    Dict.get (output_of Runs.mixed_3_bounded) "dwell_times" = Some o /\
    Forall unit_elem (elements o).
Proof.
  apply (continuous_feature_in_unit_interval (L := Lcg_laws) Examples.mixed 3 (Some 4) 1
           None 7 (state_of 7 Runs.mixed_3_bounded) (output_of Runs.mixed_3_bounded)
           Examples.dwell_times).
  - distinct_names.
  - simpl. auto.
  - reflexivity.
  - lia.
  - vm_compute. reflexivity.
Defined.

(** ** Session lengths *)

Section SessionLengths.

Context {RS : Type} {R : RandomSource RS} {L : RandomSourceLaws RS}.

Variables (num_rows : Z) (maxsl : option Z) (minsl : Z) (dev : option device).

Lemma feature_step_lens sl i data f s data' s' sls :
  lens_inv f sls (Dict.get data (name f)) ->
  feature_step num_rows sl dev i data f s = Ok (data', s') ->
  exists v, data' = Dict.set data (name f) v /\ lens_inv f (sls ++ [sl]) (Some v).
Proof.
  intros Hinv H. unfold feature_step in H.
  apply bindM_ok in H. destruct H as (e & s1 & He & H).
  apply lift_ok in He. destruct He as [He ->].
  apply bindM_ok in H. destruct H as (row & s2 & Hrow & H).
  apply draw_row_ok in Hrow. destruct Hrow as (Hshape & _).
  apply bindM_ok in H. destruct H as (v & s3 & Hv & H).
  apply lift_ok in Hv. destruct Hv as [Hv ->].
  apply ret_ok in H. destruct H as [-> _].
  exists v. split; [reflexivity|]. intros vc Hvc.
  specialize (Hinv vc Hvc).
  unfold accumulate, is_list_feature, len in Hv. unfold row_dims in Hshape.
  rewrite Hvc in Hv, Hshape. rewrite Hshape in Hv. cbn [bindR] in Hv.
  destruct sls as [|sl0 sls].
  - rewrite Hinv in Hv. inversion Hv; subst v. cbn [app]. eauto.
  - destruct Hinv as (vals & Hold). rewrite Hold in Hv.
    apply bindR_ok in Hv. destruct Hv as (values' & _ & Hv). inversion Hv; subst v.
    cbn [app]. exists values'. unfold lengths_of.
    change (sl0 :: sls ++ [sl]) with ((sl0 :: sls) ++ [sl]).
    now rewrite map_app.
Qed.

Lemma features_loop_lens sl i sls fs : forall data s data' s',
  NoDup (map name fs) ->
  (forall f, In f fs -> lens_inv f sls (Dict.get data (name f))) ->
  foldM (feature_step num_rows sl dev i) data fs s = Ok (data', s') ->
  (forall f, In f fs -> lens_inv f (sls ++ [sl]) (Dict.get data' (name f))) /\
  (forall key, ~ In key (map name fs) -> Dict.get data' key = Dict.get data key).
Proof.
  induction fs as [|f fs IH]; intros data s data' s' Hnd Hinv H.
  - apply ret_ok in H. destruct H as [-> _]. split; [intros f []| reflexivity].
  - cbn [foldM] in H. apply bindM_ok in H. destruct H as (data1 & s1 & Hstep & H).
    cbn [map] in Hnd. inversion Hnd as [|? ? Hnotin Hnd']; subst.
    apply (feature_step_lens _ _ _ _ _ _ _ sls) in Hstep; [|apply Hinv; now left].
    destruct Hstep as (v & -> & Hv).
    apply IH in H; try assumption.
    + destruct H as [Hfs Hother]. split.
      * intros f' [<-|Hin].
        -- rewrite Hother by assumption. now rewrite DictFacts.get_set_same.
        -- now apply Hfs.
      * intros key Hkey. cbn [map] in Hkey.
        rewrite Hother by (intros Hin; apply Hkey; now right).
        apply DictFacts.get_set_other. intros ->. apply Hkey. now left.
    + intros f' Hin. rewrite DictFacts.get_set_other; [apply Hinv; now right|].
      intros Heq. apply Hnotin. rewrite <- Heq. now apply in_map.
Qed.

Variable schema : Schema.
Hypothesis Hnames : NoDup (map name (feature schema)).

Lemma rows_loop_lens n : forall i data s data' s' sls,
  (forall f, In f (feature schema) -> lens_inv f sls (Dict.get data (name f))) ->
  foldM (row_step schema num_rows maxsl minsl dev) data (zseq i n) s = Ok (data', s') ->
  exists sls',
    length sls' = n /\
    Forall (session_ok maxsl minsl) sls' /\
    forall f, In f (feature schema) ->
      lens_inv f (sls ++ sls') (Dict.get data' (name f)).
Proof.
  induction n as [|n IH]; intros i data s data' s' sls Hinv H.
  - apply ret_ok in H. destruct H as [-> _]. exists []. rewrite app_nil_r. auto.
  - cbn [zseq foldM] in H. apply bindM_ok in H. destruct H as (data1 & s1 & Hrow & H).
    unfold row_step in Hrow. apply bindM_ok in Hrow.
    destruct Hrow as (sl & s2 & Hsl & Hrow).
    apply draw_session_length_ok in Hsl.
    apply (features_loop_lens _ _ sls) in Hrow; try assumption.
    destruct Hrow as [Hinv1 _].
    destruct (IH _ _ _ _ _ _ Hinv1 H) as (sls' & Hlen & Hok & Hfinal).
    exists (sl :: sls'). split; [simpl; now rewrite Hlen|].
    split; [now constructor|].
    intros f Hf. specialize (Hfinal f Hf). now rewrite <- app_assoc in Hfinal.
Qed.

(** The lengths recorded for the list features all come from one list of
    session lengths, one per row. *)
Lemma generate_lengths s data s' :
  generate schema num_rows maxsl minsl dev s = Ok (data, s') ->
  exists sls,
    length sls = Z.to_nat num_rows /\
    Forall (session_ok maxsl minsl) sls /\
    forall f, In f (feature schema) -> lens_inv f sls (Dict.get data (name f)).
Proof.
  unfold generate, range. intros H.
  apply (rows_loop_lens _ _ _ _ _ _ []) in H; [exact H|].
  intros f _ vc _. reflexivity.
Qed.

End SessionLengths.

(** X9: when a session length is in force and [min_session_length >= 1],
    each row has one length, between [min_session_length] and
    [max_session_length], and every list feature of the schema records
    exactly that list of lengths, whatever its own declared maximum value
    count. *)
Theorem session_length_shared_by_list_features {RS} {R : RandomSource RS}
    {L : RandomSourceLaws RS}
    (schema : Schema) (num_rows m minsl : Z) (dev : option device)
    (s s' : RS) (data : Dict.t pyval) :
  NoDup (map name (feature schema)) ->
  m <> 0 ->
  1 <= minsl ->
  1 <= num_rows ->
  generate schema num_rows (Some m) minsl dev s = Ok (data, s') ->
  exists lens,
    length lens = Z.to_nat num_rows /\
    Forall (fun l => minsl <= l <= m) lens /\
    forall f vc, In f (feature schema) -> value_count f = Some vc ->
      exists vals, Dict.get data (name f) = Some (VTuple vals lens).
Proof.
  intros Hnd Hm Hmin HN Hgen.
  destruct (generate_lengths num_rows (Some m) minsl dev schema Hnd s data s' Hgen)
    as (sls & Hlen & Hok & Hinv).
  assert (Hsl : Forall (fun sl => exists v, sl = Some v /\ minsl <= v <= m) sls).
  { eapply Forall_impl; [|exact Hok]. intros sl H. unfold session_ok in H.
    apply Z.eqb_neq in Hm. now rewrite Hm in H. }
  exists (map (fun sl => py_or sl 0) sls).
  split; [now rewrite length_map|]. split.
  - apply Forall_map. eapply Forall_impl; [|exact Hsl].
    intros sl (v & -> & Hv). cbn [py_or].
    replace (v =? 0) with false by (symmetry; apply Z.eqb_neq; lia). exact Hv.
  - intros f vc Hf Hvc. specialize (Hinv f Hf vc Hvc).
    destruct sls as [|sl0 sls]; [simpl in Hlen; lia|].
    destruct Hinv as (vals & Hget). exists vals. rewrite Hget. do 2 f_equal.
    unfold lengths_of. apply map_ext_in. intros sl Hin.
    rewrite Forall_forall in Hsl. destruct (Hsl sl Hin) as (v & -> & Hv).
    cbn [py_or]. now replace (v =? 0) with false by (symmetry; apply Z.eqb_neq; lia).
Qed.

Lemma session_length_shared_by_list_features_witness :
  exists lens,
    length lens = Z.to_nat 3 /\
    Forall (fun l => 2 <= l <= 4) lens /\
    forall f vc, In f (feature MoreExamples.sessions) -> value_count f = Some vc ->
      exists vals,
        Dict.get (output_of MoreExamples.sessions_3) (name f) = Some (VTuple vals lens).
Proof.
  apply (session_length_shared_by_list_features (L := Lcg_laws) MoreExamples.sessions
           3 4 2 None 7 (state_of 7 MoreExamples.sessions_3)).
  - distinct_names.
  - lia.
  - lia.
  - lia.
  - vm_compute. reflexivity.
Defined.

(** X10: whenever no session length of 0 can be drawn
    ([min_session_length >= 1] if a session length is in force), the
    (values, lengths) pair accumulated for a list feature always fits the
    dense step: every coordinate computed for it has its row below the
    number of rows and its column below the padded width, and
    [_get_sparse_tensor] returns the padded tensor instead of failing. *)
Theorem list_rows_fit_width {RS} {R : RandomSource RS} {L : RandomSourceLaws RS}
    (schema : Schema) (num_rows : Z) (maxsl : option Z) (minsl : Z)
    (dev : option device) (s s' : RS) (data : Dict.t pyval) (f : Feature) (vc : Z)
    (vals : tensor) (lens : list Z) :
  NoDup (map name (feature schema)) ->
  In f (feature schema) ->
  value_count f = Some vc ->
  (truthy maxsl = true -> 1 <= minsl) ->
  generate schema num_rows maxsl minsl dev s = Ok (data, s') ->
  Dict.get data (name f) = Some (VTuple vals lens) ->
  exists values indices,
    sparse_args maxsl vals lens = Ok (values, indices, num_rows, py_or maxsl vc) /\
    Forall (fun ix => 0 <= fst ix < num_rows /\ 0 <= snd ix < py_or maxsl vc) indices /\
    _get_sparse_tensor values indices num_rows (py_or maxsl vc)
    = Ok (padded (py_or maxsl vc) vals lens).
Proof.
  intros Hnd Hf Hvc Hmin Hgen Hv.
  destruct (generate_spec num_rows maxsl minsl dev schema Hnd s data s' Hgen)
    as (Hinv & _ & _).
  specialize (Hinv f Hf). rewrite Hv in Hinv.
  destruct (Z.to_nat num_rows) as [|k] eqn:E; [discriminate Hinv|].
  apply (feat_inv_list _ _ _ _ vc) in Hinv; [|assumption].
  destruct (list_inv_lengths _ _ _ _ _ _ _ Hinv) as (Hne & Hpos & Hdata & HW).
  destruct Hinv as (vals' & lens' & Heq & Hk & Hlens & _).
  inversion Heq; subst vals' lens'.
  assert (Hb : Forall (fun l => 0 <= l <= py_or maxsl vc) lens).
  { eapply Forall_impl; [|exact Hlens]. intros l Hl.
    now apply (len_ok_bounded maxsl minsl). }
  assert (Hrows : Z.of_nat (length lens) = num_rows) by lia.
  assert (HW0 : 0 <= py_or maxsl vc).
  { destruct lens as [|l0 ls]; [congruence|]. inversion Hb; subst. lia. }
  exists (flatten vals), (coords 0 lens).
  rewrite sparse_args_lengths by assumption. rewrite HW, Hrows.
  split; [reflexivity|]. split.
  - pose proof (coords_in_bounds (py_or maxsl vc) num_rows lens 0 Hb
                  ltac:(lia) ltac:(lia)) as Hin.
    rewrite forallb_forall in Hin. apply Forall_forall. intros ix Hix.
    apply Hin in Hix. unfold in_bounds in Hix.
    repeat (apply andb_prop in Hix; destruct Hix as [Hix ?]).
    repeat match goal with
           | H : (_ <=? _) = true |- _ => apply Z.leb_le in H
           | H : (_ <? _) = true |- _ => apply Z.ltb_lt in H
           end.
    lia.
  - rewrite <- Hrows. now apply get_sparse_tensor_coords.
Qed.

Lemma list_rows_fit_width_witness :
  exists values indices,
    sparse_args (Some 4) (tuple_values MoreExamples.sessions_3_item_id)
                (tuple_lengths MoreExamples.sessions_3_item_id)
    = Ok (values, indices, 3, py_or (Some 4) 3) /\
    Forall (fun ix => 0 <= fst ix < 3 /\ 0 <= snd ix < py_or (Some 4) 3) indices /\
    _get_sparse_tensor values indices 3 (py_or (Some 4) 3)
    = Ok (padded (py_or (Some 4) 3) (tuple_values MoreExamples.sessions_3_item_id)
                 (tuple_lengths MoreExamples.sessions_3_item_id)).
Proof.
  apply (list_rows_fit_width (L := Lcg_laws) MoreExamples.sessions 3 (Some 4) 2 None 7
           (state_of 7 MoreExamples.sessions_3) (output_of MoreExamples.sessions_3)
           Examples.item_id 3).
  - distinct_names.
  - simpl. auto.
  - reflexivity.
  - intros _. lia.
  - vm_compute. reflexivity.
  - vm_compute. reflexivity.
Defined.

(** * Further properties of the ragged-to-dense helpers *)

Lemma zseq_in a n x : a <= x < a + Z.of_nat n -> In x (zseq a n).
Proof.
  revert a. induction n as [|n IH]; intros a H; [lia|].
  cbn [zseq]. destruct (Z.eq_dec x a) as [->|Hne]; [now left|].
  right. apply IH. lia.
Qed.

Lemma zseq_nodup a n : NoDup (zseq a n).
Proof.
  revert a. induction n as [|n IH]; intros a; cbn [zseq]; constructor.
  - intros H. apply zseq_bounds in H. lia.
  - apply IH.
Qed.

Lemma nodup_map_pair (r : Z) (cs : list Z) : NoDup cs -> NoDup (map (pair r) cs).
Proof.
  induction 1 as [|c cs Hc Hcs IH]; cbn [map]; constructor; [|exact IH].
  intros H. apply in_map_iff in H. destruct H as (c' & Heq & Hin).
  inversion Heq; subst. contradiction.
Qed.

Lemma coords_nodup lens : forall r, NoDup (coords r lens).
Proof.
  induction lens as [|l ls IH]; intros r; cbn [coords]; [constructor|].
  apply NoDup_app.
  - apply nodup_map_pair, zseq_nodup.
  - apply IH.
  - intros ix H1 H2. apply in_map_iff in H1. destruct H1 as (c & <- & _).
    apply coords_rows in H2. cbn [fst] in H2. lia.
Qed.

Lemma coords_in_iff lens : forall r0 r c,
  In (r, c) (coords r0 lens) <->
  exists k, (k < length lens)%nat /\ r = r0 + Z.of_nat k /\ 0 <= c < nth k lens 0.
Proof.
  induction lens as [|l ls IH]; intros r0 r c; cbn [coords].
  - split; [intros [] | intros (k & Hk & _); simpl in Hk; lia].
  - rewrite in_app_iff, IH. split.
    + intros [H | (k & Hk & Hr & Hc)].
      * apply in_map_iff in H. destruct H as (c' & Heq & Hin).
        inversion Heq; subst. apply zseq_bounds in Hin.
        exists 0%nat. cbn [length nth]. repeat split; lia.
      * exists (S k). cbn [length nth]. repeat split; lia.
    + intros (k & Hk & Hr & Hc). destruct k as [|k]; cbn [nth length] in *.
      * left. replace r with r0 by lia. apply in_map. apply zseq_in. lia.
      * right. exists k. repeat split; lia.
Qed.

(** X11: the offsets of lines 89-91 and the lengths of
    [_pull_values_offsets] undo each other: from the offsets built out of the
    recorded lengths, with as many values as the lengths add up to, the
    helper recomputes exactly those lengths, counts one row per length, keeps
    the values, and its extended offsets start at 0 and end at the number of
    values. *)
Theorem lengths_round_trip (v : tensor) (lens : list Z) :
  lens <> [] ->
  Z.of_nat (length (t_data v)) = zsum lens ->
  let '(values, offsets, diff_offsets, num_rows) :=
    _pull_values_offsets (VOTuple v (offsets_of_lengths lens)) in
  diff_offsets = lens /\
  num_rows = Z.of_nat (length lens) /\
  t_data values = t_data v /\
  hd 0 offsets = 0 /\
  last offsets 0 = Z.of_nat (length (t_data v)).
Proof.
  intros Hne Hlen. rewrite pull_values_offsets_lengths by assumption.
  repeat split.
  - now destruct lens.
  - rewrite <- offsets_extended by assumption. now rewrite last_last.
Qed.

Lemma lengths_round_trip_witness :
  let '(values, offsets, diff_offsets, num_rows) :=
    _pull_values_offsets
      (VOTuple MoreExamples.ragged_values (offsets_of_lengths [1; 0; 3])) in
  diff_offsets = [1; 0; 3] /\
  num_rows = Z.of_nat (length [1; 0; 3]) /\
  t_data values = t_data MoreExamples.ragged_values /\
  hd 0 offsets = 0 /\
  last offsets 0 = Z.of_nat (length (t_data MoreExamples.ragged_values)).
Proof.
  apply (lengths_round_trip MoreExamples.ragged_values [1; 0; 3]).
  - discriminate.
  - reflexivity.
Defined.

(** X12: for row lengths that are not negative, [_get_indices] returns one
    coordinate per value and no coordinate twice, and the coordinates are
    exactly the pairs (r, c) with r a row and c below the length of row r:
    the dense step never has two values to add in one cell. *)
Theorem indices_distinct_and_complete (v : tensor) (lens : list Z) :
  lens <> [] ->
  Forall (fun l => 0 <= l) lens ->
  length (t_data v) = Z.to_nat (zsum lens) ->
  let '(values, offsets, diff_offsets, num_rows) :=
    _pull_values_offsets (VOTuple v (offsets_of_lengths lens)) in
  exists indices,
    _get_indices offsets diff_offsets = Ok indices /\
    length indices = length (t_data values) /\
    NoDup indices /\
    forall r c,
      In (r, c) indices <->
      exists k, (k < length lens)%nat /\ r = Z.of_nat k /\ 0 <= c < nth k lens 0.
Proof.
  intros Hne Hpos Hlen. pose proof (zsum_nonneg lens Hpos) as Hs.
  rewrite pull_values_offsets_lengths by (assumption || lia).
  exists (coords 0 lens). split; [now apply get_indices_psums|].
  split; [cbn [flatten t_data]; now rewrite coords_length, Hlen|].
  split; [apply coords_nodup|].
  intros r c. rewrite coords_in_iff. now setoid_rewrite Z.add_0_l.
Qed.

Lemma indices_distinct_and_complete_witness :
  let '(values, offsets, diff_offsets, num_rows) :=
    _pull_values_offsets
      (VOTuple MoreExamples.ragged_values (offsets_of_lengths [1; 0; 3])) in
  exists indices,
    _get_indices offsets diff_offsets = Ok indices /\
    length indices = length (t_data values) /\
    NoDup indices /\
    forall r c,
      In (r, c) indices <->
      exists k, (k < length [1; 0; 3])%nat /\ r = Z.of_nat k /\
                0 <= c < nth k [1; 0; 3] 0.
Proof.
  apply (indices_distinct_and_complete MoreExamples.ragged_values [1; 0; 3]).
  - discriminate.
  - repeat constructor; lia.
  - reflexivity.
Defined.

(** X13: the three helpers in a row turn values with row lengths between 0
    and a width [W] into the dense tensor of shape (rows, [W]) with
    rows * [W] elements, in which cell (r, c) is the [c]-th value of row r
    when c is below the length of that row, and zero otherwise. *)
Theorem ragged_to_dense (v : tensor) (lens : list Z) (W : Z) :
  lens <> [] ->
  Forall (fun l => 0 <= l <= W) lens ->
  length (t_data v) = Z.to_nat (zsum lens) ->
  exists t,
    (let '(values, offsets, diff_offsets, num_rows) :=
       _pull_values_offsets (VOTuple v (offsets_of_lengths lens)) in
     indices <- _get_indices offsets diff_offsets ;;
     _get_sparse_tensor values indices num_rows W) = Ok t /\
    t_shape t = [Z.of_nat (length lens); W] /\
    length (t_data t) = (length lens * Z.to_nat W)%nat /\
    forall r c, (r < length lens)%nat -> 0 <= c < W ->
      nth (r * Z.to_nat W + Z.to_nat c) (t_data t) 0%Q
      = if c <? nth r lens 0
        then nth (Z.to_nat (zsum (firstn r lens) + c)) (t_data v) 0%Q
        else 0%Q.
Proof.
  intros Hne Hb Hlen.
  assert (Hpos : Forall (fun l => 0 <= l) lens)
    by (eapply Forall_impl; [|exact Hb]; simpl; intros; lia).
  pose proof (zsum_nonneg lens Hpos) as Hs.
  assert (HW : 0 <= W).
  { destruct lens as [|l0 ls]; [congruence|]. inversion Hb; subst. lia. }
  exists (padded W v lens).
  rewrite pull_values_offsets_lengths by (assumption || lia).
  rewrite get_indices_psums by assumption. cbn [bindR].
  split; [now apply get_sparse_tensor_coords|].
  split; [reflexivity|]. cbn [padded t_data].
  split; [now apply pad_rows_length|].
  intros r c Hr Hc. now apply pad_rows_cell.
Qed.

Lemma ragged_to_dense_witness :
  exists t,
    (let '(values, offsets, diff_offsets, num_rows) :=
       _pull_values_offsets
         (VOTuple MoreExamples.ragged_values (offsets_of_lengths [1; 0; 3])) in
     indices <- _get_indices offsets diff_offsets ;;
     _get_sparse_tensor values indices num_rows 3) = Ok t /\
    t_shape t = [Z.of_nat (length [1; 0; 3]); 3] /\
    length (t_data t) = (length [1; 0; 3] * Z.to_nat 3)%nat /\
    forall r c, (r < length [1; 0; 3])%nat -> 0 <= c < 3 ->
      nth (r * Z.to_nat 3 + Z.to_nat c) (t_data t) 0%Q
      = if c <? nth r [1; 0; 3] 0
        then nth (Z.to_nat (zsum (firstn r [1; 0; 3]) + c))
                 (t_data MoreExamples.ragged_values) 0%Q
        else 0%Q.
Proof.
  apply (ragged_to_dense MoreExamples.ragged_values [1; 0; 3] 3).
  - discriminate.
  - repeat constructor; lia.
  - reflexivity.
Defined.

Lemma psums_ones a n : psums a (repeat 1 n) = zseq a (S n).
Proof.
  revert a. induction n as [|n IH]; intros a; [reflexivity|].
  cbn [repeat psums]. rewrite IH. reflexivity.
Qed.

Lemma zsum_firstn_ones r n : (r <= n)%nat -> zsum (firstn r (repeat 1 n)) = Z.of_nat r.
Proof.
  revert n. induction r as [|r IH]; intros n Hr; [reflexivity|].
  destruct n as [|n]; [lia|]. cbn [repeat firstn zsum fold_right].
  fold (zsum (firstn r (repeat 1 n))). rewrite IH by lia. lia.
Qed.

Lemma pull_values_offsets_dense (v : tensor) :
  _pull_values_offsets (VODense v)
  = (flatten v, psums 0 (repeat 1 (length (t_data v))),
     repeat 1 (length (t_data v)), Z.of_nat (length (t_data v))).
Proof.
  unfold _pull_values_offsets, range. cbn [flatten t_data].
  rewrite Nat2Z.id, zseq_length.
  assert (Hext : zseq 0 (length (t_data v)) ++ [Z.of_nat (length (t_data v))]
                 = psums 0 (repeat 1 (length (t_data v)))).
  { rewrite psums_ones.
    replace (S (length (t_data v))) with (length (t_data v) + 1)%nat by lia.
    now rewrite zseq_app. }
  rewrite Hext, diff_psums. reflexivity.
Qed.

(** X14: given a dense tensor without offsets, [_pull_values_offsets] takes
    every value for a row of its own, and the three helpers in a row with a
    width [W >= 1] put value r in column 0 of row r and zero in every other
    column. *)
Theorem dense_values_to_first_column (v : tensor) (W : Z) :
  1 <= W ->
  exists t,
    (let '(values, offsets, diff_offsets, num_rows) :=
       _pull_values_offsets (VODense v) in
     indices <- _get_indices offsets diff_offsets ;;
     _get_sparse_tensor values indices num_rows W) = Ok t /\
    t_shape t = [Z.of_nat (length (t_data v)); W] /\
    forall r c, (r < length (t_data v))%nat -> 0 <= c < W ->
      nth (r * Z.to_nat W + Z.to_nat c) (t_data t) 0%Q
      = if c =? 0 then nth r (t_data v) 0%Q else 0%Q.
Proof.
  intros HW. set (n := length (t_data v)).
  assert (Hb : Forall (fun l => 0 <= l <= W) (repeat 1 n)).
  { apply Forall_forall. intros l Hl. apply repeat_spec in Hl. lia. }
  assert (Hpos : Forall (fun l => 0 <= l) (repeat 1 n))
    by (eapply Forall_impl; [|exact Hb]; simpl; intros; lia).
  assert (Hlen : length (t_data v) = Z.to_nat (zsum (repeat 1 n)))
    by (rewrite zsum_repeat; subst n; lia).
  exists (padded W v (repeat 1 n)).
  rewrite pull_values_offsets_dense. fold n.
  rewrite get_indices_psums by assumption. cbn [bindR].
  replace (Z.of_nat n) with (Z.of_nat (length (repeat 1 n)))
    by (now rewrite repeat_length).
  split; [apply get_sparse_tensor_coords; assumption || lia|].
  split; [reflexivity|].
  intros r c Hr Hc. cbn [padded t_data].
  rewrite pad_rows_cell; try assumption; [| now rewrite repeat_length].
  rewrite nth_repeat_lt by assumption.
  rewrite zsum_firstn_ones by lia.
  destruct (c =? 0) eqn:E.
  - apply Z.eqb_eq in E. subst c. cbn. now rewrite Z.add_0_r, Nat2Z.id.
  - apply Z.eqb_neq in E.
    now replace (c <? 1) with false by (symmetry; apply Z.ltb_ge; lia).
Qed.

Lemma dense_values_to_first_column_witness :
  exists t,
    (let '(values, offsets, diff_offsets, num_rows) :=
       _pull_values_offsets (VODense MoreExamples.dense_values) in
     indices <- _get_indices offsets diff_offsets ;;
     _get_sparse_tensor values indices num_rows 2) = Ok t /\
    t_shape t = [Z.of_nat (length (t_data MoreExamples.dense_values)); 2] /\
    forall r c, (r < length (t_data MoreExamples.dense_values))%nat -> 0 <= c < 2 ->
      nth (r * Z.to_nat 2 + Z.to_nat c) (t_data t) 0%Q
      = if c =? 0 then nth r (t_data MoreExamples.dense_values) 0%Q else 0%Q.
Proof.
  apply (dense_values_to_first_column MoreExamples.dense_values 2). lia.
Defined.

(** * Further properties of the schema augmentation *)

(** ** Arguments that are not lists *)

(** X15: line 143 concatenates [conts + cats + labels] before anything
    else, so a call in which [cats] or [conts] or [labels] is left at its
    default [None], or in which [labels] is a single string, ends with
    [TypeError] whatever the schema: the conversion of a string label at
    line 145 is never reached by a call that gets that far. *)
Theorem augment_schema_needs_lists {T : Merlin.Tagging}
    (schema : Merlin.Schema) (cats conts : option (list string))
    (labels : option labels_arg) (sparse_names : option (list string))
    (sparse_max : option (Dict.t Z)) (sparse_as_dense : bool) :
  cats = None \/ conts = None \/ labels = None \/
    (exists label, labels = Some (LabelStr label)) ->
  _augment_schema schema cats conts labels sparse_names sparse_max sparse_as_dense
  = Raise TypeError.
Proof.
  intros H. unfold _augment_schema.
  assert (E : concat_names conts cats labels = Raise TypeError).
  { unfold concat_names.
    destruct H as [-> | [-> | [-> | (label & ->)]]];
      repeat match goal with
             | |- context [match ?x with _ => _ end] => destruct x
             end; reflexivity. }
  now rewrite E.
Qed.

Lemma augment_schema_needs_lists_witness :
  _augment_schema (T := Merlin.union_tags) Examples.table
                  (Some ["a"%string]) (Some ["b"%string])
                  (Some (LabelStr "c"%string)) None None false
  = Raise TypeError.
Proof.
  apply (augment_schema_needs_lists (T := Merlin.union_tags) Examples.table
           (Some ["a"%string]) (Some ["b"%string]) (Some (LabelStr "c"%string))
           None None false).
  right. right. right. exists "c"%string. reflexivity.
Defined.

(** ** The stages of a call that returned *)

Lemma augment_schema_returned {T : Merlin.Tagging}
    (schema : Merlin.Schema) (cats conts labels : list string)
    (sparse_names : option (list string)) (sparse_max : option (Dict.t Z))
    (sparse_as_dense : bool) (result : Merlin.Schema) :
  _augment_schema schema (Some cats) (Some conts) (Some (LabelList labels))
                  sparse_names sparse_max sparse_as_dense = Ok result ->
  exists sel s1 s2 s3,
    Merlin.select_loop schema ((conts ++ cats) ++ labels) [] = Ok sel /\
    tag_loop Merlin.TARGET labels sel = Ok s1 /\
    tag_loop Merlin.CATEGORICAL cats s1 = Ok s2 /\
    tag_loop Merlin.CONTINUOUS conts s2 = Ok s3 /\
    sparse_loop sparse_max sparse_as_dense (or_empty sparse_names) s3 = Ok result.
Proof.
  unfold _augment_schema. cbn [concat_names bindR or_empty]. intros H.
  apply bindR_ok in H. destruct H as (sel & Hsel & H).
  apply bindR_ok in H. destruct H as (s1 & H1 & H).
  apply bindR_ok in H. destruct H as (s2 & H2 & H).
  apply bindR_ok in H. destruct H as (s3 & H3 & H).
  exists sel, s1, s2, s3. auto.
Qed.

(** ** Sparse names outside the selection *)

Lemma sparse_loop_missing sparse_max dense cols : forall schema n,
  In n cols -> ~ In n (Dict.keys schema) ->
  sparse_loop sparse_max dense cols schema = Raise KeyError.
Proof.
  induction cols as [|col rest IH]; intros schema n Hin Hmiss; [destruct Hin|].
  cbn [sparse_loop].
  destruct (sparse_step sparse_max dense schema col) as [schema1|e] eqn:E.
  - cbn [bindR]. pose proof (sparse_step_spec _ _ _ _ _ E) as (Hkeys & _).
    destruct Hin as [->|Hin].
    + unfold sparse_step in E. rewrite (getitem_absent _ _ Hmiss) in E. discriminate.
    + apply (IH _ n Hin). now rewrite Hkeys.
  - cbn [bindR]. unfold sparse_step, Merlin.getitem in E.
    destruct (Dict.get schema col); cbn [bindR] in E; congruence.
Qed.

(** X16: the columns of [sparse_names] are looked up in the selected
    schema, not in the schema passed in: when the names of [cats], [conts]
    and [labels] are all columns, a sparse name that is not one of them ends
    the call with [KeyError], also when it is a column of the schema passed
    in. *)
Theorem sparse_name_outside_selection {T : Merlin.Tagging}
    (schema : Merlin.Schema) (cats conts labels sparse_names : list string)
    (sparse_max : option (Dict.t Z)) (sparse_as_dense : bool) (c : string) :
  (forall n, In n (conts ++ cats ++ labels) -> In n (Dict.keys schema)) ->
  In c sparse_names ->
  ~ In c (conts ++ cats ++ labels) ->
  _augment_schema schema (Some cats) (Some conts) (Some (LabelList labels))
                  (Some sparse_names) sparse_max sparse_as_dense = Raise KeyError.
Proof.
  intros Hnames Hc Hout.
  destruct (augment_schema_stages schema cats conts labels None sparse_max
              sparse_as_dense Hnames)
    as (sel & s1 & s2 & s3 & result & Hsel & H1 & H2 & H3 & H4 & _ & Hkeys).
  { intros x []. }
  cbn [or_empty sparse_loop] in H4. inversion H4; subst result.
  unfold _augment_schema. cbn [concat_names bindR or_empty].
  rewrite Hsel. cbn [bindR]. rewrite H1. cbn [bindR]. rewrite H2. cbn [bindR].
  rewrite H3. cbn [bindR].
  apply (sparse_loop_missing _ _ _ _ c Hc). now rewrite Hkeys.
Qed.

Lemma sparse_name_outside_selection_witness :
  _augment_schema (T := Merlin.union_tags) Examples.table
                  (Some ["a"%string]) (Some ["b"%string])
                  (Some (LabelList ["c"%string])) (Some ["a"%string; "d"%string])
                  None false
  = Raise KeyError.
Proof.
  apply (sparse_name_outside_selection (T := Merlin.union_tags) Examples.table
           ["a"%string] ["b"%string] ["c"%string] ["a"%string; "d"%string] None false
           "d"%string).
  - simpl. intuition.
  - simpl. auto.
  - simpl. intros [H|[H|[H|[]]]]; discriminate.
Defined.

(** ** The order of the columns *)

Lemma select_loop_order schema names : forall selected sel,
  Merlin.select_loop schema names selected = Ok sel ->
  Dict.keys sel = Dict.keys selected ++ first_occurrences (Dict.keys selected) names.
Proof.
  induction names as [|key rest IH]; intros selected sel H.
  - inversion H; subst. cbn [first_occurrences]. now rewrite app_nil_r.
  - cbn [Merlin.select_loop] in H. apply bindR_ok in H. destruct H as (cs & _ & H).
    rewrite (IH _ _ H). cbn [first_occurrences].
    destruct (in_dec string_dec key (Dict.keys selected)) as [Hin|Hnin].
    + now rewrite DictFacts.keys_set_present.
    + rewrite DictFacts.keys_set_absent by assumption.
      now rewrite <- app_assoc.
Qed.

Lemma first_occurrences_nodup names : forall seen,
  NoDup names -> (forall n, In n names -> ~ In n seen) ->
  first_occurrences seen names = names.
Proof.
  induction names as [|n rest IH]; intros seen Hnd Hseen; [reflexivity|].
  inversion Hnd as [|? ? Hn Hrest]; subst. cbn [first_occurrences].
  destruct (in_dec string_dec n seen) as [Hin|_].
  - exfalso. apply (Hseen n); [now left | assumption].
  - f_equal. apply IH; [assumption|].
    intros k Hk Hin. apply in_app_or in Hin. destruct Hin as [Hin|[<-|[]]].
    + apply (Hseen k); [now right | assumption].
    + contradiction.
Qed.

(** X17: whenever a call returns, the columns of the result are the names
    of [conts], then [cats], then [labels], each once, at its first
    occurrence: the tagging loops and the sparse loop add no column and move
    none.  When no name is repeated the columns are [conts + cats + labels]
    itself. *)
Theorem augment_schema_column_order {T : Merlin.Tagging}
    (schema : Merlin.Schema) (cats conts labels : list string)
    (sparse_names : option (list string)) (sparse_max : option (Dict.t Z))
    (sparse_as_dense : bool) (result : Merlin.Schema) :
  _augment_schema schema (Some cats) (Some conts) (Some (LabelList labels))
                  sparse_names sparse_max sparse_as_dense = Ok result ->
  Dict.keys result = first_occurrences [] ((conts ++ cats) ++ labels) /\
  (NoDup ((conts ++ cats) ++ labels) ->
   Dict.keys result = (conts ++ cats) ++ labels).
Proof.
  intros Hrun.
  destruct (augment_schema_returned _ _ _ _ _ _ _ _ Hrun)
    as (sel & s1 & s2 & s3 & Hsel & H1 & H2 & H3 & H4).
  assert (Hkeys : Dict.keys result = first_occurrences [] ((conts ++ cats) ++ labels)).
  { destruct (sparse_loop_spec _ _ _ _ _ H4) as (-> & _).
    rewrite (tag_loop_keys _ _ _ _ H3), (tag_loop_keys _ _ _ _ H2),
      (tag_loop_keys _ _ _ _ H1).
    apply (select_loop_order _ _ _ _ Hsel). }
  split; [exact Hkeys|]. intros Hnd. rewrite Hkeys.
  apply first_occurrences_nodup; [assumption | intros n _ []].
Qed.

Lemma augment_schema_column_order_witness :
  Dict.keys (schema_of MoreExamples.described_run)
  = first_occurrences []
      ((["b"%string] ++ ["a"%string]) ++ ["c"%string; "a"%string]) /\
  (NoDup ((["b"%string] ++ ["a"%string]) ++ ["c"%string; "a"%string]) ->
   Dict.keys (schema_of MoreExamples.described_run)
   = (["b"%string] ++ ["a"%string]) ++ ["c"%string; "a"%string]).
Proof.
  apply (augment_schema_column_order (T := Merlin.union_tags) MoreExamples.described
           ["a"%string] ["b"%string] ["c"%string; "a"%string] (Some ["b"%string])
           (Some [("b"%string, 5)]) false).
  vm_compute. reflexivity.
Defined.

(** ** What the loops leave alone *)

Lemma union_tags_only : TagsOnly Merlin.union_tags.
Proof. constructor; reflexivity. Qed.

Lemma replace_tags_only : TagsOnly Merlin.replace_tags.
Proof. constructor; reflexivity. Qed.

Lemma same_but_tags_refl cs : same_but_tags cs cs.
Proof. unfold same_but_tags. auto. Qed.

Lemma same_but_tags_trans a b c :
  same_but_tags a b -> same_but_tags b c -> same_but_tags a c.
Proof. unfold same_but_tags. intuition congruence. Qed.

Lemma same_but_tags_column a b : same_but_tags a b -> same_column a b.
Proof.
  unfold same_but_tags, same_column. intros (Hn & Hd & _ & _ & Hp).
  repeat split; try assumption. intros key _. now rewrite Hp.
Qed.

Lemma same_column_trans a b c :
  same_column a b -> same_column b c -> same_column a c.
Proof.
  unfold same_column. intros (Hn & Hd & Hp) (Hn' & Hd' & Hp').
  repeat split; try congruence.
  intros key Hkey. rewrite Hp by assumption. now apply Hp'.
Qed.

Lemma select_loop_get schema names : forall selected sel,
  Merlin.select_loop schema names selected = Ok sel ->
  (forall k, In k names -> Dict.get sel k = Dict.get schema k) /\
  (forall k, ~ In k names -> Dict.get sel k = Dict.get selected k).
Proof.
  induction names as [|key rest IH]; intros selected sel H.
  - inversion H; subst. split; [intros k [] | reflexivity].
  - cbn [Merlin.select_loop] in H. apply bindR_ok in H. destruct H as (cs & Hcs & H).
    apply getitem_ok in Hcs. destruct (IH _ _ H) as [Hin Hout]. split.
    + intros k Hk. destruct (in_dec string_dec k rest) as [Hr|Hr]; [now apply Hin|].
      destruct Hk as [<-|Hk]; [|contradiction].
      rewrite Hout by assumption. now rewrite DictFacts.get_set_same.
    + intros k Hk. rewrite Hout by (intros Hr; apply Hk; now right).
      apply DictFacts.get_set_other. intros ->. apply Hk. now left.
Qed.

Lemma tag_loop_fields {T : Merlin.Tagging} {O : TagsOnly T} tag labels :
  forall schema schema',
    tag_loop tag labels schema = Ok schema' ->
    forall k cs', Dict.get schema' k = Some cs' ->
      exists cs, Dict.get schema k = Some cs /\ same_but_tags cs' cs.
Proof.
  induction labels as [|label rest IH]; intros schema schema' H k cs' Hget.
  - inversion H; subst. exists cs'. split; [assumption | apply same_but_tags_refl].
  - cbn [tag_loop] in H. apply bindR_ok in H. destruct H as (cs & Hcs & H).
    apply getitem_ok in Hcs.
    destruct (IH _ _ H k cs' Hget) as (cs1 & Hget1 & Hsame).
    destruct (string_dec k label) as [->|Hne].
    + rewrite DictFacts.get_set_same in Hget1. inversion Hget1; subst cs1.
      exists cs. split; [assumption|].
      eapply same_but_tags_trans; [exact Hsame|].
      unfold same_but_tags.
      now rewrite with_tags_name, with_tags_dtype, with_tags_is_list,
        with_tags_is_ragged, with_tags_properties.
    + rewrite DictFacts.get_set_other in Hget1 by assumption. eauto.
Qed.

Lemma sparse_loop_fields sparse_max dense cols : forall schema schema',
  sparse_loop sparse_max dense cols schema = Ok schema' ->
  forall k cs', Dict.get schema' k = Some cs' ->
    exists cs,
      Dict.get schema k = Some cs /\
      same_column cs' cs /\
      (~ In k cols -> cs' = cs).
Proof.
  induction cols as [|col rest IH]; intros schema schema' H k cs' Hget.
  - inversion H; subst. exists cs'. split; [assumption|].
    split; [apply same_but_tags_column, same_but_tags_refl | reflexivity].
  - cbn [sparse_loop] in H. apply bindR_ok in H. destruct H as (schema1 & Hstep & H).
    destruct (IH _ _ H k cs' Hget) as (cs1 & Hget1 & Hsame & Heq).
    unfold sparse_step in Hstep. apply bindR_ok in Hstep.
    destruct Hstep as (cs & Hcs & Hstep). apply getitem_ok in Hcs.
    inversion Hstep; subst schema1. clear Hstep.
    destruct (string_dec k col) as [->|Hne].
    + rewrite DictFacts.get_set_same in Hget1. inversion Hget1; subst cs1.
      exists cs. split; [assumption|]. split.
      * eapply same_column_trans; [exact Hsame|].
        unfold same_column. cbn [Merlin.name Merlin.dtype Merlin.properties].
        repeat split. intros key Hkey.
        destruct (sparse_max_of sparse_max col); [|reflexivity].
        now apply DictFacts.get_set_other.
      * intros Hnot. exfalso. apply Hnot. now left.
    + rewrite DictFacts.get_set_other in Hget1 by assumption.
      exists cs1. split; [assumption|]. split; [assumption|].
      intros Hnot. apply Heq. intros Hin. apply Hnot. now right.
Qed.

(** X18: with a tagging operation that touches nothing but the tags, every
    column of a returned schema is the column of that name of the schema
    passed in, up to its tags and to what the sparse loop sets: it keeps
    the name, the dtype and every property other than ["value_count"]; and a
    column that is not named in [sparse_names] keeps its list and ragged
    flags and all its properties as well. *)
Theorem augment_schema_keeps_fields {T : Merlin.Tagging} {O : TagsOnly T}
    (schema : Merlin.Schema) (cats conts labels : list string)
    (sparse_names : option (list string)) (sparse_max : option (Dict.t Z))
    (sparse_as_dense : bool) (result : Merlin.Schema) :
  _augment_schema schema (Some cats) (Some conts) (Some (LabelList labels))
                  sparse_names sparse_max sparse_as_dense = Ok result ->
  (forall k cs, Dict.get result k = Some cs ->
     exists cs0, Dict.get schema k = Some cs0 /\ same_column cs cs0) /\
  (forall k cs, Dict.get result k = Some cs -> ~ In k (or_empty sparse_names) ->
     exists cs0, Dict.get schema k = Some cs0 /\ same_but_tags cs cs0).
Proof.
  intros Hrun.
  destruct (augment_schema_returned _ _ _ _ _ _ _ _ Hrun)
    as (sel & s1 & s2 & s3 & Hsel & H1 & H2 & H3 & H4).
  assert (Hall : forall k cs, Dict.get result k = Some cs ->
            exists cs3 cs0,
              Dict.get schema k = Some cs0 /\
              same_column cs cs3 /\ (~ In k (or_empty sparse_names) -> cs = cs3) /\
              same_but_tags cs3 cs0).
  { intros k cs Hget.
    destruct (sparse_loop_fields _ _ _ _ _ H4 k cs Hget) as (cs3 & G3 & Hcol & Heq).
    destruct (tag_loop_fields _ _ _ _ H3 k cs3 G3) as (cs2 & G2 & S3).
    destruct (tag_loop_fields _ _ _ _ H2 k cs2 G2) as (cs1 & G1 & S2).
    destruct (tag_loop_fields _ _ _ _ H1 k cs1 G1) as (cs0 & G0 & S1).
    destruct (select_loop_get _ _ _ _ Hsel) as [Hin Hout].
    assert (Hk : In k ((conts ++ cats) ++ labels)).
    { destruct (in_dec string_dec k ((conts ++ cats) ++ labels)) as [Hk|Hk];
        [exact Hk|].
      rewrite (Hout k Hk) in G0. discriminate. }
    rewrite (Hin k Hk) in G0.
    exists cs3, cs0. split; [assumption|]. split; [assumption|].
    split; [assumption|].
    eapply same_but_tags_trans; [exact S3|].
    eapply same_but_tags_trans; [exact S2 | exact S1]. }
  split.
  - intros k cs Hget. destruct (Hall k cs Hget) as (cs3 & cs0 & G0 & Hcol & _ & Hsame).
    exists cs0. split; [assumption|].
    eapply same_column_trans; [exact Hcol | now apply same_but_tags_column].
  - intros k cs Hget Hnot.
    destruct (Hall k cs Hget) as (cs3 & cs0 & G0 & _ & Heq & Hsame).
    exists cs0. split; [assumption|]. now rewrite (Heq Hnot).
Qed.

Lemma augment_schema_keeps_fields_witness :
  (forall k cs, Dict.get (schema_of MoreExamples.described_run) k = Some cs ->
     exists cs0, Dict.get MoreExamples.described k = Some cs0 /\ same_column cs cs0) /\
  (forall k cs, Dict.get (schema_of MoreExamples.described_run) k = Some cs ->
     ~ In k (or_empty (Some ["b"%string])) ->
     exists cs0, Dict.get MoreExamples.described k = Some cs0 /\ same_but_tags cs cs0).
Proof.
  apply (augment_schema_keeps_fields (O := union_tags_only) MoreExamples.described
           ["a"%string] ["b"%string] ["c"%string; "a"%string] (Some ["b"%string])
           (Some [("b"%string, 5)]) false).
  vm_compute. reflexivity.
Defined.

(** ** Tags already on a column *)

(** X19: with additive tagging, a tag that a selected column carries in the
    schema passed in is still on that column in the returned schema: the
    selection, the three tagging loops and the sparse loop remove no tag. *)
Theorem augment_schema_keeps_tags {T : Merlin.Tagging} {K : Merlin.TagsKept T}
    (schema : Merlin.Schema) (cats conts labels : list string)
    (sparse_names : option (list string)) (sparse_max : option (Dict.t Z))
    (sparse_as_dense : bool) (result : Merlin.Schema) (k : string) (t : Merlin.Tags) :
  _augment_schema schema (Some cats) (Some conts) (Some (LabelList labels))
                  sparse_names sparse_max sparse_as_dense = Ok result ->
  In k (Dict.keys result) ->
  has_tag schema k t ->
  has_tag result k t.
Proof.
  intros Hrun Hk Ht.
  destruct (augment_schema_returned _ _ _ _ _ _ _ _ Hrun)
    as (sel & s1 & s2 & s3 & Hsel & H1 & H2 & H3 & H4).
  destruct (sparse_loop_spec _ _ _ _ _ H4) as (K4 & T4 & _).
  rewrite K4, (tag_loop_keys _ _ _ _ H3), (tag_loop_keys _ _ _ _ H2),
    (tag_loop_keys _ _ _ _ H1) in Hk.
  apply (select_loop_keys _ _ _ _ Hsel) in Hk. destruct Hk as [[]|Hk].
  destruct (select_loop_get _ _ _ _ Hsel) as [Hin _].
  apply T4.
  apply (tag_loop_keeps _ _ _ _ H3).
  apply (tag_loop_keeps _ _ _ _ H2).
  apply (tag_loop_keeps _ _ _ _ H1).
  apply (has_tag_same_column schema); [now apply Hin | exact Ht].
Qed.

Lemma augment_schema_keeps_tags_witness :
  has_tag (schema_of MoreExamples.described_run) "a"%string Merlin.ITEM.
Proof.
  apply (augment_schema_keeps_tags (K := union_tags_kept) MoreExamples.described
           ["a"%string] ["b"%string] ["c"%string; "a"%string] (Some ["b"%string])
           (Some [("b"%string, 5)]) false (schema_of MoreExamples.described_run)
           "a"%string Merlin.ITEM).
  - vm_compute. reflexivity.
  - vm_compute. auto.
  - eexists. split; [vm_compute; reflexivity | simpl; auto].
Defined.

(** ** The cells of a padded list feature *)

